(** * Pitsweeper knowledge base and agent: a shallow embedding

    The development follows [Homework 1/src]: [maze_clause.py] (clauses),
    [maze_knowledge_base.py] (the CNF knowledge base) and [maze_agent.py]
    (the agent that consumes it).

    Conventions of the embedding:
    - a proposition is the Python tuple [(symbol, (col, row))];
    - the [props] dictionary of a clause is a finite map from propositions
      to polarities;
    - a Python [set] of clauses looks an element up by [__hash__] first and
      by [__eq__] second.  [__hash__] digests the tuple
      [(frozenset(props.items()), valid)]; the integer digest itself is not
      modelled, two clauses share a slot exactly when those tuples agree.
      Since equal tuples also pass [__eq__], a set of clauses is a finite
      set of (props, valid) records;
    - the order in which a Python [set] is iterated is not fixed by its
      contents, so every loop over a set takes the order from an oracle
      ([SetOrder]); general statements hold for every oracle that lists
      the members of each set once ([faithful]);
    - the [while True] loops take a bound on their rounds and return
      [None] when it is used up; [ask_with_timeout], which stops [ask]
      after a fixed time, hands [ask] the number of sweeps that fit into
      that time, and that number is an input of the model;
    - the methods of the agent are state transformers over the record of
      its attributes; the environment, which the agent only reads, is an
      argument of the calls that read it. *)

From stdpp Require Import gmap strings list fin_maps fin_sets.
From Stdlib Require Import ZArith QArith.
Open Scope Z_scope.

Definition Loc : Type := Z * Z.
Definition MazeProp : Type := string * Loc.

(** ** maze_clause.py *)

Module MazeClause.

Record t : Type := mk { props : gmap MazeProp bool; valid : bool }.

#[global] Instance t_eq_dec : EqDecision t.
Proof. solve_decision. Defined.

#[global] Instance t_countable : Countable t :=
  inj_countable' (λ c, (props c, valid c)) (λ p, mk p.1 p.2)
    (λ c, match c with mk _ _ => eq_refl end).

(** One iteration of the loop of [__init__]. *)
Definition init_step (self : t) (prop : MazeProp * bool) : t :=
  match props self !! prop.1 with
  | None => mk (<[prop.1 := prop.2]> (props self)) (valid self)
  | Some v =>
      if negb (eqb v prop.2)
      then mk (delete prop.1 (props self)) true
      else self
  end.

(** [MazeClause(props)] *)
Definition init (ps : list (MazeProp * bool)) : t :=
  foldl init_step (mk ∅ false) ps.

Definition get_prop (self : t) (prop : MazeProp) : option bool :=
  props self !! prop.

Definition is_valid (self : t) : bool := valid self.

Definition len (self : t) : nat := size (props self).

Definition is_empty (self : t) : bool :=
  negb (valid self) && bool_decide (len self = 0%nat).

(** [__eq__]: [frozenset(self.props)] iterates the dictionary, that is
    its keys. *)
Definition eq (self other : t) : bool :=
  bool_decide (dom (props self) = dom (props other))
  && eqb (valid self) (valid other).

(** [__hash__]: the tuple handed to the builtin [hash]. *)
Definition hash (self : t) : gset (MazeProp * bool) * bool :=
  (map_to_set pair (props self), valid self).

(** The loop of [resolve] that collects the propositions on which the
    two clauses disagree; [None] is the early [return set()]. *)
Fixpoint disagreements (keys : list MazeProp) (c1 c2 : t)
    (disagreed_props : list MazeProp) : option (list MazeProp) :=
  match keys with
  | [] => Some disagreed_props
  | prop_key :: rest =>
      match props c1 !! prop_key, props c2 !! prop_key with
      | Some v1, Some v2 =>
          if eqb v1 v2 then disagreements rest c1 c2 disagreed_props
          else
            let disagreed_props := disagreed_props ++ [prop_key] in
            if decide (1 < length disagreed_props)%nat then None
            else disagreements rest c1 c2 disagreed_props
      | _, _ => disagreements rest c1 c2 disagreed_props
      end
  end.

(** [resolve(c1, c2)]; [dict.update] lets the entries of [c2] override
    those of [c1]. *)
Definition resolve (c1 c2 : t) : gset t :=
  match disagreements (map_to_list (props c1)).*1 c1 c2 [] with
  | Some [prop] =>
      let resolved_dict := props c2 ∪ props c1 in
      let resolved_dict := delete prop resolved_dict in
      {[ init (map_to_list resolved_dict) ]}
  | _ => ∅
  end.

(** The loop of [invert] over one dictionary. *)
Definition invert_props (m : gmap MazeProp bool) : gmap MazeProp bool :=
  foldl (λ acc prop,
           match acc !! prop with
           | Some v => <[prop := negb v]> acc
           | None => acc
           end) m (map_to_list m).*1.

(** Clause objects live in a store; [invert] works on a reference. *)
Abbreviation ref := nat.
Abbreviation store := (gmap nat t).

(** [invert]: [inverse_query = self] binds a second name to the same
    object, the loop then writes through it. *)
Definition invert (self : ref) (h : store) : option (ref * store) :=
  match h !! self with
  | None => None
  | Some c =>
      let inverse_query := self in
      Some (inverse_query,
            <[inverse_query := mk (invert_props (props c)) (valid c)]> h)
  end.

(** The value the object holds once [invert] has returned. *)
Definition inverted (c : t) : t := mk (invert_props (props c)) (valid c).

End MazeClause.

(** How a Python [set] happens to be iterated: one sequence per set of
    clauses and per set of locations.  [faithful] says that the sequence
    lists the members of the set, each once. *)
Record SetOrder : Type := {
  clause_order : gset MazeClause.t → list MazeClause.t;
  loc_order : gset Loc → list Loc
}.

Definition faithful (o : SetOrder) : Prop :=
  (∀ s, clause_order o s ≡ₚ elements s) ∧ (∀ s, loc_order o s ≡ₚ elements s).

Definition elements_order : SetOrder :=
  {| clause_order := elements; loc_order := elements |}.

(** [itertools.combinations(iterable, 2)] *)
Fixpoint combinations2 {A : Type} (l : list A) : list (A * A) :=
  match l with
  | [] => []
  | x :: rest => ((λ y, (x, y)) <$> rest) ++ combinations2 rest
  end.

(** ** maze_knowledge_base.py *)

Module MazeKnowledgeBase.

Record t : Type := mk { clauses : gset MazeClause.t }.

Definition init : t := mk ∅.

Definition tell (self : t) (clause : MazeClause.t) : t :=
  mk (clauses self ∪ {[ clause ]}).

Definition len (self : t) : nat := size (clauses self).

Section Iteration.
Variable o : SetOrder.

(** The state of the loops of [filter_clauses]. *)
Record filter_state : Type := mk_filter {
  necessary_clauses : gset MazeClause.t;
  helpful_locs : gset MazeProp;
  to_remove : gset MazeClause.t;
  newly_added : bool
}.

(** The body of [for clause in potential_clauses.copy()]; the inner
    loop over the keys stops at the first helpful one. *)
Definition filter_step (st : filter_state) (clause : MazeClause.t)
    : filter_state :=
  let keys := (map_to_list (MazeClause.props clause)).*1 in
  if existsb (λ loc, bool_decide (loc ∈ helpful_locs st)) keys
  then mk_filter (necessary_clauses st ∪ {[ clause ]})
                 (helpful_locs st ∪ list_to_set keys)
                 (to_remove st ∪ {[ clause ]})
                 true
  else st.

(** The [while True] loop of [filter_clauses]; every round that goes
    on removes a clause from [potential_clauses], which bounds the
    number of rounds. *)
Fixpoint filter_loop (rounds : nat) (potential_clauses : gset MazeClause.t)
    (necessary : gset MazeClause.t) (helpful : gset MazeProp)
    : option (gset MazeClause.t) :=
  let st := foldl filter_step (mk_filter necessary helpful ∅ false)
                  (clause_order o potential_clauses) in
  if newly_added st then
    match rounds with
    | O => None
    | S rounds =>
        filter_loop rounds (potential_clauses ∖ to_remove st)
                    (necessary_clauses st) (helpful_locs st)
    end
  else Some (necessary_clauses st).

Definition filter_clauses (self : t) (query : MazeClause.t)
    : option (gset MazeClause.t) :=
  filter_loop (size (clauses self)) (clauses self) ∅
              (dom (MazeClause.props query)).

(** One sweep of [for clause1, clause2 in combinations(clauses, 2)]. *)
Inductive sweep : Type :=
| Contradiction
| Collected (new_clauses : gset MazeClause.t).

Fixpoint resolve_pairs (pairs : list (MazeClause.t * MazeClause.t))
    (new_clauses : gset MazeClause.t) : sweep :=
  match pairs with
  | [] => Collected new_clauses
  | (clause1, clause2) :: rest =>
      let resolvants := MazeClause.resolve clause1 clause2 in
      if bool_decide (MazeClause.init [] ∈ resolvants) then Contradiction
      else resolve_pairs rest (new_clauses ∪ resolvants)
  end.

(** The [while True] loop of [ask]; [passes] bounds the number of
    sweeps, [None] means the loop is still running when they are
    used up. *)
Fixpoint ask_loop (passes : nat) (clauses new_clauses : gset MazeClause.t)
    : option bool :=
  match passes with
  | O => None
  | S passes =>
      match resolve_pairs (combinations2 (clause_order o clauses))
                          new_clauses with
      | Contradiction => Some true
      | Collected new_clauses =>
          if bool_decide (new_clauses ⊆ clauses) then Some false
          else ask_loop passes (clauses ∪ new_clauses) new_clauses
      end
  end.

(** [ask].  The query is a clause object of the caller that no stored
    clause aliases (every caller in the repository builds it on the
    spot); [query.invert()] therefore only shows here through the
    value it returns. *)
Definition ask (passes : nat) (self : t) (query : MazeClause.t)
    : option bool :=
  match filter_clauses self query with
  | None => None
  | Some clauses =>
      let clauses := clauses ∪ {[ MazeClause.inverted query ]} in
      ask_loop passes clauses ∅
  end.

(** The loop of [get_simplified_clauses]; the [break] leaves the loop
    with what has been gathered so far. *)
Fixpoint simplify_loop (todo : list MazeClause.t) (loc : Loc)
    (is_pit : bool) (sani_clause : MazeClause.t)
    (to_add to_rem : gset MazeClause.t)
    : gset MazeClause.t * gset MazeClause.t :=
  match todo with
  | [] => (to_add, to_rem)
  | clause :: rest =>
      if bool_decide (MazeClause.len clause = 1%nat)
      then simplify_loop rest loc is_pit sani_clause to_add to_rem
      else if bool_decide
                (MazeClause.get_prop clause ("P"%string, loc) = Some is_pit)
      then (to_add, to_rem ∪ {[ clause ]})
      else simplify_loop rest loc is_pit sani_clause
             (to_add ∪ MazeClause.resolve clause sani_clause) to_rem
  end.

Definition get_simplified_clauses (clauses : gset MazeClause.t)
    (loc : Loc) (is_pit : bool) : gset MazeClause.t :=
  let sani_clause := MazeClause.init [(("P"%string, loc), is_pit)] in
  let '(to_add, to_rem) :=
    simplify_loop (clause_order o clauses) loc is_pit sani_clause ∅ ∅ in
  let clauses := clauses ∪ to_add in
  let clauses := clauses ∖ to_rem in
  clauses.

Definition simplify_from_known_locs (clauses : gset MazeClause.t)
    (known_pits known_safe : gset Loc) : gset MazeClause.t :=
  foldl (λ clauses loc,
           get_simplified_clauses clauses loc
             (bool_decide (loc ∈ known_pits)))
        clauses (loc_order o (known_pits ∪ known_safe)).

Definition simplify_self (self : t) (known_pits known_safe : gset Loc) : t :=
  mk (simplify_from_known_locs (clauses self) known_pits known_safe).

End Iteration.

End MazeKnowledgeBase.

(** ** heapq.heapify, as [maze_agent.py] calls it

    The algorithm of CPython's [heapq] module: [heapify] sifts every
    inner node, last to first; the result is a binary heap laid out in the
    list, not a sorted list. *)

Module heapq.
Section Heap.
Context {A : Type} `{Inhabited A} (lt : A → A → bool).

(** [while pos > startpos] of [_siftdown] *)
Fixpoint siftdown_loop (n : nat) (heap : list A) (startpos pos : nat)
    (newitem : A) : list A * nat :=
  match n with
  | O => (heap, pos)
  | S n =>
      if decide (startpos < pos)%nat then
        let parentpos := ((pos - 1) / 2)%nat in
        let parent := heap !!! parentpos in
        if lt newitem parent
        then siftdown_loop n (<[pos := parent]> heap) startpos parentpos newitem
        else (heap, pos)
      else (heap, pos)
  end.

Definition _siftdown (heap : list A) (startpos pos : nat) : list A :=
  let newitem := heap !!! pos in
  let '(heap, pos) := siftdown_loop (length heap) heap startpos pos newitem in
  <[pos := newitem]> heap.

(** [while childpos < endpos] of [_siftup] *)
Fixpoint siftup_loop (n : nat) (heap : list A) (endpos pos : nat)
    : list A * nat :=
  match n with
  | O => (heap, pos)
  | S n =>
      let childpos := (2 * pos + 1)%nat in
      if decide (childpos < endpos)%nat then
        let rightpos := (childpos + 1)%nat in
        let childpos :=
          if bool_decide (rightpos < endpos)%nat
             && negb (lt (heap !!! childpos) (heap !!! rightpos))
          then rightpos else childpos in
        siftup_loop n (<[pos := heap !!! childpos]> heap) endpos childpos
      else (heap, pos)
  end.

Definition _siftup (heap : list A) (pos : nat) : list A :=
  let endpos := length heap in
  let startpos := pos in
  let newitem := heap !!! pos in
  let '(heap, pos) := siftup_loop (length heap) heap endpos pos in
  _siftdown (<[pos := newitem]> heap) startpos pos.

(** [for i in reversed(range(n//2)): _siftup(x, i)] *)
Definition heapify (x : list A) : list A :=
  let n := length x in
  foldl _siftup x (reverse (seq 0 (n / 2))).
End Heap.
End heapq.

(** ** maze_agent.py *)

Module MazeAgent.

(** Modelled from the spec: the tile markers of [constants.py], which
    [maze_agent.py] imports and which is not among the sources.  The
    spec names a hazard marker (also the symbol of every proposition),
    a safe marker and the warning markers of severity 0 to 4; the set
    [WRN_BLOCKS] of markers that count as warnings is taken as given. *)
Record Constants : Type := {
  PIT_BLOCK : string;
  SAFE_BLOCK : string;
  WRN_ZERO_BLOCK : string;
  WRN_ONE_BLOCK : string;
  WRN_TWO_BLOCK : string;
  WRN_THREE_BLOCK : string;
  WRN_FOUR_BLOCK : string;
  WRN_BLOCKS : gset string
}.

(** What the agent reads from the environment during one call. *)
Record Environment : Type := {
  get_goal_loc : Loc;
  get_player_loc : Loc;
  get_cardinal_locs : Loc → Z → gset Loc;
  get_frontier_locs : gset Loc
}.

Record Perception : Type := { loc : Loc; tile : string }.

(** The calls the agent makes on its knowledge base, oldest first. *)
Inductive Event : Type :=
| Simplified (known_pits known_safe : gset Loc)
| Asked (clause : MazeClause.t) (answer : option bool).

(** The attributes of the agent that the methods below read or write.
    [journal] is not an attribute of the Python object: it records the
    calls of [simplify_self] and [ask_with_timeout] in the order they
    are made. *)
Record t : Type := mk {
  goal : Loc;
  starting_loc : Loc;
  kb : MazeKnowledgeBase.t;
  possible_pits : gset Loc;
  safe_tiles : gset Loc;
  pit_tiles : gset Loc;
  journal : list Event
}.

Definition M (X : Type) : Type := t → X * t.

#[global] Instance M_ret : MRet M := λ _ x self, (x, self).
#[global] Instance M_bind : MBind M :=
  λ _ _ f m self, let '(x, self) := m self in f x self.

Definition get : M t := λ self, (self, self).
Definition put (self : t) : M unit := λ _, (tt, self).
Definition modify (f : t → t) : M unit := λ self, (tt, f self).

Definition set_kb (f : MazeKnowledgeBase.t → MazeKnowledgeBase.t) (self : t) : t :=
  mk (goal self) (starting_loc self) (f (kb self)) (possible_pits self)
     (safe_tiles self) (pit_tiles self) (journal self).
Definition set_possible_pits (f : gset Loc → gset Loc) (self : t) : t :=
  mk (goal self) (starting_loc self) (kb self) (f (possible_pits self))
     (safe_tiles self) (pit_tiles self) (journal self).
Definition set_safe_tiles (f : gset Loc → gset Loc) (self : t) : t :=
  mk (goal self) (starting_loc self) (kb self) (possible_pits self)
     (f (safe_tiles self)) (pit_tiles self) (journal self).
Definition set_pit_tiles (f : gset Loc → gset Loc) (self : t) : t :=
  mk (goal self) (starting_loc self) (kb self) (possible_pits self)
     (safe_tiles self) (f (pit_tiles self)) (journal self).
Definition record (e : Event) (self : t) : t :=
  mk (goal self) (starting_loc self) (kb self) (possible_pits self)
     (safe_tiles self) (pit_tiles self) (journal self ++ [e]).

(** [for x in l: body(x)] *)
Fixpoint for_each {X : Type} (l : list X) (body : X → M unit) : M unit :=
  match l with
  | [] => mret tt
  | x :: rest => _ ← body x; for_each rest body
  end.

(** [abs(a[0] - b[0]) + abs(a[1] - b[1])] *)
Definition manhattan (a b : Loc) : Z := Z.abs (a.1 - b.1) + Z.abs (a.2 - b.2).

(** [<] on the tuples [(priority, (col, row))] of the frontier list.
    Priorities are multiples of one half, which Python's floats hold
    exactly; they are rationals here. *)
Definition loc_lt (a b : Loc) : bool :=
  if decide (a.1 = b.1) then bool_decide (a.2 < b.2) else bool_decide (a.1 < b.1).
Definition item_lt (x y : Q * Loc) : bool :=
  match Qcompare x.1 y.1 with
  | Lt => true
  | Gt => false
  | Eq => loc_lt x.2 y.2
  end.

#[global] Instance item_inhabited : Inhabited (Q * Loc) := populate (0%Q, (0, 0)).

Section Agent.
Variable K : Constants.
Variable o : SetOrder.
(** How many sweeps of [ask] the next subprocess gets through before
    [ASK_TIMEOUT] runs out, given the calls made so far. *)
Variable budget : list Event → nat.

Definition pit_clause (l : Loc) (b : bool) : MazeClause.t :=
  MazeClause.init [((PIT_BLOCK K, l), b)].

Definition tell (clause : MazeClause.t) : M unit :=
  modify (set_kb (λ kb, MazeKnowledgeBase.tell kb clause)).

(** [ask_with_timeout]: the answer of [ask] when the subprocess ends
    in time, [None] otherwise. *)
Definition ask_with_timeout (clause : MazeClause.t) : M (option bool) :=
  self ← get;
  let answer :=
    MazeKnowledgeBase.ask o (budget (journal self)) (kb self) clause in
  _ ← modify (record (Asked clause answer));
  mret answer.

Definition is_safe_tile (l : Loc) : M (option bool) :=
  self ← get;
  if bool_decide (l ∈ safe_tiles self) then mret (Some true)
  else if bool_decide (l ∈ pit_tiles self) then mret (Some false)
  else
    _ ← modify (set_kb (λ kb,
           MazeKnowledgeBase.simplify_self o kb (pit_tiles self) (safe_tiles self)));
    _ ← modify (record (Simplified (pit_tiles self) (safe_tiles self)));
    no_pit ← ask_with_timeout (pit_clause l false);
    match no_pit with
    | Some true =>
        _ ← modify (set_safe_tiles (λ s, s ∪ {[ l ]}));
        _ ← tell (pit_clause l false);
        mret (Some true)
    | None =>
        _ ← modify (set_possible_pits (λ s, s ∪ {[ l ]}));
        mret None
    | Some false =>
        pit ← ask_with_timeout (pit_clause l true);
        match pit with
        | Some true =>
            _ ← modify (set_pit_tiles (λ s, s ∪ {[ l ]}));
            _ ← tell (pit_clause l true);
            mret (Some false)
        | _ =>
            _ ← modify (set_possible_pits (λ s, s ∪ {[ l ]}));
            mret None
        end
    end.

Definition CNF_to_KB (tiles_to_check : list Loc) (possible_pits : Z) : M unit :=
  let t0 := tiles_to_check !!! 0%nat in
  let t1 := tiles_to_check !!! 1%nat in
  let t2 := tiles_to_check !!! 2%nat in
  let p := PIT_BLOCK K in
  if decide (possible_pits = 2) then
    _ ← tell (MazeClause.init [((p, t0), true); ((p, t1), true)]);
    _ ← tell (MazeClause.init [((p, t0), true); ((p, t2), true)]);
    _ ← tell (MazeClause.init [((p, t1), true); ((p, t2), true)]);
    tell (MazeClause.init [((p, t0), false); ((p, t1), false); ((p, t2), false)])
  else if decide (possible_pits = 1) then
    _ ← tell (MazeClause.init [((p, t0), false); ((p, t1), false)]);
    _ ← tell (MazeClause.init [((p, t0), false); ((p, t2), false)]);
    _ ← tell (MazeClause.init [((p, t1), false); ((p, t2), false)]);
    tell (MazeClause.init [((p, t0), true); ((p, t1), true); ((p, t2), true)])
  else mret tt.

(** The first loop of [infer_adjacent_pits]: drop the tiles that
    [is_safe_tile] answers [True] for. *)
Fixpoint drop_safe (todo : list Loc) (adjacent_copy : gset Loc) : M (gset Loc) :=
  match todo with
  | [] => mret adjacent_copy
  | tile :: rest =>
      safe ← is_safe_tile tile;
      drop_safe rest
        (if bool_decide (safe = Some true)
         then adjacent_copy ∖ {[ tile ]} else adjacent_copy)
  end.

(** The third loop: remove the first tile found safe, then [break]. *)
Fixpoint drop_one_safe (todo : list Loc) (adjacent_tiles : gset Loc) : M (gset Loc) :=
  match todo with
  | [] => mret adjacent_tiles
  | tile :: rest =>
      safe ← is_safe_tile tile;
      if bool_decide (safe = Some true)
      then mret (adjacent_tiles ∖ {[ tile ]})
      else drop_one_safe rest adjacent_tiles
  end.

Definition mark_pit (tile : Loc) : M unit :=
  _ ← modify (set_pit_tiles (λ s, s ∪ {[ tile ]}));
  tell (pit_clause tile true).

Definition infer_adjacent_pits (adjacent_tiles : gset Loc) (num_pits : Z) : M unit :=
  let adjacent_copy := adjacent_tiles in
  adjacent_copy ← drop_safe (loc_order o adjacent_copy) adjacent_copy;
  if decide (Z.of_nat (size adjacent_copy) = num_pits) then
    for_each (loc_order o adjacent_copy) mark_pit
  else
    adjacent_tiles ←
      (if decide (3 < size adjacent_tiles)%nat
       then drop_one_safe (loc_order o adjacent_tiles) adjacent_tiles
       else mret adjacent_tiles);
    if decide (size adjacent_tiles = 3%nat)
    then CNF_to_KB (loc_order o adjacent_tiles) num_pits
    else mret tt.

Definition on_warning_tile (current_tile : string) (adjacent_tiles : gset Loc) : M unit :=
  if decide (current_tile = WRN_FOUR_BLOCK K) then
    for_each (loc_order o adjacent_tiles) mark_pit
  else if decide (current_tile = WRN_THREE_BLOCK K) then
    for_each (loc_order o adjacent_tiles) (λ neighbor,
      self ← get;
      if bool_decide (neighbor ∉ safe_tiles self) then mark_pit neighbor
      else mret tt)
  else if decide (current_tile = WRN_TWO_BLOCK K) then
    infer_adjacent_pits adjacent_tiles 2
  else if decide (current_tile = WRN_ONE_BLOCK K) then
    infer_adjacent_pits adjacent_tiles 1
  else mret tt.

(** The priority [find_best_next_move] gives to one candidate. *)
Definition priority (self : t) (current_loc possible_move : Loc) : Q :=
  let move_distance_from_goal := manhattan (goal self) possible_move in
  let move_cost := manhattan current_loc possible_move in
  let priority := (inject_Z move_distance_from_goal + inject_Z move_cost * (1 # 2))%Q in
  let priority :=
    if bool_decide (possible_move ∈ possible_pits self)
    then (priority + 4)%Q else priority in
  let priority :=
    if bool_decide (possible_move ∈ pit_tiles self)
    then (priority + 20)%Q else priority in
  priority.

(** The first loop of [find_best_next_move]: [inl] is the early
    [return possible_move] at the goal. *)
Fixpoint rank_moves (self : t) (todo : list Loc) (current_loc : Loc)
    (priority_frontier : list (Q * Loc)) : Loc + list (Q * Loc) :=
  match todo with
  | [] => inr priority_frontier
  | possible_move :: rest =>
      if decide (possible_move = goal self) then inl possible_move
      else rank_moves self rest current_loc
             (priority_frontier ++ [(priority self current_loc possible_move, possible_move)])
  end.

(** The second loop: the first entry of the list that [is_safe_tile]
    answers [True] for. *)
Fixpoint first_safe (todo : list (Q * Loc)) : M (option Loc) :=
  match todo with
  | [] => mret None
  | sorted_move :: rest =>
      safe ← is_safe_tile sorted_move.2;
      if bool_decide (safe = Some true) then mret (Some sorted_move.2)
      else first_safe rest
  end.

(** [find_best_next_move]; [None] is the [IndexError] that
    [priority_frontier[0]] raises on an empty list. *)
Definition find_best_next_move (possible_moves : gset Loc) (current_loc : Loc)
    : M (option Loc) :=
  self ← get;
  match rank_moves self (loc_order o possible_moves) current_loc [] with
  | inl possible_move => mret (Some possible_move)
  | inr priority_frontier =>
      let priority_frontier := heapq.heapify item_lt priority_frontier in
      found ← first_safe priority_frontier;
      match found with
      | Some move => mret (Some move)
      | None => mret (snd <$> head priority_frontier)
      end
  end.

Definition think (env : Environment) (perception : Perception) : M (option Loc) :=
  let current_tile := tile perception in
  let current_loc := loc perception in
  _ ← (if decide (current_tile ≠ PIT_BLOCK K)
       then tell (pit_clause current_loc false)
       else tell (pit_clause current_loc true));
  let adjacent_tiles := get_cardinal_locs env current_loc 1 in
  _ ← (if bool_decide (current_tile = SAFE_BLOCK K)
          || bool_decide (current_tile = WRN_ZERO_BLOCK K)
       then for_each (loc_order o adjacent_tiles) (λ neighbor,
              _ ← modify (set_safe_tiles (λ s, s ∪ {[ neighbor ]}));
              tell (pit_clause neighbor false))
       else mret tt);
  _ ← (if bool_decide (current_tile ∈ WRN_BLOCKS K)
       then on_warning_tile current_tile adjacent_tiles
       else mret tt);
  find_best_next_move (get_frontier_locs env) current_loc.

Definition add_starting_rules (env : Environment) (perception : Perception) : M unit :=
  self ← get;
  _ ← modify (set_safe_tiles (λ s, s ∪ {[ starting_loc self; goal self ]}));
  let paths_to_goal := get_cardinal_locs env (goal self) 1 in
  let props := (λ l, ((PIT_BLOCK K, l), false)) <$> loc_order o paths_to_goal in
  _ ← tell (MazeClause.init props);
  _ ← (match props with
       | [prop] => modify (set_safe_tiles (λ s, s ∪ {[ prop.1.2 ]}))
       | _ => mret tt
       end);
  _ ← (if bool_decide (tile perception = SAFE_BLOCK K)
          || bool_decide (tile perception = WRN_ZERO_BLOCK K)
       then modify (set_safe_tiles (λ s,
              s ∪ get_cardinal_locs env (starting_loc self) 1))
       else mret tt);
  if bool_decide (tile perception ∈ WRN_BLOCKS K)
  then on_warning_tile (tile perception)
         (get_cardinal_locs env (starting_loc self) 1)
  else mret tt.

(** [MazeAgent(env, perception)] *)
Definition init (env : Environment) (perception : Perception) : t :=
  let self := mk (get_goal_loc env) (get_player_loc env)
                 MazeKnowledgeBase.init ∅ ∅ ∅ [] in
  (add_starting_rules env perception self).2.

(** The calls the claims speak of. *)
Inductive Call : Type :=
| call_think (env : Environment) (perception : Perception)
| call_is_safe_tile (l : Loc).

Definition run (c : Call) (self : t) : t :=
  match c with
  | call_think env perception => (think env perception self).2
  | call_is_safe_tile l => (is_safe_tile l self).2
  end.

Inductive reachable : t → Prop :=
| reachable_init env perception : reachable (init env perception)
| reachable_run c self : reachable self → reachable (run c self).
End Agent.
End MazeAgent.

Definition P (c r : Z) : MazeProp := ("P"%string, (c, r)).

Definition kb_of (cs : list MazeClause.t) : MazeKnowledgeBase.t :=
  foldl MazeKnowledgeBase.tell MazeKnowledgeBase.init cs.

(** The markers of the Pitsweeper maze files. *)
Definition pitsweeper : MazeAgent.Constants :=
  {| MazeAgent.PIT_BLOCK := "P";
     MazeAgent.SAFE_BLOCK := ".";
     MazeAgent.WRN_ZERO_BLOCK := "0";
     MazeAgent.WRN_ONE_BLOCK := "1";
     MazeAgent.WRN_TWO_BLOCK := "2";
     MazeAgent.WRN_THREE_BLOCK := "3";
     MazeAgent.WRN_FOUR_BLOCK := "4";
     MazeAgent.WRN_BLOCKS := {[ "1"; "2"; "3"; "4" ]}%string |}.

(** * Vocabulary of the statements *)

(** ** Semantics of clauses *)

(** A truth assignment satisfies a clause when the clause is flagged as
    valid or one of its signed propositions is true under it. *)
Definition holds (v : MazeProp → bool) (c : MazeClause.t) : Prop :=
  MazeClause.valid c = true
  ∨ ∃ p b, MazeClause.props c !! p = Some b ∧ v p = b.

(** One of the signed propositions of the clause is true under [v]; the
    flag is not looked at. *)
Definition some_literal_holds (v : MazeProp → bool) (c : MazeClause.t) : Prop :=
  ∃ p b, MazeClause.props c !! p = Some b ∧ v p = b.

Definition models (v : MazeProp → bool) (kb : MazeKnowledgeBase.t) : Prop :=
  ∀ c, c ∈ MazeKnowledgeBase.clauses kb → holds v c.

Definition consistent (kb : MazeKnowledgeBase.t) : Prop := ∃ v, models v kb.

Definition entails (kb : MazeKnowledgeBase.t) (query : MazeClause.t) : Prop :=
  ∀ v, models v kb → holds v query.

(** ** Resolution and the loops of the knowledge base *)

(** The two clauses map [p] to opposite polarities. *)
Definition clash (c1 c2 : MazeClause.t) (p : MazeProp) : bool :=
  match MazeClause.props c1 !! p, MazeClause.props c2 !! p with
  | Some v1, Some v2 => negb (eqb v1 v2)
  | _, _ => false
  end.

(** The propositions of [c1] on which [c2] disagrees, in the order the
    loop of [resolve] meets them. *)
Definition clashes (c1 c2 : MazeClause.t) : list MazeProp :=
  filter (λ p, clash c1 c2 p = true) (map_to_list (MazeClause.props c1)).*1.

(** [x] and [y] are met as a pair, in one order or the other. *)
Definition paired {A : Type} (x y : A) (l : list A) : Prop :=
  (x, y) ∈ combinations2 l ∨ (y, x) ∈ combinations2 l.

Definition refuted (pairs : list (MazeClause.t * MazeClause.t)) : bool :=
  existsb (λ pr, bool_decide (MazeClause.init [] ∈ MazeClause.resolve pr.1 pr.2))
          pairs.

Definition resolvents (pairs : list (MazeClause.t * MazeClause.t))
    : gset MazeClause.t :=
  ⋃ ((λ pr, MazeClause.resolve pr.1 pr.2) <$> pairs).

(** The stored clauses that share a proposition with the query, or with a
    clause that does so in turn. *)
Inductive linked (kb : gset MazeClause.t) (seed : gset MazeProp)
    : MazeClause.t → Prop :=
| linked_seed c p :
    c ∈ kb → p ∈ dom (MazeClause.props c) → p ∈ seed → linked kb seed c
| linked_step c c' p :
    c ∈ kb → p ∈ dom (MazeClause.props c) →
    linked kb seed c' → p ∈ dom (MazeClause.props c') → linked kb seed c.

(** What one round of the loop of [filter_clauses] establishes. *)
Record round_ok (kb : gset MazeClause.t) (seed : gset MazeProp)
    (N : gset MazeClause.t) (H : gset MazeProp) (l : list MazeClause.t)
    (st : MazeKnowledgeBase.filter_state) : Prop := {
  round_necessary :
    MazeKnowledgeBase.necessary_clauses st = N ∪ MazeKnowledgeBase.to_remove st;
  round_removed :
    ∀ c, c ∈ MazeKnowledgeBase.to_remove st → c ∈ l;
  round_linked :
    ∀ c, c ∈ MazeKnowledgeBase.necessary_clauses st → linked kb seed c;
  round_sound :
    ∀ p, p ∈ MazeKnowledgeBase.helpful_locs st →
         p ∈ seed ∨ ∃ c, c ∈ MazeKnowledgeBase.necessary_clauses st
                         ∧ p ∈ dom (MazeClause.props c);
  round_grows : H ⊆ MazeKnowledgeBase.helpful_locs st;
  round_keys :
    ∀ c, c ∈ MazeKnowledgeBase.to_remove st →
         dom (MazeClause.props c) ⊆ MazeKnowledgeBase.helpful_locs st;
  round_flag :
    if MazeKnowledgeBase.newly_added st
    then ∃ c, c ∈ MazeKnowledgeBase.to_remove st
    else MazeKnowledgeBase.to_remove st = ∅
         ∧ MazeKnowledgeBase.helpful_locs st = H
         ∧ ∀ c p, c ∈ l → p ∈ dom (MazeClause.props c) → p ∉ H
}.

(** Every resolvent of two clauses of the set is in the set. *)
Definition saturated (S : gset MazeClause.t) : Prop :=
  ∀ c1 c2, c1 ∈ S → c2 ∈ S → MazeClause.resolve c1 c2 ⊆ S.

(** [v] with the value of [p] replaced. *)
Definition assign (v : MazeProp → bool) (p : MazeProp) (b : bool)
    : MazeProp → bool :=
  λ q, if decide (q = p) then b else v q.

(** The propositions that occur in a set of clauses. *)
Definition atoms (S : gset MazeClause.t) : gset MazeProp :=
  ⋃ ((λ c, dom (MazeClause.props c)) <$> elements S).

(** Every dictionary over the listed propositions. *)
Fixpoint all_props (ps : list MazeProp) : gset (gmap MazeProp bool) :=
  match ps with
  | [] => {[ ∅ ]}
  | p :: ps =>
      all_props ps
      ∪ set_map (insert p true) (all_props ps)
      ∪ set_map (insert p false) (all_props ps)
  end.

(** The clauses that [ask] can ever hold when it starts from [S]: those of
    [S] and the unflagged clauses over the propositions of [S]. *)
Definition universe (S : gset MazeClause.t) : gset MazeClause.t :=
  S ∪ set_map (λ m, MazeClause.mk m false) (all_props (elements (atoms S))).

(** ** One call of [is_safe_tile] *)

(** The knowledge base, the journal and the answers along one call of
    [is_safe_tile] that gets past the two lookups. *)
Definition simplified_kb (o : SetOrder) (self : MazeAgent.t) : MazeKnowledgeBase.t :=
  MazeKnowledgeBase.simplify_self o (MazeAgent.kb self)
    (MazeAgent.pit_tiles self) (MazeAgent.safe_tiles self).

Definition journal_1 (self : MazeAgent.t) : list MazeAgent.Event :=
  MazeAgent.journal self
  ++ [MazeAgent.Simplified (MazeAgent.pit_tiles self) (MazeAgent.safe_tiles self)].

Definition answer_1 (K : MazeAgent.Constants) (o : SetOrder)
    (budget : list MazeAgent.Event → nat) (l : Loc) (self : MazeAgent.t)
    : option bool :=
  MazeKnowledgeBase.ask o (budget (journal_1 self)) (simplified_kb o self)
    (MazeAgent.pit_clause K l false).

Definition journal_2 (K : MazeAgent.Constants) (o : SetOrder)
    (budget : list MazeAgent.Event → nat) (l : Loc) (self : MazeAgent.t)
    : list MazeAgent.Event :=
  journal_1 self
  ++ [MazeAgent.Asked (MazeAgent.pit_clause K l false) (answer_1 K o budget l self)].

Definition answer_2 (K : MazeAgent.Constants) (o : SetOrder)
    (budget : list MazeAgent.Event → nat) (l : Loc) (self : MazeAgent.t)
    : option bool :=
  MazeKnowledgeBase.ask o (budget (journal_2 K o budget l self))
    (simplified_kb o self) (MazeAgent.pit_clause K l true).

Definition journal_3 (K : MazeAgent.Constants) (o : SetOrder)
    (budget : list MazeAgent.Event → nat) (l : Loc) (self : MazeAgent.t)
    : list MazeAgent.Event :=
  journal_2 K o budget l self
  ++ [MazeAgent.Asked (MazeAgent.pit_clause K l true) (answer_2 K o budget l self)].

(** ** Invariants of the agent *)

Definition grows (a b : MazeAgent.t) : Prop :=
  MazeAgent.safe_tiles a ⊆ MazeAgent.safe_tiles b
  ∧ MazeAgent.pit_tiles a ⊆ MazeAgent.pit_tiles b
  ∧ MazeAgent.possible_pits a ⊆ MazeAgent.possible_pits b.

Definition growing {X : Type} (m : MazeAgent.M X) : Prop :=
  ∀ self, grows self (m self).2.

(** The two confirmed sets have no location in common. *)
Definition apart (self : MazeAgent.t) : Prop :=
  MazeAgent.safe_tiles self ## MazeAgent.pit_tiles self.

(** The two confirmed sets of an agent. *)
Definition confirmed (self : MazeAgent.t) : gset Loc * gset Loc :=
  (MazeAgent.safe_tiles self, MazeAgent.pit_tiles self).

(** The tile is one that [think] and [add_starting_rules] read as clear. *)
Definition clear_tile (K : MazeAgent.Constants) (tile : string) : bool :=
  bool_decide (tile = MazeAgent.SAFE_BLOCK K)
  || bool_decide (tile = MazeAgent.WRN_ZERO_BLOCK K).

(** The attributes that the choice of a move reads. *)
Definition view (self : MazeAgent.t) : Loc * gset Loc * gset Loc * gset Loc :=
  (MazeAgent.goal self, MazeAgent.possible_pits self,
   MazeAgent.safe_tiles self, MazeAgent.pit_tiles self).

(** Candidates that are confirmed pits, none of them suspected. *)
Definition known_pits (self : MazeAgent.t) (moves : list Loc) : Prop :=
  Forall (λ m, (m ∉ MazeAgent.possible_pits self)
               ∧ (m ∉ MazeAgent.safe_tiles self)
               ∧ (m ∈ MazeAgent.pit_tiles self)) moves.

(** ** Statements about further code *)

(** Every signed proposition of the query is true under every assignment
    that satisfies the stored clauses. *)
Definition entails_each_literal (kb : MazeKnowledgeBase.t) (query : MazeClause.t)
    : Prop :=
  ∀ v, models v kb → ∀ p b, MazeClause.props query !! p = Some b → v p = b.

(** No stored clause mentions a proposition of the query. *)
Definition unrelated (kb : MazeKnowledgeBase.t) (query : MazeClause.t) : Prop :=
  ∀ c, c ∈ MazeKnowledgeBase.clauses kb →
       dom (MazeClause.props c) ## dom (MazeClause.props query).

(** No proposition is supplied with both polarities. *)
Definition conflict_free (l : list (MazeProp * bool)) : Prop :=
  ∀ p, (p, true) ∈ l → (p, false) ∈ l → False.

(** The agent after a sequence of calls, oldest first. *)
Definition run_all (K : MazeAgent.Constants) (o : SetOrder)
    (budget : list MazeAgent.Event → nat) (calls : list MazeAgent.Call)
    (self : MazeAgent.t) : MazeAgent.t :=
  foldl (λ self c, MazeAgent.run K o budget c self) self calls.

(** How many of the tiles are pits under an assignment. *)
Definition pit_count (K : MazeAgent.Constants) (v : MazeProp → bool)
    (tiles : list Loc) : nat :=
  length (filter (λ t, v (MazeAgent.PIT_BLOCK K, t) = true) tiles).

(** ** Clauses, knowledge bases and agents of the examples *)

(** [P(1,1)] and [~P(1,1)] *)
Definition pit_at : MazeClause.t := MazeClause.init [(P 1 1, true)].
Definition no_pit_at : MazeClause.t := MazeClause.init [(P 1 1, false)].

(** [P(1,2)] and [~P(1,2)] *)
Definition pit_12 : MazeClause.t := MazeClause.init [(P 1 2, true)].
Definition no_pit_12 : MazeClause.t := MazeClause.init [(P 1 2, false)].

(** [P(1,1) v P(1,2)] and [P(1,1) v P(1,3)] *)
Definition pit_11_or_12 : MazeClause.t :=
  MazeClause.init [(P 1 1, true); (P 1 2, true)].
Definition pit_11_or_13 : MazeClause.t :=
  MazeClause.init [(P 1 1, true); (P 1 3, true)].

(** [~P(1,1) v ~P(1,2)] *)
Definition not_both : MazeClause.t :=
  MazeClause.init [(P 1 1, false); (P 1 2, false)].

(** Built from [P(1,1), ~P(1,1), P(1,2)]: flagged, and left with
    [P(1,2)]. *)
Definition flagged_12 : MazeClause.t :=
  MazeClause.init [(P 1 1, true); (P 1 1, false); (P 1 2, true)].

(** A proposition supplied three times. *)
Definition thrice : list (MazeProp * bool) :=
  [(P 1 1, true); (P 1 1, false); (P 1 1, true)].

(** A store with the single clause object [P(1,1)]. *)
Definition one_clause_store : MazeClause.store := {[ 0%nat := pit_at ]}.

(** The knowledge bases told [P(1,1)]; [~P(1,1) v ~P(1,2)] and [P(1,1)];
    the flagged clause. *)
Definition kb_pit_11 : MazeKnowledgeBase.t := kb_of [pit_at].
Definition kb_not_both : MazeKnowledgeBase.t := kb_of [not_both; pit_at].
Definition kb_flagged : MazeKnowledgeBase.t := kb_of [flagged_12].

(** Two clauses that a pit at (1,1) settles, and what one call of
    [simplify_from_known_locs] makes of them. *)
Definition two_subsumed : gset MazeClause.t := {[ pit_11_or_12; pit_11_or_13 ]}.

Definition simplified_once (o : SetOrder) : gset MazeClause.t :=
  MazeKnowledgeBase.simplify_from_known_locs o two_subsumed {[ (1, 1) ]} ∅.

(** Time budgets: no sweep at all, and two sweeps, for every query. *)
Definition never (_ : list MazeAgent.Event) : nat := 0%nat.
Definition two_sweeps (_ : list MazeAgent.Event) : nat := 2%nat.

(** An agent that knows nothing, with the goal at (4,0). *)
Definition blank_agent : MazeAgent.t :=
  MazeAgent.mk (4, 0) (1, 1) MazeKnowledgeBase.init ∅ ∅ ∅ [].

(** The four neighbours of a tile on an unbounded board. *)
Definition cross (l : Loc) (_ : Z) : gset Loc :=
  {[ (l.1 + 1, l.2); (l.1 - 1, l.2); (l.1, l.2 + 1); (l.1, l.2 - 1) ]}.

(** The environment with the player at the start (0,0), and after one
    step to (1,0). *)
Definition at_start : MazeAgent.Environment :=
  {| MazeAgent.get_goal_loc := (4, 0);
     MazeAgent.get_player_loc := (0, 0);
     MazeAgent.get_cardinal_locs := cross;
     MazeAgent.get_frontier_locs := cross (0, 0) 1 |}.

Definition one_step_east : MazeAgent.Environment :=
  {| MazeAgent.get_goal_loc := (4, 0);
     MazeAgent.get_player_loc := (1, 0);
     MazeAgent.get_cardinal_locs := cross;
     MazeAgent.get_frontier_locs :=
       {[ (-1, 0); (0, 1); (0, -1); (2, 0); (1, 1); (1, -1) ]} |}.

(** The agent built on a safe start tile. *)
Definition started : MazeAgent.t :=
  MazeAgent.init pitsweeper elements_order two_sweeps at_start
    {| MazeAgent.loc := (0, 0); MazeAgent.tile := "." |}.

(** ... after it has tried to classify (1,1) and then stood on the safe
    tile (1,0). *)
Definition overlap_state : MazeAgent.t :=
  MazeAgent.run pitsweeper elements_order two_sweeps
    (MazeAgent.call_think one_step_east
       {| MazeAgent.loc := (1, 0); MazeAgent.tile := "." |})
    (MazeAgent.run pitsweeper elements_order two_sweeps
       (MazeAgent.call_is_safe_tile (1, 1)) started).

(** Modelled from the spec: the maze and its environment are not among
    the sources.  A maze is a set of tiles, some of them pits; the
    environment hands out the cardinal neighbours of a tile that lie in
    the maze and, as the frontier, the neighbours of the visited tiles
    that are not visited themselves; a tile that is no pit shows the
    number of pits among its cardinal neighbours.

    The corridor: a start at (0,0) with pits to its west, north and
    south, and free tiles (1,0), (2,0), (3,0) leading east to the goal
    at (4,0). *)
Definition corridor : gset Loc :=
  {[ (-1, 0); (0, 0); (0, 1); (0, -1); (1, 0); (2, 0); (3, 0); (4, 0) ]}.

Definition corridor_pits : gset Loc := {[ (-1, 0); (0, 1); (0, -1) ]}.

Definition corridor_locs (l : Loc) (offset : Z) : gset Loc :=
  filter (λ n, n ∈ corridor) (cross l offset).

Definition corridor_tile (l : Loc) : string :=
  if decide (l ∈ corridor_pits) then "P"
  else match size (filter (λ n, n ∈ corridor_pits) (corridor_locs l 1)) with
       | 0 => "."
       | 1 => "1"
       | 2 => "2"
       | 3 => "3"
       | _ => "4"
       end%nat.

(** The environment of the corridor once the tiles [visited] have been
    stood on, with the player at [player]. *)
Definition corridor_view (visited : gset Loc) (player : Loc)
    : MazeAgent.Environment :=
  {| MazeAgent.get_goal_loc := (4, 0);
     MazeAgent.get_player_loc := player;
     MazeAgent.get_cardinal_locs := corridor_locs;
     MazeAgent.get_frontier_locs :=
       ⋃ ((λ v, corridor_locs v 1) <$> elements visited) ∖ visited |}.

(** What the player perceives on a tile of the corridor. *)
Definition corridor_look (l : Loc) : MazeAgent.Perception :=
  {| MazeAgent.loc := l; MazeAgent.tile := corridor_tile l |}.

(** A walk through the corridor: the agent is built at the start, then
    [think] is called there and on the tiles (1,0) and (2,0), each time
    with what the corridor shows. *)
Definition walk_0 (o : SetOrder) (budget : list MazeAgent.Event → nat)
    : MazeAgent.t :=
  MazeAgent.init pitsweeper o budget (corridor_view {[ (0, 0) ]} (0, 0))
    (corridor_look (0, 0)).

Definition walk_1 (o : SetOrder) (budget : list MazeAgent.Event → nat)
    : option Loc * MazeAgent.t :=
  MazeAgent.think pitsweeper o budget (corridor_view {[ (0, 0) ]} (0, 0))
    (corridor_look (0, 0)) (walk_0 o budget).

Definition walk_2 (o : SetOrder) (budget : list MazeAgent.Event → nat)
    : option Loc * MazeAgent.t :=
  MazeAgent.think pitsweeper o budget
    (corridor_view {[ (0, 0); (1, 0) ]} (1, 0))
    (corridor_look (1, 0)) (walk_1 o budget).2.

Definition walk_3 (o : SetOrder) (budget : list MazeAgent.Event → nat)
    : option Loc * MazeAgent.t :=
  MazeAgent.think pitsweeper o budget
    (corridor_view {[ (0, 0); (1, 0); (2, 0) ]} (2, 0))
    (corridor_look (2, 0)) (walk_2 o budget).2.

(** A frontier of three tiles, and the order in which CPython 3 iterates
    the set [{(0,0), (0,1), (1,0)}]. *)
Definition frontier : gset Loc := {[ (0, 0); (0, 1); (1, 0) ]}.

Definition frontier_order : SetOrder :=
  {| clause_order := elements;
     loc_order := λ s, if decide (s = frontier)
                       then [(0, 1); (1, 0); (0, 0)] else elements s |}.

(** The assignment that makes (1,1) a pit and nothing else. *)
Definition only_pit_11 (p : MazeProp) : bool := bool_decide (p = P 1 1).

(** An agent at (1,1) that has confirmed (0,0) and (0,1) as safe and
    stores no clause; the goal is at (4,0). *)
Definition scout : MazeAgent.t :=
  MazeAgent.mk (4, 0) (1, 1) MazeKnowledgeBase.init ∅ {[ (0, 0); (0, 1) ]} ∅ [].

(** * Properties *)

#[local] Set Warnings "-clear-no-such-hyp".

(** ** Clauses *)

Section ClauseFacts.
Implicit Types (c : MazeClause.t) (m : gmap MazeProp bool) (p : MazeProp).

Lemma init_step_valid_mono c x :
  MazeClause.valid c = true → MazeClause.valid (MazeClause.init_step c x) = true.
Proof.
  intros Hv. unfold MazeClause.init_step.
  destruct (MazeClause.props c !! x.1) as [v|]; [|done].
  by destruct (negb (eqb v x.2)).
Qed.

(** As long as the flag is down, the dictionary holds every pair that
    has been supplied. *)
Lemma init_fold_agrees (l : list (MazeProp * bool)) c0 :
  let c := foldl MazeClause.init_step c0 l in
  MazeClause.valid c = false →
  ∀ p b, (p, b) ∈ l → MazeClause.props c !! p = Some b.
Proof.
  induction l as [|x l IH] using rev_ind; simpl.
  { intros _ p b Hin. by apply elem_of_nil in Hin. }
  rewrite foldl_app. simpl. intros Hv p b Hin.
  set (c := foldl MazeClause.init_step c0 l) in *.
  assert (Hc : MazeClause.valid c = false).
  { destruct (MazeClause.valid c) eqn:E; [|done].
    by rewrite (init_step_valid_mono c x E) in Hv. }
  specialize (IH Hc).
  unfold MazeClause.init_step in *.
  apply elem_of_app in Hin as [Hin | Hin%list_elem_of_singleton].
  - specialize (IH _ _ Hin).
    destruct (MazeClause.props c !! x.1) as [v|] eqn:E.
    + destruct (negb (eqb v x.2)); [done | exact IH].
    + simpl. destruct (decide (x.1 = p)) as [Heq|Hne].
      * rewrite Heq in E. congruence.
      * by rewrite lookup_insert_ne.
  - subst x. simpl in *.
    destruct (MazeClause.props c !! p) as [v|] eqn:E.
    + destruct (eqb v b) eqn:Eb; simpl in *; [|done].
      apply eqb_prop in Eb. by subst.
    + simpl. by rewrite lookup_insert_eq.
Qed.

(** The flag goes up whenever both polarities of a proposition are
    supplied. *)
Lemma init_conflict_valid (l : list (MazeProp * bool)) p :
  (p, true) ∈ l → (p, false) ∈ l →
  MazeClause.is_valid (MazeClause.init l) = true.
Proof.
  intros Ht Hf. unfold MazeClause.is_valid, MazeClause.init.
  destruct (MazeClause.valid _) eqn:E; [done|].
  pose proof (init_fold_agrees l _ E p true Ht) as H1.
  pose proof (init_fold_agrees l _ E p false Hf) as H2.
  congruence.
Qed.

(** On a list without repeated keys the constructor stores the list. *)
Lemma init_fold_nodup (l : list (MazeProp * bool)) m v :
  NoDup l.*1 → (∀ p, p ∈ l.*1 → m !! p = None) →
  foldl MazeClause.init_step (MazeClause.mk m v) l
  = MazeClause.mk (m ∪ list_to_map l) v.
Proof.
  revert m. induction l as [|[p b] l IH]; intros m Hnd Hfresh; simpl.
  { by rewrite (right_id_L ∅ (∪)). }
  apply NoDup_cons in Hnd as [Hp Hnd].
  unfold MazeClause.init_step at 2. simpl.
  rewrite (Hfresh p); [|by left].
  rewrite IH; [|done|].
  - f_equal. rewrite <- insert_union_r by (apply Hfresh; by left).
    rewrite insert_union_l. done.
  - intros q Hq. rewrite lookup_insert_ne; [apply Hfresh; by right|].
    intros ->. done.
Qed.

Lemma init_map_to_list m :
  MazeClause.init (map_to_list m) = MazeClause.mk m false.
Proof.
  unfold MazeClause.init.
  rewrite init_fold_nodup.
  - by rewrite (left_id_L ∅ (∪)), list_to_map_to_list.
  - apply NoDup_fst_map_to_list.
  - intros. apply lookup_empty.
Qed.

Lemma invert_fold (ks : list MazeProp) m :
  NoDup ks →
  ∀ p, foldl (λ acc prop,
                match acc !! prop with
                | Some v => <[prop := negb v]> acc
                | None => acc
                end) m ks !! p
       = if decide (p ∈ ks) then negb <$> m !! p else m !! p.
Proof.
  revert m. induction ks as [|k ks IH]; intros m Hnd p.
  { destruct (decide (p ∈ [])) as [Hin|]; [by apply elem_of_nil in Hin|done]. }
  apply NoDup_cons in Hnd as [Hk Hnd].
  cbn [foldl]. rewrite IH by done.
  destruct (decide (p = k)) as [->|Hne].
  - destruct (decide (k ∈ ks)) as [|_]; [done|].
    destruct (decide (k ∈ k :: ks)) as [_|Hn]; [|set_solver].
    destruct (m !! k) eqn:E; rewrite ?E; simpl; [|done].
    by rewrite lookup_insert_eq.
  - assert (Hm : (match m !! k with
                  | Some v => <[k := negb v]> m
                  | None => m
                  end) !! p = m !! p).
    { destruct (m !! k); [by rewrite lookup_insert_ne|done]. }
    rewrite Hm.
    destruct (decide (p ∈ ks)) as [Hin|Hin];
      destruct (decide (p ∈ k :: ks)) as [Hin'|Hin']; try done.
    + exfalso. apply Hin'. apply elem_of_cons. by right.
    + apply elem_of_cons in Hin' as [?|?]; done.
Qed.

Lemma invert_props_fmap m : MazeClause.invert_props m = negb <$> m.
Proof.
  apply map_eq. intros p. unfold MazeClause.invert_props.
  rewrite invert_fold by apply NoDup_fst_map_to_list.
  rewrite lookup_fmap.
  destruct (decide _) as [|Hn]; [done|].
  destruct (m !! p) as [b|] eqn:E; [|done].
  exfalso. apply Hn. apply list_elem_of_fmap.
  exists (p, b). split; [done|]. by apply elem_of_map_to_list.
Qed.

Lemma get_prop_inverted c p :
  MazeClause.get_prop (MazeClause.inverted c) p
  = negb <$> MazeClause.get_prop c p.
Proof.
  unfold MazeClause.get_prop, MazeClause.inverted. simpl.
  by rewrite invert_props_fmap, lookup_fmap.
Qed.

Lemma eq_spec c1 c2 :
  MazeClause.eq c1 c2 = true
  ↔ dom (MazeClause.props c1) = dom (MazeClause.props c2)
    ∧ MazeClause.valid c1 = MazeClause.valid c2.
Proof.
  unfold MazeClause.eq. rewrite andb_true_iff, bool_decide_eq_true.
  by rewrite eqb_true_iff.
Qed.
End ClauseFacts.

(** [__hash__] tells apart exactly the clauses that differ in a polarity
    or in the flag. *)
Lemma hash_eq_iff c1 c2 : MazeClause.hash c1 = MazeClause.hash c2 ↔ c1 = c2.
Proof.
  split; [|by intros ->].
  destruct c1 as [m1 v1], c2 as [m2 v2]. unfold MazeClause.hash. simpl.
  intros [Hm ->]%pair_eq. f_equal. apply map_eq. intros p.
  apply option_eq. intros b.
  by rewrite <- !(elem_of_map_to_set_pair (C:=gset (MazeProp * bool))), Hm.
Qed.

(** C2: [__eq__] should hold exactly for clauses with the same
    proposition-to-polarity associations and the same flag.  The code
    compares the key sets only: [P(1,1)] and [~P(1,1)], which map the same
    proposition to opposite polarities, compare equal. *)
Theorem C2_eq_ignores_polarity :
  MazeClause.eq pit_at no_pit_at = true
  ∧ MazeClause.get_prop pit_at (P 1 1) = Some true
  ∧ MazeClause.get_prop no_pit_at (P 1 1) = Some false
  ∧ MazeClause.props pit_at ≠ MazeClause.props no_pit_at.
Proof.
  split; [by vm_compute|].
  split; [by vm_compute|].
  split; [by vm_compute|].
  intros Heq.
  assert (Hl : MazeClause.props pit_at !! P 1 1
               = MazeClause.props no_pit_at !! P 1 1) by (by rewrite Heq).
  vm_compute in Hl. discriminate.
Qed.

(** C10: equal clauses should hash alike.  [P(1,1)] and [~P(1,1)] compare
    equal under [__eq__] while [__hash__] digests different tuples, so a
    knowledge base told both keeps both. *)
Theorem C10_equal_clauses_hash_apart :
  MazeClause.eq pit_at no_pit_at = true
  ∧ MazeClause.hash pit_at ≠ MazeClause.hash no_pit_at
  ∧ MazeKnowledgeBase.len (kb_of [pit_at; no_pit_at]) = 2%nat.
Proof.
  split; [by vm_compute|].
  split; [|by vm_compute].
  intros Heq.
  assert (Hin : (P 1 1, true) ∈ (MazeClause.hash pit_at).1).
  { apply elem_of_map_to_set_pair. by vm_compute. }
  rewrite Heq in Hin. apply elem_of_map_to_set_pair in Hin.
  vm_compute in Hin. discriminate.
Qed.

Lemma invert_aliases (h : MazeClause.store) (self : MazeClause.ref) c :
  h !! self = Some c →
  MazeClause.invert self h = Some (self, <[self := MazeClause.inverted c]> h).
Proof. intros Hc. unfold MazeClause.invert. by rewrite Hc. Qed.

Lemma inverted_differs c p b :
  MazeClause.get_prop c p = Some b → MazeClause.inverted c ≠ c.
Proof.
  intros Hp Heq. pose proof (get_prop_inverted c p) as Hi.
  rewrite Heq, Hp in Hi. by destruct b.
Qed.

(** C3: [invert] should leave its receiver as it was.  The code returns
    the receiver itself: the object that read [P(1,1)] before the call
    reads [~P(1,1)] after it, and no second object exists. *)
Theorem C3_invert_overwrites_receiver :
  one_clause_store !! 0%nat = Some pit_at
  ∧ MazeClause.invert 0%nat one_clause_store
    = Some (0%nat, {[ 0%nat := no_pit_at ]})
  ∧ MazeClause.get_prop pit_at (P 1 1) = Some true
  ∧ MazeClause.get_prop no_pit_at (P 1 1) = Some false.
Proof.
  split; [done|].
  split; [|by vm_compute].
  rewrite (invert_aliases _ _ pit_at) by done.
  unfold one_clause_store. rewrite insert_singleton_eq.
  replace (MazeClause.inverted pit_at) with no_pit_at; [done|].
  unfold MazeClause.inverted. rewrite invert_props_fmap.
  unfold no_pit_at, pit_at, MazeClause.init. simpl.
  unfold MazeClause.init_step. simpl. rewrite !lookup_empty. simpl.
  by rewrite fmap_insert, fmap_empty.
Qed.

(** C6: a clause built from a proposition supplied with both polarities
    should be flagged and hold no occurrence of that proposition.  The
    flag does go up ([init_conflict_valid]); but a third occurrence finds
    the key deleted and stores it again: built from
    [P(1,1), ~P(1,1), P(1,1)], the clause is flagged and still holds
    [P(1,1)]. *)
Theorem C6_third_occurrence_is_stored :
  (P 1 1, true) ∈ thrice ∧ (P 1 1, false) ∈ thrice
  ∧ MazeClause.is_valid (MazeClause.init thrice) = true
  ∧ MazeClause.get_prop (MazeClause.init thrice) (P 1 1) = Some true.
Proof.
  split; [by left|].
  split; [right; by left|].
  split; by vm_compute.
Qed.

(** ** Resolution *)

Lemma clash_sym c1 c2 p : clash c1 c2 p = clash c2 c1 p.
Proof.
  unfold clash.
  destruct (MazeClause.props c1 !! p) as [[]|], (MazeClause.props c2 !! p) as [[]|]; done.
Qed.

Lemma clash_lookup c1 c2 p :
  clash c1 c2 p = true →
  ∃ b, MazeClause.props c1 !! p = Some b
       ∧ MazeClause.props c2 !! p = Some (negb b).
Proof.
  unfold clash.
  destruct (MazeClause.props c1 !! p) as [b1|]; [|done].
  destruct (MazeClause.props c2 !! p) as [b2|]; [|done].
  intros Hb. exists b1. by destruct b1, b2.
Qed.

Lemma disagreements_filter keys c1 c2 acc :
  (length acc ≤ 1)%nat →
  MazeClause.disagreements keys c1 c2 acc
  = let found := acc ++ filter (λ p, clash c1 c2 p = true) keys in
    if decide (length found ≤ 1)%nat then Some found else None.
Proof.
  revert acc. induction keys as [|k keys IH]; intros acc Hacc.
  { simpl. rewrite filter_nil, app_nil_r. by rewrite decide_True. }
  rewrite filter_cons. cbn [MazeClause.disagreements].
  destruct (decide (clash c1 c2 k = true)) as [Hc|Hc]; unfold clash in Hc.
  - destruct (MazeClause.props c1 !! k) as [v1|]; [|done].
    destruct (MazeClause.props c2 !! k) as [v2|]; [|done].
    destruct (eqb v1 v2); [done|].
    destruct (decide (1 < length (acc ++ [k]))%nat) as [Hlt|Hle].
    + cbn zeta. rewrite decide_False; [done|].
      rewrite length_app in *. simpl in *. lia.
    + rewrite IH by lia. cbn zeta. by rewrite <- app_assoc.
  - destruct (MazeClause.props c1 !! k) as [v1|]; [|by apply IH].
    destruct (MazeClause.props c2 !! k) as [v2|]; [|by apply IH].
    destruct (eqb v1 v2); [by apply IH|done].
Qed.

Lemma resolve_spec c1 c2 :
  MazeClause.resolve c1 c2
  = match clashes c1 c2 with
    | [p] => {[ MazeClause.mk
                  (delete p (MazeClause.props c2 ∪ MazeClause.props c1)) false ]}
    | _ => ∅
    end.
Proof.
  unfold MazeClause.resolve. rewrite disagreements_filter by (simpl; lia).
  simpl. fold (clashes c1 c2).
  destruct (clashes c1 c2) as [|p [|q rest]]; simpl; try done.
  by rewrite init_map_to_list.
Qed.

Lemma elem_of_clashes c1 c2 p : p ∈ clashes c1 c2 ↔ clash c1 c2 p = true.
Proof.
  unfold clashes. rewrite list_elem_of_filter. split; [by intros [? _]|].
  intros Hc. split; [done|].
  unfold clash in Hc.
  destruct (MazeClause.props c1 !! p) as [v|] eqn:E; [|done].
  apply list_elem_of_fmap. exists (p, v). split; [done|].
  by apply elem_of_map_to_list.
Qed.

Lemma clashes_perm c1 c2 : clashes c1 c2 ≡ₚ clashes c2 c1.
Proof.
  apply NoDup_Permutation.
  - apply NoDup_filter, NoDup_fst_map_to_list.
  - apply NoDup_filter, NoDup_fst_map_to_list.
  - intros p. by rewrite !elem_of_clashes, clash_sym.
Qed.

(** Two clauses that clash on [p] alone agree wherever both speak. *)
Lemma single_clash_agree c1 c2 p q v1 v2 :
  clashes c1 c2 = [p] → q ≠ p →
  MazeClause.props c1 !! q = Some v1 → MazeClause.props c2 !! q = Some v2 →
  v1 = v2.
Proof.
  intros Hc Hq H1 H2.
  destruct (decide (v1 = v2)) as [|Hne]; [done|].
  assert (Hin : q ∈ clashes c1 c2).
  { apply elem_of_clashes. unfold clash. rewrite H1, H2.
    by destruct v1, v2. }
  rewrite Hc in Hin. by apply list_elem_of_singleton in Hin.
Qed.

(** [resolve] is symmetric. *)
Lemma resolve_sym c1 c2 : MazeClause.resolve c1 c2 = MazeClause.resolve c2 c1.
Proof.
  rewrite !resolve_spec.
  pose proof (clashes_perm c1 c2) as Hp.
  destruct (clashes c1 c2) as [|p [|q rest]] eqn:E12.
  - apply Permutation_nil_l in Hp. by rewrite <- Hp.
  - apply Permutation_singleton_l in Hp. rewrite <- Hp.
    f_equal. f_equal. apply map_eq. intros k.
    destruct (decide (k = p)) as [->|Hk].
    { by rewrite !lookup_delete_eq. }
    rewrite !lookup_delete_ne by done.
    rewrite !lookup_union.
    destruct (MazeClause.props c1 !! k) as [v1|] eqn:E1,
             (MazeClause.props c2 !! k) as [v2|] eqn:E2; simpl; try done.
    by rewrite (single_clash_agree c1 c2 p k v1 v2 E12 Hk E1 E2).
  - destruct (clashes c2 c1) as [|p' [|q' rest']] eqn:E21; try done.
    apply Permutation_length in Hp. simpl in Hp. lia.
Qed.

Lemma resolve_sound v c1 c2 r :
  some_literal_holds v c1 → some_literal_holds v c2 →
  r ∈ MazeClause.resolve c1 c2 → some_literal_holds v r.
Proof.
  intros (q1 & b1 & Hq1 & Hv1) (q2 & b2 & Hq2 & Hv2).
  rewrite resolve_spec.
  destruct (clashes c1 c2) as [|p [|? ?]] eqn:Ec; [set_solver| |set_solver].
  intros ->%elem_of_singleton.
  assert (Hp : clash c1 c2 p = true).
  { apply elem_of_clashes. rewrite Ec. by left. }
  apply clash_lookup in Hp as (b & Hp1 & Hp2).
  destruct (decide (q2 = p)) as [->|Hne2].
  - (* the true literal of [c2] is the one resolved on: use that of [c1] *)
    assert (Hne1 : q1 ≠ p).
    { intros ->. rewrite Hp1 in Hq1. rewrite Hp2 in Hq2.
      injection Hq1 as <-. injection Hq2 as <-. rewrite Hv1 in Hv2.
      by destruct b. }
    exists q1, b1. split; [|done]. simpl.
    rewrite lookup_delete_ne by done. rewrite lookup_union.
    destruct (MazeClause.props c2 !! q1) as [b'|] eqn:E2; rewrite Hq1; simpl; [|done].
    by rewrite (single_clash_agree c1 c2 p q1 b1 b' Ec Hne1 Hq1 E2).
  - exists q2, b2. split; [|done]. simpl.
    rewrite lookup_delete_ne by done. rewrite lookup_union, Hq2.
    by destruct (MazeClause.props c1 !! q2).
Qed.

Lemma no_literal_of_empty v : ¬ some_literal_holds v (MazeClause.init []).
Proof. intros (p & b & Hp & _). simpl in Hp. by rewrite lookup_empty in Hp. Qed.

Lemma unit_props p b :
  MazeClause.props (MazeClause.init [(p, b)]) = {[ p := b ]}.
Proof.
  unfold MazeClause.init. simpl. unfold MazeClause.init_step. simpl.
  by rewrite lookup_empty.
Qed.

(** A resolvent against a unit fact is the clause without the
    proposition of the fact. *)
Lemma resolve_unit c p b r :
  r ∈ MazeClause.resolve c (MazeClause.init [(p, b)]) →
  MazeClause.props c !! p = Some (negb b)
  ∧ r = MazeClause.mk (delete p (MazeClause.props c)) false.
Proof.
  rewrite resolve_spec.
  destruct (clashes c _) as [|q [|? ?]] eqn:Ec; [set_solver| |set_solver].
  intros ->%elem_of_singleton.
  assert (Hq : clash c (MazeClause.init [(p, b)]) q = true).
  { apply elem_of_clashes. rewrite Ec. by left. }
  apply clash_lookup in Hq as (b' & Hc & Hu).
  rewrite unit_props in Hu.
  apply lookup_singleton_Some in Hu as [<- Hb].
  split; [rewrite Hc; f_equal; by destruct b, b'|].
  f_equal. rewrite unit_props. apply map_eq. intros k.
  destruct (decide (k = p)) as [->|Hk].
  - by rewrite !lookup_delete_eq.
  - rewrite !lookup_delete_ne by done.
    by rewrite lookup_union, lookup_singleton_ne, (left_id None _).
Qed.

Lemma resolve_unit_len c p b r :
  r ∈ MazeClause.resolve c (MazeClause.init [(p, b)]) →
  S (MazeClause.len r) = MazeClause.len c.
Proof.
  intros [Hp ->]%resolve_unit. unfold MazeClause.len. simpl.
  rewrite map_size_delete, Hp.
  assert (size (MazeClause.props c) ≠ 0%nat); [|lia].
  intros Hz%map_size_empty_iff. by rewrite Hz, lookup_empty in Hp.
Qed.

(** ** Iteration orders *)

Lemma elements_order_faithful : faithful elements_order.
Proof. split; intros s; reflexivity. Qed.

Lemma frontier_order_faithful : faithful frontier_order.
Proof.
  split; intros s; simpl; [done|].
  destruct (decide (s = frontier)) as [->|]; [|done].
  apply NoDup_Permutation.
  - compute_done.
  - apply NoDup_elements.
  - intros x. rewrite elem_of_elements. unfold frontier. set_solver.
Qed.

(** Every iteration order of a set given by its members is one of the
    arrangements of those members. *)
Lemma clause_order_cases (o : SetOrder) (s : gset MazeClause.t) l :
  faithful o → elements s ≡ₚ l → clause_order o s ∈ permutations l.
Proof.
  intros [Hc _] Hl. apply permutations_Permutation.
  by rewrite <- Hl, (Hc s).
Qed.

Lemma loc_order_cases (o : SetOrder) (s : gset Loc) l :
  faithful o → elements s ≡ₚ l → loc_order o s ∈ permutations l.
Proof.
  intros [_ Hc] Hl. apply permutations_Permutation.
  by rewrite <- Hl, (Hc s).
Qed.

(** Split the goal along the possible iteration orders of the first set
    that an order is asked for. *)
Ltac split_order Hf :=
  match goal with
  | |- context [clause_order ?o ?s] =>
      let l := eval vm_compute in (elements s) in
      let ls := eval vm_compute in (permutations l) in
      let Hp := fresh "Hp" in
      assert (Hp : clause_order o s ∈ ls)
        by (apply (clause_order_cases o s l Hf); vm_compute; reflexivity);
      repeat (apply elem_of_cons in Hp as [Hp|Hp]);
      [ rewrite Hp; clear Hp .. | by apply elem_of_nil in Hp ]
  | |- context [loc_order ?o ?s] =>
      let l := eval vm_compute in (elements s) in
      let ls := eval vm_compute in (permutations l) in
      let Hp := fresh "Hp" in
      assert (Hp : loc_order o s ∈ ls)
        by (apply (loc_order_cases o s l Hf); vm_compute; reflexivity);
      repeat (apply elem_of_cons in Hp as [Hp|Hp]);
      [ rewrite Hp; clear Hp .. | by apply elem_of_nil in Hp ]
  end.

(** ** The sweeps of [ask] do not depend on the iteration order *)

Lemma elem_of_combinations2_cons {A : Type} (x y z : A) l :
  (x, y) ∈ combinations2 (z :: l) ↔ (x = z ∧ y ∈ l) ∨ (x, y) ∈ combinations2 l.
Proof.
  simpl. rewrite elem_of_app, list_elem_of_fmap. split.
  - intros [[w [Heq Hw]]|Hc]; [left|by right].
    inversion Heq; subst. done.
  - intros [[-> Hy]|Hc]; [left|by right]. by exists y.
Qed.

Lemma elem_of_combinations2 {A : Type} (x y : A) l :
  (x, y) ∈ combinations2 l → x ∈ l ∧ y ∈ l.
Proof.
  induction l as [|z l IH]; [by intros ?%elem_of_nil|].
  rewrite elem_of_combinations2_cons. intros [[-> Hy]|Hc].
  - split; [by left|by right].
  - destruct (IH Hc). split; by right.
Qed.

Lemma paired_perm {A : Type} (l l' : list A) :
  l ≡ₚ l' → ∀ x y, paired x y l → paired x y l'.
Proof.
  induction 1 as [|z l l' Hp IH|z w l|l l' l'' _ IH1 _ IH2]; intros a b.
  - done.
  - unfold paired in *. rewrite !elem_of_combinations2_cons.
    intros [[[-> Hb]|Hc]|[[-> Ha]|Hc]].
    + left. left. split; [done|]. by rewrite <- Hp.
    + destruct (IH a b (or_introl Hc)); [left|right]; by right.
    + right. left. split; [done|]. by rewrite <- Hp.
    + destruct (IH a b (or_intror Hc)); [left|right]; by right.
  - unfold paired. rewrite !elem_of_combinations2_cons, !elem_of_cons.
    naive_solver.
  - intros Hab. by apply IH2, IH1.
Qed.

Lemma resolve_pairs_spec pairs new_clauses :
  MazeKnowledgeBase.resolve_pairs pairs new_clauses
  = if refuted pairs then MazeKnowledgeBase.Contradiction
    else MazeKnowledgeBase.Collected (new_clauses ∪ resolvents pairs).
Proof.
  revert new_clauses. induction pairs as [|[c1 c2] pairs IH]; intros new; simpl.
  { unfold resolvents. simpl. by rewrite (right_id_L ∅ (∪)). }
  destruct (bool_decide _); simpl; [done|].
  rewrite IH. destruct (refuted pairs); [done|].
  unfold resolvents. simpl. by rewrite (assoc_L (∪)).
Qed.

Lemma refuted_paired l :
  refuted (combinations2 l) = true
  ↔ ∃ c1 c2, paired c1 c2 l
             ∧ MazeClause.init [] ∈ MazeClause.resolve c1 c2.
Proof.
  unfold refuted. rewrite existsb_exists. split.
  - intros [[c1 c2] [Hin Hr]]. exists c1, c2. split.
    + left. by apply list_elem_of_In.
    + by apply bool_decide_eq_true in Hr.
  - intros (c1 & c2 & [Hin|Hin] & Hr).
    + exists (c1, c2). split; [by apply list_elem_of_In|].
      by apply bool_decide_eq_true.
    + exists (c2, c1). split; [by apply list_elem_of_In|].
      apply bool_decide_eq_true. simpl. by rewrite resolve_sym.
Qed.

Lemma resolvents_paired l r :
  r ∈ resolvents (combinations2 l)
  ↔ ∃ c1 c2, paired c1 c2 l ∧ r ∈ MazeClause.resolve c1 c2.
Proof.
  unfold resolvents. rewrite elem_of_union_list. split.
  - intros (X & HX & Hr). apply list_elem_of_fmap in HX as ([c1 c2] & -> & Hin).
    exists c1, c2. split; [by left|done].
  - intros (c1 & c2 & [Hin|Hin] & Hr).
    + exists (MazeClause.resolve c1 c2). split; [|done].
      apply list_elem_of_fmap. by exists (c1, c2).
    + exists (MazeClause.resolve c2 c1). split; [|by rewrite resolve_sym].
      apply list_elem_of_fmap. by exists (c2, c1).
Qed.

Lemma refuted_perm l l' :
  l ≡ₚ l' → refuted (combinations2 l) = refuted (combinations2 l').
Proof.
  intros Hp. apply eq_true_iff_eq. rewrite !refuted_paired.
  split; intros (c1 & c2 & Hpa & Hr); exists c1, c2; split; try done.
  - by apply (paired_perm l l').
  - by apply (paired_perm l' l).
Qed.

Lemma resolvents_perm l l' :
  l ≡ₚ l' → resolvents (combinations2 l) = resolvents (combinations2 l').
Proof.
  intros Hp. apply set_eq. intros r. rewrite !resolvents_paired.
  split; intros (c1 & c2 & Hpa & Hr); exists c1, c2; split; try done.
  - by apply (paired_perm l l').
  - by apply (paired_perm l' l).
Qed.

(** The answer of the loop of [ask] is the same under every iteration
    order. *)
Lemma ask_loop_order o o' passes clauses new_clauses :
  faithful o → faithful o' →
  MazeKnowledgeBase.ask_loop o passes clauses new_clauses
  = MazeKnowledgeBase.ask_loop o' passes clauses new_clauses.
Proof.
  intros [Ho _] [Ho' _]. revert clauses new_clauses.
  induction passes as [|n IH]; intros clauses new; simpl; [done|].
  assert (Hp : clause_order o clauses ≡ₚ clause_order o' clauses)
    by (by rewrite Ho, Ho').
  rewrite !resolve_pairs_spec.
  rewrite (refuted_perm _ _ Hp), (resolvents_perm _ _ Hp).
  destruct (refuted _); [done|].
  destruct (bool_decide _); [done|]. apply IH.
Qed.

(** More sweeps do not change an answer already given. *)
Lemma ask_loop_more o passes extra clauses new_clauses b :
  MazeKnowledgeBase.ask_loop o passes clauses new_clauses = Some b →
  MazeKnowledgeBase.ask_loop o (passes + extra) clauses new_clauses = Some b.
Proof.
  revert clauses new_clauses.
  induction passes as [|n IH]; intros clauses new; simpl; [done|].
  destruct (MazeKnowledgeBase.resolve_pairs _ _); [done|].
  destruct (bool_decide _); [done|]. apply IH.
Qed.

(** ** The relevance filter computes a closure *)

Lemma keys_to_set (c : MazeClause.t) :
  list_to_set (map_to_list (MazeClause.props c)).*1
  = dom (MazeClause.props c).
Proof.
  apply set_eq. intros p.
  rewrite elem_of_list_to_set, elem_of_dom, list_elem_of_fmap. split.
  - intros ([q b] & -> & Hin). apply elem_of_map_to_list in Hin. by exists b.
  - intros [b Hb]. exists (p, b). split; [done|]. by apply elem_of_map_to_list.
Qed.

Lemma touches_spec (helpful : gset MazeProp) (c : MazeClause.t) :
  existsb (λ loc, bool_decide (loc ∈ helpful))
          (map_to_list (MazeClause.props c)).*1 = true
  ↔ ∃ p, p ∈ dom (MazeClause.props c) ∧ p ∈ helpful.
Proof.
  rewrite existsb_exists, <- keys_to_set. split.
  - intros (p & Hin & Hp). exists p. split.
    + apply elem_of_list_to_set. by apply list_elem_of_In.
    + by apply bool_decide_eq_true in Hp.
  - intros (p & Hin & Hp). exists p. split.
    + apply list_elem_of_In. by apply elem_of_list_to_set in Hin.
    + by apply bool_decide_eq_true.
Qed.

Section FilterFacts.
Variables (kb : gset MazeClause.t) (seed : gset MazeProp).
Variables (N : gset MazeClause.t) (H : gset MazeProp).
Hypothesis N_linked : ∀ c, c ∈ N → linked kb seed c.
Hypothesis H_sound :
  ∀ p, p ∈ H → p ∈ seed ∨ ∃ c, c ∈ N ∧ p ∈ dom (MazeClause.props c).

Lemma filter_round l :
  (∀ c, c ∈ l → c ∈ kb) →
  round_ok kb seed N H l (foldl MazeKnowledgeBase.filter_step
                (MazeKnowledgeBase.mk_filter N H ∅ false) l).
Proof.
  induction l as [|c l IH] using rev_ind; intros Hkb.
  { simpl. split; simpl; try set_solver. }
  rewrite foldl_snoc.
  destruct IH as [I1 I2 I3 I4 I5 I6 I7]; [set_solver|].
  set (st := foldl _ _ l) in *.
  unfold MazeKnowledgeBase.filter_step.
  destruct (existsb _ _) eqn:Et.
  - apply touches_spec in Et as (p & Hpc & Hph).
    assert (Hc : linked kb seed c).
    { destruct (I4 p Hph) as [Hs|(c' & Hc' & Hp')].
      - apply (linked_seed _ _ c p); [set_solver|done|done].
      - apply (linked_step _ _ c c' p); [set_solver|done|by apply I3|done]. }
    split; simpl; rewrite ?keys_to_set.
    + rewrite I1. set_solver.
    + set_solver.
    + intros c' [Hin| ->%elem_of_singleton]%elem_of_union; [by apply I3|done].
    + intros q [Hq|Hq]%elem_of_union.
      * destruct (I4 q Hq) as [?|(c' & ? & ?)]; [by left|right].
        exists c'. set_solver.
      * right. exists c. set_solver.
    + set_solver.
    + intros c' [Hin| ->%elem_of_singleton]%elem_of_union.
      * specialize (I6 c' Hin). set_solver.
      * set_solver.
    + exists c. set_solver.
  - split; try done.
    + set_solver.
    + destruct (MazeKnowledgeBase.newly_added st); [done|].
      destruct I7 as (Hr & Hh & Hnone). repeat split; try done.
      intros c' p [Hin| ->%list_elem_of_singleton]%elem_of_app Hp.
      * by apply (Hnone c').
      * intros HpH. rewrite <- Hh in HpH.
        assert (Ht : existsb (λ loc, bool_decide (loc ∈ MazeKnowledgeBase.helpful_locs st))
                       (map_to_list (MazeClause.props c)).*1 = true)
          by (apply touches_spec; by exists p).
        congruence.
Qed.
End FilterFacts.

(** A round that adds nothing has found every linked clause. *)
Lemma filter_last_round kb seed potential N H l st :
  round_ok kb seed N H l st →
  MazeKnowledgeBase.newly_added st = false →
  (∀ c, c ∈ l ↔ c ∈ potential) →
  kb ⊆ N ∪ potential → seed ⊆ H →
  (∀ c, c ∈ N → dom (MazeClause.props c) ⊆ H) →
  ∀ c, c ∈ MazeKnowledgeBase.necessary_clauses st ↔ linked kb seed c.
Proof.
  intros [I1 I2 I3 I4 I5 I6 I7] Hnew Hl Hkb Hseed Hkeys c.
  rewrite Hnew in I7. destruct I7 as (Hrem & Hh & Hnone).
  split; [apply I3|].
  rewrite I1, Hrem, (right_id_L ∅ (∪)).
  assert (Hstep : ∀ c p, c ∈ kb → p ∈ dom (MazeClause.props c) → p ∈ H → c ∈ N).
  { intros c0 p Hc0 Hp HpH.
    pose proof (Hkb c0 Hc0) as [?|Hpot]%elem_of_union; [done|].
    exfalso. apply (Hnone c0 p); [by apply Hl|done|done]. }
  induction 1 as [c p Hc Hp Hs|c c' p Hc Hp _ IHl Hp'].
  - apply (Hstep c p); [done|done|]. by apply Hseed.
  - apply (Hstep c p); [done|done|]. by apply (Hkeys c').
Qed.

Lemma filter_loop_spec o kb seed rounds potential N H :
  faithful o →
  (size potential ≤ rounds)%nat →
  potential ⊆ kb → kb ⊆ N ∪ potential →
  (∀ c, c ∈ N → linked kb seed c) →
  (∀ p, p ∈ H → p ∈ seed ∨ ∃ c, c ∈ N ∧ p ∈ dom (MazeClause.props c)) →
  seed ⊆ H →
  (∀ c, c ∈ N → dom (MazeClause.props c) ⊆ H) →
  ∃ R, MazeKnowledgeBase.filter_loop o rounds potential N H = Some R
       ∧ ∀ c, c ∈ R ↔ linked kb seed c.
Proof.
  intros Hf. revert potential N H.
  induction rounds as [|r IH]; intros potential N H Hsz Hpk Hkb HN HH Hseed Hkeys.
  all: assert (Hl : ∀ c, c ∈ clause_order o potential ↔ c ∈ potential)
         by (intros c; by rewrite (proj1 Hf potential), elem_of_elements).
  all: assert (Hr : round_ok kb seed N H (clause_order o potential)
                      (foldl MazeKnowledgeBase.filter_step
                         (MazeKnowledgeBase.mk_filter N H ∅ false)
                         (clause_order o potential)))
         by (apply filter_round; [done|done|intros c Hc; apply Hpk; by apply Hl]).
  all: cbn [MazeKnowledgeBase.filter_loop].
  all: set (st := foldl _ _ (clause_order o potential)) in *.
  all: destruct (MazeKnowledgeBase.newly_added st) eqn:Hnew.
  2, 4: exists (MazeKnowledgeBase.necessary_clauses st); split; [done|];
        by apply (filter_last_round kb seed potential N H
                    (clause_order o potential) st).
  all: destruct Hr as [I1 I2 I3 I4 I5 I6 I7]; rewrite Hnew in I7;
       destruct I7 as [c Hc];
       assert (Hcp : c ∈ potential) by (by apply Hl, I2).
  - exfalso. assert (size potential = 0%nat) as Hz%size_empty_iff by lia.
    set_solver.
  - apply (IH (potential ∖ MazeKnowledgeBase.to_remove st)).
    + assert (size (potential ∖ MazeKnowledgeBase.to_remove st) < size potential)%nat;
        [|lia].
      apply subset_size. set_solver.
    + set_solver.
    + rewrite I1. intros c0 Hc0. apply Hkb in Hc0.
      destruct (decide (c0 ∈ MazeKnowledgeBase.to_remove st)); set_solver.
    + done.
    + done.
    + set_solver.
    + intros c0. rewrite I1. intros [Hc0|Hc0]%elem_of_union.
      * specialize (Hkeys c0 Hc0). set_solver.
      * by apply I6.
Qed.

(** [filter_clauses] always returns, and returns the stored clauses linked
    to the query. *)
Lemma filter_clauses_spec o (kb : MazeKnowledgeBase.t) (query : MazeClause.t) :
  faithful o →
  ∃ R, MazeKnowledgeBase.filter_clauses o kb query = Some R
       ∧ ∀ c, c ∈ R ↔ linked (MazeKnowledgeBase.clauses kb)
                              (dom (MazeClause.props query)) c.
Proof.
  intros Hf. unfold MazeKnowledgeBase.filter_clauses.
  apply filter_loop_spec; try done; set_solver.
Qed.

Lemma filter_clauses_order o o' kb query :
  faithful o → faithful o' →
  MazeKnowledgeBase.filter_clauses o kb query
  = MazeKnowledgeBase.filter_clauses o' kb query.
Proof.
  intros Hf Hf'.
  destruct (filter_clauses_spec o kb query Hf) as (R & -> & HR).
  destruct (filter_clauses_spec o' kb query Hf') as (R' & -> & HR').
  f_equal. apply set_eq. intros c. by rewrite HR, HR'.
Qed.

(** The answer of [ask] is the same under every iteration order. *)
Lemma ask_order o o' passes kb query :
  faithful o → faithful o' →
  MazeKnowledgeBase.ask o passes kb query
  = MazeKnowledgeBase.ask o' passes kb query.
Proof.
  intros Hf Hf'. unfold MazeKnowledgeBase.ask.
  rewrite (filter_clauses_order o o' kb query Hf Hf').
  destruct (MazeKnowledgeBase.filter_clauses o' kb query); [|done].
  by apply ask_loop_order.
Qed.

(** ** Entailment *)

Lemma ask_elements o passes kb query :
  faithful o →
  MazeKnowledgeBase.ask o passes kb query
  = MazeKnowledgeBase.ask elements_order passes kb query.
Proof. intros Hf. apply ask_order; [done|apply elements_order_faithful]. Qed.

Lemma ask_more o passes extra kb query b :
  MazeKnowledgeBase.ask o passes kb query = Some b →
  MazeKnowledgeBase.ask o (passes + extra) kb query = Some b.
Proof.
  unfold MazeKnowledgeBase.ask.
  destruct (MazeKnowledgeBase.filter_clauses o kb query); [|done].
  apply ask_loop_more.
Qed.

Lemma ask_at_least o n passes kb query b :
  faithful o → (n ≤ passes)%nat →
  MazeKnowledgeBase.ask elements_order n kb query = Some b →
  MazeKnowledgeBase.ask o passes kb query = Some b.
Proof.
  intros Hf Hn Ha. rewrite (ask_elements o) by done.
  replace passes with (n + (passes - n))%nat by lia. by apply ask_more.
Qed.

Lemma holds_unit v p b :
  holds v (MazeClause.init [(p, b)]) ↔ v p = b.
Proof.
  unfold holds, MazeClause.init. simpl. unfold MazeClause.init_step. simpl.
  rewrite lookup_empty. simpl. split.
  - intros [?|(q & b' & Hl & Hv)]; [done|].
    apply lookup_insert_Some in Hl as [[<- <-]|[_ Hl]]; [done|].
    by rewrite lookup_empty in Hl.
  - intros Hv. right. exists p, b. by rewrite lookup_insert_eq.
Qed.

(** A truth assignment under which every clause that [ask] works on has
    a true literal rules out the answer [True]. *)
Lemma ask_loop_sound o v passes clauses new_clauses :
  faithful o →
  (∀ c, c ∈ clauses → some_literal_holds v c) →
  (∀ c, c ∈ new_clauses → some_literal_holds v c) →
  MazeKnowledgeBase.ask_loop o passes clauses new_clauses ≠ Some true.
Proof.
  intros Hf. revert clauses new_clauses.
  induction passes as [|n IH]; intros clauses new Hc Hn; simpl; [done|].
  assert (Hin : ∀ c1 c2, (c1, c2) ∈ combinations2 (clause_order o clauses) →
                         c1 ∈ clauses ∧ c2 ∈ clauses).
  { intros c1 c2 [H1 H2]%elem_of_combinations2.
    rewrite (proj1 Hf clauses) in H1, H2. by rewrite !elem_of_elements in H1, H2. }
  rewrite resolve_pairs_spec.
  destruct (refuted _) eqn:Er.
  - exfalso. apply refuted_paired in Er as (c1 & c2 & Hp & He).
    apply (no_literal_of_empty v).
    destruct Hp as [Hp|Hp]; apply Hin in Hp as [H1 H2].
    + apply (resolve_sound v c1 c2); auto.
    + apply (resolve_sound v c1 c2); auto.
  - assert (Hnew : ∀ c, c ∈ new ∪ resolvents (combinations2 (clause_order o clauses)) →
                        some_literal_holds v c).
    { intros c [?|Hr]%elem_of_union; [by apply Hn|].
      apply resolvents_paired in Hr as (c1 & c2 & Hp & Hr).
      destruct Hp as [Hp|Hp]; apply Hin in Hp as [H1 H2];
        apply (resolve_sound v c1 c2); auto. }
    case_bool_decide; [done|].
    apply IH; [|done].
    intros c [?|?]%elem_of_union; [by apply Hc|by apply Hnew].
Qed.

(** [ask] is sound on a knowledge base without flagged clauses: when it
    answers [True], every signed proposition of the query, and there is
    at least one, is true under every assignment that satisfies the
    stored clauses. *)
Lemma ask_sound o passes kb query :
  faithful o →
  (∀ c, c ∈ MazeKnowledgeBase.clauses kb → MazeClause.valid c = false) →
  MazeKnowledgeBase.ask o passes kb query = Some true →
  MazeClause.props query ≠ ∅
  ∧ ∀ v, models v kb →
         ∀ p b, MazeClause.props query !! p = Some b → v p = b.
Proof.
  intros Hf Hflag Hask. unfold MazeKnowledgeBase.ask in Hask.
  destruct (filter_clauses_spec o kb query Hf) as (R & HR & HRl).
  rewrite HR in Hask.
  assert (HRkb : ∀ c, c ∈ R → c ∈ MazeKnowledgeBase.clauses kb).
  { intros c Hc%HRl. by destruct Hc. }
  assert (Hmod : ∀ v, models v kb → ∀ c, c ∈ R → some_literal_holds v c).
  { intros v Hv c Hc%HRkb. destruct (Hv c Hc) as [Hval|Hl]; [|done].
    by rewrite (Hflag c Hc) in Hval. }
  split.
  - intros Hempty.
    assert (R = ∅) as ->.
    { apply set_eq. intros c. rewrite HRl. split; [|set_solver].
      rewrite Hempty, dom_empty_L. induction 1; set_solver. }
    rewrite (left_id_L ∅ (∪)) in Hask.
    destruct passes as [|n]; simpl in Hask; [done|].
    assert (clause_order o {[MazeClause.inverted query]}
            = [MazeClause.inverted query]) as Ho.
    { apply Permutation_singleton_r. by rewrite (proj1 Hf _), elements_singleton. }
    rewrite Ho in Hask. simpl in Hask.
    rewrite bool_decide_eq_true_2 in Hask by set_solver. done.
  - intros v Hv p b Hp.
    destruct (decide (v p = b)) as [|Hne]; [done|]. exfalso.
    apply (ask_loop_sound o v passes (R ∪ {[MazeClause.inverted query]}) ∅ Hf);
      [|set_solver|done].
    intros c [Hc| ->%elem_of_singleton]%elem_of_union; [by apply (Hmod v)|].
    exists p, (negb b). split.
    + unfold MazeClause.inverted. simpl.
      by rewrite invert_props_fmap, lookup_fmap, Hp.
    + by destruct (v p), b.
Qed.

(** Soundness for the queries of the agent: a unit query answered [True]
    is entailed. *)
Lemma ask_sound_entails o passes kb query :
  faithful o →
  (∀ c, c ∈ MazeKnowledgeBase.clauses kb → MazeClause.valid c = false) →
  MazeKnowledgeBase.ask o passes kb query = Some true →
  entails kb query.
Proof.
  intros Hf Hflag Hask v Hv.
  destruct (ask_sound o passes kb query Hf Hflag Hask) as [Hne Hall].
  apply map_choose in Hne as (p & b & Hp).
  right. exists p, b. split; [done|]. by apply (Hall v Hv).
Qed.

(** ** A saturated set without the empty clause has a model *)

#[local] Instance some_literal_holds_dec v c : Decision (some_literal_holds v c).
Proof.
  refine (cast_if (decide (map_Exists (λ p b, v p = b) (MazeClause.props c))));
    abstract (unfold some_literal_holds, map_Exists in *; naive_solver).
Defined.

Lemma resolve_dom c1 c2 r :
  r ∈ MazeClause.resolve c1 c2 →
  dom (MazeClause.props r)
  ⊆ dom (MazeClause.props c1) ∪ dom (MazeClause.props c2).
Proof.
  rewrite resolve_spec.
  destruct (clashes c1 c2) as [|p [|? ?]]; [set_solver| |set_solver].
  intros ->%elem_of_singleton. simpl.
  rewrite dom_delete_L, dom_union_L. set_solver.
Qed.

Lemma clashes_single c1 c2 p :
  (∀ q, clash c1 c2 q = true ↔ q = p) → clashes c1 c2 = [p].
Proof.
  intros Hq. apply Permutation_singleton_r, NoDup_Permutation.
  - apply NoDup_filter, NoDup_fst_map_to_list.
  - apply NoDup_singleton.
  - intros q. by rewrite elem_of_clashes, Hq, list_elem_of_singleton.
Qed.

(** A clause that [v] falsifies although [v] satisfies every clause
    without [p]: it holds [p], with the polarity opposite to [b], and each
    of its other literals is false under [v]. *)
Lemma falsified_shape (S : gset MazeClause.t) v p b c :
  (∀ c, c ∈ S → p ∉ dom (MazeClause.props c) → some_literal_holds v c) →
  c ∈ S → ¬ some_literal_holds (assign v p b) c →
  MazeClause.props c !! p = Some (negb b)
  ∧ ∀ q x, q ≠ p → MazeClause.props c !! q = Some x → v q = negb x.
Proof.
  intros Hrest Hc Hfalse.
  assert (Hlit : ∀ q x, MazeClause.props c !! q = Some x → assign v p b q = negb x).
  { intros q x Hq. destruct (decide (assign v p b q = x)) as [Heq|Hne].
    - exfalso. apply Hfalse. by exists q, x.
    - by destruct (assign v p b q), x. }
  assert (Hother : ∀ q x, q ≠ p → MazeClause.props c !! q = Some x → v q = negb x).
  { intros q x Hne Hq. specialize (Hlit q x Hq). unfold assign in Hlit.
    by rewrite decide_False in Hlit. }
  split; [|done].
  destruct (MazeClause.props c !! p) as [x|] eqn:Ep.
  - specialize (Hlit p x Ep). unfold assign in Hlit.
    rewrite decide_True in Hlit by done. f_equal. by destruct x, b.
  - exfalso. destruct (Hrest c Hc) as (q & x & Hq & Hv).
    { by apply not_elem_of_dom. }
    assert (q ≠ p) by (intros ->; congruence).
    rewrite (Hother q x) in Hv by done. by destruct x.
Qed.

Lemma saturated_model (A : gset MazeProp) :
  ∀ S : gset MazeClause.t,
    (∀ c, c ∈ S → dom (MazeClause.props c) ⊆ A) →
    saturated S →
    (∀ c, c ∈ S → MazeClause.props c ≠ ∅) →
    ∃ v, ∀ c, c ∈ S → some_literal_holds v c.
Proof.
  induction A as [|p A Hp IH] using set_ind_L; intros S Hdom Hsat Hne.
  { exists (λ _, true). intros c Hc. exfalso. apply (Hne c Hc).
    apply dom_empty_iff_L. specialize (Hdom c Hc). set_solver. }
  destruct (IH (filter (λ c, p ∉ dom (MazeClause.props c)) S)) as [v Hv].
  { intros c [Hpc Hc]%elem_of_filter. specialize (Hdom c Hc). set_solver. }
  { intros c1 c2 [Hp1 H1]%elem_of_filter [Hp2 H2]%elem_of_filter r Hr.
    apply elem_of_filter. split; [|by apply (Hsat c1 c2)].
    apply resolve_dom in Hr. set_solver. }
  { intros c [_ Hc]%elem_of_filter. by apply Hne. }
  assert (Hrest : ∀ c, c ∈ S → p ∉ dom (MazeClause.props c) → some_literal_holds v c).
  { intros c Hc Hpc. apply Hv. by apply elem_of_filter. }
  destruct (decide (set_Forall (some_literal_holds (assign v p true)) S))
    as [|[c1 [Hc1 Hf1]]%not_set_Forall_Exists]; [by eexists| |apply _].
  destruct (decide (set_Forall (some_literal_holds (assign v p false)) S))
    as [|[c2 [Hc2 Hf2]]%not_set_Forall_Exists]; [by eexists| |apply _].
  exfalso. simpl in Hf1, Hf2.
  destruct (falsified_shape S v p true c1 Hrest Hc1 Hf1) as [Hp1 Ho1].
  destruct (falsified_shape S v p false c2 Hrest Hc2 Hf2) as [Hp2 Ho2].
  simpl in Hp1, Hp2.
  assert (Hcl : clashes c1 c2 = [p]).
  { apply clashes_single. intros q. unfold clash. split.
    - destruct (MazeClause.props c1 !! q) as [x1|] eqn:E1; [|done].
      destruct (MazeClause.props c2 !! q) as [x2|] eqn:E2; [|done].
      destruct (decide (q = p)) as [|Hq]; [done|].
      pose proof (Ho1 q x1 Hq E1) as H1. pose proof (Ho2 q x2 Hq E2) as H2.
      rewrite H1 in H2. by destruct x1, x2.
    - intros ->. by rewrite Hp1, Hp2. }
  set (r := MazeClause.mk (delete p (MazeClause.props c2 ∪ MazeClause.props c1)) false).
  assert (Hr : r ∈ S).
  { apply (Hsat c1 c2 Hc1 Hc2). rewrite resolve_spec, Hcl. by apply elem_of_singleton. }
  destruct (Hrest r Hr) as (q & x & Hq & Hvq).
  { subst r. simpl. rewrite dom_delete_L. set_solver. }
  subst r. simpl in Hq.
  apply lookup_delete_Some in Hq as [Hqp Hq].
  apply lookup_union_Some_raw in Hq as [Hq|[_ Hq]].
  - rewrite (Ho2 q x) in Hvq by done. by destruct x.
  - rewrite (Ho1 q x) in Hvq by done. by destruct x.
Qed.

(** ** An answer [False] comes with a saturated set *)

Lemma resolve_self c : MazeClause.resolve c c = ∅.
Proof.
  rewrite resolve_spec.
  assert (clashes c c = []) as ->; [|done].
  apply elem_of_nil_inv. intros q Hq%elem_of_clashes.
  unfold clash in Hq. destruct (MazeClause.props c !! q) as [[]|]; done.
Qed.

Lemma paired_distinct {A : Type} (x y : A) l :
  x ∈ l → y ∈ l → x ≠ y → paired x y l.
Proof.
  unfold paired. induction l as [|z l IH]; [by intros ?%elem_of_nil|].
  rewrite !elem_of_combinations2_cons.
  intros [->|Hx]%elem_of_cons [->|Hy]%elem_of_cons Hne.
  - done.
  - left. by left.
  - right. by left.
  - destruct (IH Hx Hy Hne); [left|right]; by right.
Qed.

Lemma resolvent_nonempty c1 c2 r :
  r ∈ MazeClause.resolve c1 c2 → MazeClause.init [] ∉ MazeClause.resolve c1 c2 →
  MazeClause.props r ≠ ∅.
Proof.
  rewrite resolve_spec.
  destruct (clashes c1 c2) as [|p [|? ?]]; [set_solver| |set_solver].
  intros ->%elem_of_singleton Hne Hempty. apply Hne.
  apply elem_of_singleton. simpl in Hempty. by rewrite Hempty.
Qed.

Lemma ask_loop_false o passes clauses new_clauses :
  faithful o →
  (∀ c, c ∈ clauses → MazeClause.props c ≠ ∅) →
  (∀ c, c ∈ new_clauses → MazeClause.props c ≠ ∅) →
  MazeKnowledgeBase.ask_loop o passes clauses new_clauses = Some false →
  ∃ S, clauses ⊆ S ∧ saturated S ∧ ∀ c, c ∈ S → MazeClause.props c ≠ ∅.
Proof.
  intros Hf. revert clauses new_clauses.
  induction passes as [|n IH]; intros clauses new Hc Hn; simpl; [done|].
  assert (Hin : ∀ c, c ∈ clause_order o clauses ↔ c ∈ clauses)
    by (intros c; by rewrite (proj1 Hf clauses), elem_of_elements).
  rewrite resolve_pairs_spec.
  destruct (refuted _) eqn:Er; [done|].
  assert (Hnone : ∀ c1 c2, paired c1 c2 (clause_order o clauses) →
                           MazeClause.init [] ∉ MazeClause.resolve c1 c2).
  { intros c1 c2 Hp He.
    assert (refuted (combinations2 (clause_order o clauses)) = true); [|congruence].
    apply refuted_paired. by exists c1, c2. }
  assert (Hnew : ∀ c, c ∈ new ∪ resolvents (combinations2 (clause_order o clauses)) →
                      MazeClause.props c ≠ ∅).
  { intros c [?|Hr]%elem_of_union; [by apply Hn|].
    apply resolvents_paired in Hr as (c1 & c2 & Hp & Hr).
    by apply (resolvent_nonempty c1 c2 c Hr), Hnone. }
  case_bool_decide as Hsub.
  - intros _. exists clauses. split; [done|]. split; [|done].
    intros c1 c2 H1 H2 r Hr.
    destruct (decide (c1 = c2)) as [->|Hne].
    { by rewrite resolve_self in Hr. }
    apply Hsub, elem_of_union. right. apply resolvents_paired.
    exists c1, c2. split; [|done].
    apply paired_distinct; [by apply Hin|by apply Hin|done].
  - intros Ha. apply IH in Ha as (S & HS & Hsat & Hne).
    + exists S. split; [set_solver|done].
    + intros c [?|?]%elem_of_union; [by apply Hc|by apply Hnew].
    + done.
Qed.

(** ** An answer [False] to a unit query is right *)

Lemma elem_of_atoms S p :
  p ∈ atoms S ↔ ∃ c, c ∈ S ∧ p ∈ dom (MazeClause.props c).
Proof.
  unfold atoms. rewrite elem_of_union_list. split.
  - intros (X & HX & Hp). apply list_elem_of_fmap in HX as (c & -> & Hc).
    exists c. by rewrite elem_of_elements in Hc.
  - intros (c & Hc & Hp). exists (dom (MazeClause.props c)). split; [|done].
    apply list_elem_of_fmap. exists c. by rewrite elem_of_elements.
Qed.

Lemma holds_agree v w c :
  (∀ p, p ∈ dom (MazeClause.props c) → v p = w p) → holds w c → holds v c.
Proof.
  intros Hag [?|(p & b & Hp & Hw)]; [by left|right].
  exists p, b. split; [done|]. rewrite Hag; [done|]. by apply elem_of_dom.
Qed.

Lemma ask_false_not_entailed o passes kb p b :
  faithful o → consistent kb →
  MazeKnowledgeBase.ask o passes kb (MazeClause.init [(p, b)]) = Some false →
  ¬ entails kb (MazeClause.init [(p, b)]).
Proof.
  intros Hf [w Hw] Hask Hent. unfold MazeKnowledgeBase.ask in Hask.
  destruct (filter_clauses_spec o kb (MazeClause.init [(p, b)]) Hf)
    as (R & HR & HRl).
  rewrite HR in Hask. rewrite unit_props, dom_singleton_L in HRl.
  assert (Hinv : MazeClause.inverted (MazeClause.init [(p, b)])
                 = MazeClause.init [(p, negb b)]).
  { unfold MazeClause.inverted. rewrite invert_props_fmap, !unit_props.
    rewrite map_fmap_singleton.
    replace (MazeClause.valid (MazeClause.init [(p, b)])) with false by done.
    rewrite <- (unit_props p (negb b)). by destruct (MazeClause.init [(p, negb b)]) eqn:E;
      simpl; injection E as ? <-. }
  apply ask_loop_false in Hask as (S & HS & Hsat & Hne); [|done| |set_solver].
  2:{ intros c [Hc| ->%elem_of_singleton]%elem_of_union.
      - apply HRl in Hc. intros He.
        destruct Hc as [c q _ Hq _|c c' q _ Hq _ _]; rewrite He in Hq; set_solver.
      - rewrite Hinv, unit_props. apply insert_non_empty. }
  destruct (saturated_model (atoms S) S) as [v Hv]; [|done|done|].
  { intros c Hc q Hq. apply elem_of_atoms. by exists c. }
  assert (Hvp : v p = negb b).
  { apply holds_unit. right. apply Hv, HS. rewrite <- Hinv. set_solver. }
  set (V := {[ p ]} ∪ atoms R).
  set (u := λ q, if decide (q ∈ V) then v q else w q).
  assert (Hu : models u kb).
  { intros c Hc. destruct (decide (c ∈ R)) as [HcR|HcR].
    - right. destruct (Hv c) as (q & x & Hq & Hvq); [set_solver|].
      exists q, x. split; [done|]. subst u. simpl.
      rewrite decide_True; [done|]. subst V. apply elem_of_union. right.
      apply elem_of_atoms. exists c. split; [done|]. by apply elem_of_dom.
    - apply (holds_agree u w); [|by apply Hw].
      intros q Hq. subst u. simpl. rewrite decide_False; [done|].
      subst V. intros [->%elem_of_singleton|(c' & Hc' & Hq')%elem_of_atoms]%elem_of_union.
      + apply HcR, HRl. apply (linked_seed _ _ c p); [done|done|set_solver].
      + apply HcR, HRl. apply (linked_step _ _ c c' q); [done|done| |done].
        by apply HRl. }
  specialize (Hent u Hu). apply holds_unit in Hent.
  subst u. simpl in Hent. rewrite decide_True in Hent by set_solver.
  rewrite Hvp in Hent. by destruct b.
Qed.

(** ** [ask] terminates *)

Lemma all_props_complete (ps : list MazeProp) (m : gmap MazeProp bool) :
  dom m ⊆ list_to_set ps → m ∈ all_props ps.
Proof.
  revert m. induction ps as [|p ps IH]; intros m Hm; simpl.
  { apply elem_of_singleton, dom_empty_iff_L. set_solver. }
  destruct (m !! p) as [b|] eqn:Ep.
  - assert (Hd : delete p m ∈ all_props ps).
    { apply IH. rewrite dom_delete_L. set_solver. }
    assert (Hi : m = <[p := b]> (delete p m)).
    { by rewrite insert_delete_eq, insert_id. }
    destruct b; rewrite Hi.
    + apply elem_of_union. left. apply elem_of_union. right.
      by apply elem_of_map_2.
    + apply elem_of_union. right. by apply elem_of_map_2.
  - apply elem_of_union. left. apply elem_of_union. left. apply IH.
    apply not_elem_of_dom in Ep. set_solver.
Qed.

Lemma universe_resolvent S c1 c2 r :
  dom (MazeClause.props c1) ⊆ atoms S → dom (MazeClause.props c2) ⊆ atoms S →
  r ∈ MazeClause.resolve c1 c2 →
  r ∈ universe S ∧ dom (MazeClause.props r) ⊆ atoms S.
Proof.
  intros H1 H2 Hr. pose proof (resolve_dom c1 c2 r Hr) as Hd.
  split; [|set_solver].
  apply elem_of_union. right.
  rewrite resolve_spec in Hr.
  destruct (clashes c1 c2) as [|p [|? ?]]; [set_solver| |set_solver].
  apply elem_of_singleton in Hr. subst r.
  apply (elem_of_map_2 (λ m, MazeClause.mk m false)). apply all_props_complete.
  simpl in Hd. intros q Hq. apply elem_of_list_to_set, elem_of_elements.
  set_solver.
Qed.

Lemma ask_loop_terminates o (S0 : gset MazeClause.t) :
  faithful o →
  ∀ passes clauses new_clauses,
    clauses ⊆ universe S0 → new_clauses ⊆ universe S0 →
    (∀ c, c ∈ clauses → dom (MazeClause.props c) ⊆ atoms S0) →
    (∀ c, c ∈ new_clauses → dom (MazeClause.props c) ⊆ atoms S0) →
    (size (universe S0 ∖ clauses) < passes)%nat →
    ∃ b, MazeKnowledgeBase.ask_loop o passes clauses new_clauses = Some b.
Proof.
  intros Hf. induction passes as [|n IH]; intros clauses new Hc Hn Hd Hdn Hsz; [lia|].
  simpl. rewrite resolve_pairs_spec.
  destruct (refuted _); [by eexists|].
  set (found := resolvents (combinations2 (clause_order o clauses))).
  assert (Hfound : ∀ r, r ∈ found →
            r ∈ universe S0 ∧ dom (MazeClause.props r) ⊆ atoms S0).
  { intros r (c1 & c2 & Hp & Hr)%resolvents_paired.
    assert (c1 ∈ clauses ∧ c2 ∈ clauses) as [H1 H2].
    { destruct Hp as [Hp|Hp]; apply elem_of_combinations2 in Hp as [Ha Hb];
        rewrite (proj1 Hf clauses) in Ha, Hb;
        rewrite !elem_of_elements in Ha, Hb; done. }
    apply (universe_resolvent S0 c1 c2); [by apply Hd|by apply Hd|done]. }
  case_bool_decide as Hsub; [by eexists|].
  assert (Hnew : new ∪ found ⊆ universe S0).
  { intros c [?|?]%elem_of_union; [by apply Hn|by apply Hfound]. }
  assert (Hdnew : ∀ c, c ∈ new ∪ found → dom (MazeClause.props c) ⊆ atoms S0).
  { intros c [?|?]%elem_of_union; [by apply Hdn|by apply Hfound]. }
  apply IH; [| done | | done |].
  - intros c [?|?]%elem_of_union; [by apply Hc|by apply Hnew].
  - intros c [?|?]%elem_of_union; [by apply Hd|by apply Hdnew].
  - assert (size (universe S0 ∖ (clauses ∪ (new ∪ found)))
            < size (universe S0 ∖ clauses))%nat; [|lia].
    apply subset_size. split.
    + intros c [Hu Hnc]%elem_of_difference. apply elem_of_difference.
      split; [done|]. intros ?. apply Hnc. by apply elem_of_union; left.
    + intros Hback. apply Hsub. intros c Hcn.
      destruct (decide (c ∈ clauses)) as [|Hnc]; [done|]. exfalso.
      assert (Hin : c ∈ universe S0 ∖ clauses)
        by (apply elem_of_difference; split; [by apply Hnew|done]).
      apply Hback, elem_of_difference in Hin as [_ Hin].
      apply Hin. by apply elem_of_union; right.
Qed.

(** [ask] answers when it is given enough sweeps. *)
Lemma ask_terminates o kb query :
  faithful o →
  ∃ passes b, ∀ more,
    MazeKnowledgeBase.ask o (passes + more) kb query = Some b.
Proof.
  intros Hf.
  destruct (filter_clauses_spec o kb query Hf) as (R & HR & _).
  set (S0 := R ∪ {[MazeClause.inverted query]}).
  destruct (ask_loop_terminates o S0 Hf (S (size (universe S0 ∖ S0))) S0 ∅)
    as [b Hb].
  - unfold universe. set_solver.
  - set_solver.
  - intros c Hc p Hp. apply elem_of_atoms. by exists c.
  - set_solver.
  - lia.
  - exists (S (size (universe S0 ∖ S0))), b. intros more.
    apply ask_more. unfold MazeKnowledgeBase.ask. by rewrite HR.
Qed.

(** On a consistent knowledge base without flagged clauses, [ask] decides
    whether a unit query is entailed. *)
Lemma ask_decides_unit_queries o kb p b :
  faithful o → consistent kb →
  (∀ c, c ∈ MazeKnowledgeBase.clauses kb → MazeClause.valid c = false) →
  ∃ passes, ∀ more,
    (entails kb (MazeClause.init [(p, b)]) →
     MazeKnowledgeBase.ask o (passes + more) kb (MazeClause.init [(p, b)])
     = Some true)
    ∧ (¬ entails kb (MazeClause.init [(p, b)]) →
       MazeKnowledgeBase.ask o (passes + more) kb (MazeClause.init [(p, b)])
       = Some false).
Proof.
  intros Hf Hcons Hflag.
  destruct (ask_terminates o kb (MazeClause.init [(p, b)]) Hf) as (n & a & Ha).
  exists n. intros more. specialize (Ha more). destruct a.
  - split; [done|]. intros Hne. exfalso. apply Hne.
    by apply (ask_sound_entails o (n + more)).
  - split; [|done]. intros He. exfalso.
    by apply (ask_false_not_entailed o (n + more) kb p b).
Qed.

(** With nothing stored, [ask] answers false as soon as it gets through
    one sweep. *)
Lemma ask_nothing_stored o passes kb query :
  faithful o → MazeKnowledgeBase.clauses kb = ∅ →
  MazeKnowledgeBase.ask o passes kb query ≠ Some true.
Proof.
  intros Hf Hkb. unfold MazeKnowledgeBase.ask.
  destruct (filter_clauses_spec o kb query Hf) as (R & -> & HR).
  assert (R = ∅) as ->.
  { apply set_eq. intros c. rewrite HR, Hkb. split; [|set_solver].
    induction 1; set_solver. }
  rewrite (left_id_L ∅ (∪)).
  destruct passes as [|n]; simpl; [done|].
  assert (clause_order o {[MazeClause.inverted query]} = [MazeClause.inverted query]) as ->.
  { apply Permutation_singleton_r.
    by rewrite (proj1 Hf _), elements_singleton. }
  simpl. rewrite bool_decide_eq_true_2 by set_solver. done.
Qed.

(** The example of the claim: told [~P(1,1) v ~P(1,2)] and [P(1,1)], the
    knowledge base answers true to [~P(1,2)]. *)
Lemma ask_claim_example o passes :
  faithful o → (2 ≤ passes)%nat →
  MazeKnowledgeBase.ask o passes kb_not_both no_pit_12 = Some true.
Proof.
  intros Hf Hp. apply (ask_at_least o 2); [done|done|by vm_compute].
Qed.

(** A stored clause that is flagged as valid still takes part in
    resolution with the propositions it has kept: told only the flagged
    clause built from [P(1,1), ~P(1,1), P(1,2)], which every assignment
    satisfies, [ask] answers true to [P(1,2)]. *)
Lemma ask_resolves_flagged_clause o passes :
  faithful o → (1 ≤ passes)%nat →
  (∀ v, models v kb_flagged)
  ∧ ¬ entails kb_flagged pit_12
  ∧ MazeKnowledgeBase.ask o passes kb_flagged pit_12 = Some true.
Proof.
  intros Hf Hp.
  assert (Hm : ∀ v, models v kb_flagged).
  { intros v c Hc. assert (c = flagged_12) as -> by set_solver.
    left. by vm_compute. }
  split; [done|]. split.
  - intros He. specialize (He (λ _, false) (Hm _)).
    apply holds_unit in He. done.
  - apply (ask_at_least o 1); [done|done|by vm_compute].
Qed.

(** C1: [ask] should return true exactly for the queries the stored
    clauses entail.  [query.invert()] flips the polarities inside the
    clause and so hands the loop [~P(1,1) v ~P(1,2)] for the query
    [P(1,1) v P(1,2)], which is weaker than its negation: told [P(1,1)]
    alone, the knowledge base entails the query and [ask] answers false,
    under every iteration order and however long it may run. *)
Theorem C1_entailed_disjunction_is_denied o passes :
  faithful o → (2 ≤ passes)%nat →
  consistent kb_pit_11
  ∧ MazeClause.is_valid pit_11_or_12 = false
  ∧ entails kb_pit_11 pit_11_or_12
  ∧ MazeKnowledgeBase.ask o passes kb_pit_11 pit_11_or_12 = Some false.
Proof.
  intros Hf Hp.
  assert (Hkb : ∀ v, models v kb_pit_11 ↔ v (P 1 1) = true).
  { intros v. unfold models, kb_pit_11, kb_of. simpl.
    rewrite <- (holds_unit v (P 1 1) true). fold pit_at. split.
    - intros Hm. apply Hm. set_solver.
    - intros Hh c Hc. assert (c = pit_at) as -> by set_solver. done. }
  split; [|split; [|split]].
  - exists (λ _, true). by apply Hkb.
  - by vm_compute.
  - intros v Hv%Hkb. right. exists (P 1 1), true. split; [by vm_compute|done].
  - apply (ask_at_least o 2); [done|done|by vm_compute].
Qed.

Lemma C1_entailed_disjunction_is_denied_witness :
  faithful elements_order ∧ (2 ≤ 2)%nat
  ∧ MazeKnowledgeBase.ask elements_order 2 kb_pit_11 pit_11_or_12 = Some false.
Proof.
  split; [exact elements_order_faithful|]. split; [lia|].
  apply (C1_entailed_disjunction_is_denied elements_order 2
           elements_order_faithful).
  lia.
Defined.

(** ** Simplification *)

Lemma get_simplified_empty o loc is_pit :
  faithful o → MazeKnowledgeBase.get_simplified_clauses o ∅ loc is_pit = ∅.
Proof.
  intros [Hc _]. unfold MazeKnowledgeBase.get_simplified_clauses.
  assert (clause_order o ∅ = []) as ->.
  { apply Permutation_nil_r. by rewrite (Hc ∅), elements_empty. }
  simpl. set_solver.
Qed.

Lemma simplify_empty o known_pits known_safe :
  faithful o →
  MazeKnowledgeBase.simplify_from_known_locs o ∅ known_pits known_safe = ∅.
Proof.
  intros Hf. unfold MazeKnowledgeBase.simplify_from_known_locs.
  induction (loc_order o (known_pits ∪ known_safe)) as [|x l IH]; [done|].
  simpl. by rewrite get_simplified_empty.
Qed.

Lemma simplify_loop_adds todo loc is_pit sani to_add to_rem x :
  x ∈ (MazeKnowledgeBase.simplify_loop todo loc is_pit sani to_add to_rem).1 →
  x ∈ to_add ∨ ∃ c, c ∈ todo ∧ x ∈ MazeClause.resolve c sani.
Proof.
  revert to_add. induction todo as [|c todo IH]; intros to_add; simpl; [by left|].
  repeat case_bool_decide.
  - intros [?|(c' & ? & ?)]%IH; [by left|right]. exists c'. split; [by right|done].
  - by left.
  - intros [[?|?]%elem_of_union|(c' & ? & ?)]%IH; [by left|right..].
    + exists c. split; [by left|done].
    + exists c'. split; [by right|done].
Qed.

(** The sizes never grow: a clause of the result is a clause of the input
    or an input clause less one proposition. *)
Lemma get_simplified_clauses_sizes o clauses loc is_pit c' :
  faithful o →
  c' ∈ MazeKnowledgeBase.get_simplified_clauses o clauses loc is_pit →
  c' ∈ clauses
  ∨ ∃ c, c ∈ clauses ∧ S (MazeClause.len c') = MazeClause.len c.
Proof.
  intros Hf. unfold MazeKnowledgeBase.get_simplified_clauses.
  destruct (MazeKnowledgeBase.simplify_loop _ _ _ _ _ _) as [to_add to_rem] eqn:E.
  intros [[?|Hadd]%elem_of_union _]%elem_of_difference; [by left|right].
  assert (Hadd' : c' ∈ (MazeKnowledgeBase.simplify_loop (clause_order o clauses)
                          loc is_pit
                          (MazeClause.init [(("P"%string, loc), is_pit)]) ∅ ∅).1)
    by (by rewrite E).
  apply simplify_loop_adds in Hadd' as [?|(c & Hc & Hr)]; [set_solver|].
  exists c. split.
  - rewrite (proj1 Hf clauses) in Hc. by apply elem_of_elements in Hc.
  - by apply resolve_unit_len in Hr.
Qed.

(** C4: the pass should replace a resolvable clause by its resolvent and
    never return more clauses than it was given.  The code adds the
    resolvent and keeps the clause it came from: given the single clause
    [P(1,1) v P(1,2)] and the fact that (1,1) is safe, it returns two
    clauses, whatever the iteration order. *)
Theorem C4_resolvent_is_added_not_substituted o :
  faithful o →
  MazeKnowledgeBase.get_simplified_clauses o {[ pit_11_or_12 ]} (1, 1) false
  = {[ pit_11_or_12; pit_12 ]}
  ∧ size (MazeKnowledgeBase.get_simplified_clauses o {[ pit_11_or_12 ]} (1, 1) false)
    = 2%nat
  ∧ size ({[ pit_11_or_12 ]} : gset MazeClause.t) = 1%nat.
Proof.
  intros Hf. unfold MazeKnowledgeBase.get_simplified_clauses.
  split_order Hf. repeat split; compute_done.
Qed.

Lemma C4_resolvent_is_added_not_substituted_witness :
  faithful elements_order
  ∧ size (MazeKnowledgeBase.get_simplified_clauses elements_order
            {[ pit_11_or_12 ]} (1, 1) false) = 2%nat.
Proof.
  split; [exact elements_order_faithful|].
  apply (C4_resolvent_is_added_not_substituted elements_order
           elements_order_faithful).
Defined.

(** C5: a second pass with the same known locations should change
    nothing.  Each call of [get_simplified_clauses] leaves its loop at the
    first clause it discards: of the two clauses [P(1,1) v P(1,2)] and
    [P(1,1) v P(1,3)], both settled by the pit at (1,1), the first pass
    discards one and the second pass the other, whatever the iteration
    order. *)
Theorem C5_second_pass_discards_more o :
  faithful o →
  size (simplified_once o) = 1%nat
  ∧ MazeKnowledgeBase.simplify_from_known_locs o (simplified_once o) {[ (1, 1) ]} ∅
    = ∅
  ∧ MazeKnowledgeBase.simplify_from_known_locs o (simplified_once o) {[ (1, 1) ]} ∅
    ≠ simplified_once o.
Proof.
  intros Hf.
  unfold simplified_once, MazeKnowledgeBase.simplify_from_known_locs.
  split_order Hf. cbn [foldl].
  unfold MazeKnowledgeBase.get_simplified_clauses, two_subsumed.
  split_order Hf; split_order Hf; repeat split; compute_done.
Qed.

Lemma C5_second_pass_discards_more_witness :
  faithful elements_order
  ∧ MazeKnowledgeBase.simplify_from_known_locs elements_order
      (simplified_once elements_order) {[ (1, 1) ]} ∅
    ≠ simplified_once elements_order.
Proof.
  split; [exact elements_order_faithful|].
  apply (C5_second_pass_discards_more elements_order elements_order_faithful).
Defined.

(** ** The agent: classification of a location *)

Section IsSafeTile.
Variables (K : MazeAgent.Constants) (o : SetOrder) (budget : list MazeAgent.Event → nat).
Variables (l : Loc) (self : MazeAgent.t).

Lemma is_safe_tile_unknown :
  l ∉ MazeAgent.safe_tiles self → l ∉ MazeAgent.pit_tiles self →
  MazeAgent.is_safe_tile K o budget l self
  = match answer_1 K o budget l self with
    | Some true =>
        (Some true,
         MazeAgent.mk (MazeAgent.goal self) (MazeAgent.starting_loc self)
           (MazeKnowledgeBase.tell (simplified_kb o self)
              (MazeAgent.pit_clause K l false))
           (MazeAgent.possible_pits self)
           (MazeAgent.safe_tiles self ∪ {[ l ]})
           (MazeAgent.pit_tiles self) (journal_2 K o budget l self))
    | None =>
        (None,
         MazeAgent.mk (MazeAgent.goal self) (MazeAgent.starting_loc self)
           (simplified_kb o self)
           (MazeAgent.possible_pits self ∪ {[ l ]})
           (MazeAgent.safe_tiles self)
           (MazeAgent.pit_tiles self) (journal_2 K o budget l self))
    | Some false =>
        match answer_2 K o budget l self with
        | Some true =>
            (Some false,
             MazeAgent.mk (MazeAgent.goal self) (MazeAgent.starting_loc self)
               (MazeKnowledgeBase.tell (simplified_kb o self)
              (MazeAgent.pit_clause K l true))
               (MazeAgent.possible_pits self)
               (MazeAgent.safe_tiles self)
               (MazeAgent.pit_tiles self ∪ {[ l ]}) (journal_3 K o budget l self))
        | _ =>
            (None,
             MazeAgent.mk (MazeAgent.goal self) (MazeAgent.starting_loc self)
               (simplified_kb o self)
               (MazeAgent.possible_pits self ∪ {[ l ]})
               (MazeAgent.safe_tiles self)
               (MazeAgent.pit_tiles self) (journal_3 K o budget l self))
        end
    end.
Proof.
  intros Hs Hp.
  unfold journal_3, answer_2, journal_2, answer_1, journal_1, simplified_kb.
  unfold MazeAgent.is_safe_tile, mbind, MazeAgent.M_bind, MazeAgent.get.
  rewrite bool_decide_eq_false_2 by done.
  rewrite bool_decide_eq_false_2 by done.
  unfold MazeAgent.ask_with_timeout, MazeAgent.tell, MazeAgent.modify,
    mbind, MazeAgent.M_bind, MazeAgent.get, mret, MazeAgent.M_ret.
  cbn [MazeAgent.set_kb MazeAgent.record MazeAgent.journal MazeAgent.kb].
  destruct (MazeKnowledgeBase.ask o _ _ (MazeAgent.pit_clause K l false))
    as [[]|]; [reflexivity| |reflexivity].
  cbn [MazeAgent.set_kb MazeAgent.record MazeAgent.journal MazeAgent.kb].
  destruct (MazeKnowledgeBase.ask o _ _ (MazeAgent.pit_clause K l true))
    as [[]|]; reflexivity.
Qed.
End IsSafeTile.

Lemma is_safe_tile_nothing_stored K o budget l self :
  faithful o →
  MazeKnowledgeBase.clauses (MazeAgent.kb self) = ∅ →
  l ∉ MazeAgent.safe_tiles self → l ∉ MazeAgent.pit_tiles self →
  (MazeAgent.is_safe_tile K o budget l self).1 = None
  ∧ MazeAgent.safe_tiles (MazeAgent.is_safe_tile K o budget l self).2
    = MazeAgent.safe_tiles self
  ∧ MazeAgent.pit_tiles (MazeAgent.is_safe_tile K o budget l self).2
    = MazeAgent.pit_tiles self.
Proof.
  intros Hf Hkb Hs Hp. rewrite is_safe_tile_unknown by done.
  assert (Hk : MazeKnowledgeBase.clauses (simplified_kb o self) = ∅).
  { unfold simplified_kb, MazeKnowledgeBase.simplify_self. simpl.
    rewrite Hkb. by apply simplify_empty. }
  pose proof (ask_nothing_stored o (budget (journal_1 self)) _
                (MazeAgent.pit_clause K l false) Hf Hk) as H1.
  pose proof (ask_nothing_stored o (budget (journal_2 K o budget l self)) _
                (MazeAgent.pit_clause K l true) Hf Hk) as H2.
  fold (answer_1 K o budget l self) in H1.
  fold (answer_2 K o budget l self) in H2.
  destruct (answer_1 K o budget l self) as [[]|]; [done| |done].
  destruct (answer_2 K o budget l self) as [[]|]; done.
Qed.

Lemma is_safe_tile_keeps_apart K o budget l self :
  MazeAgent.safe_tiles self ## MazeAgent.pit_tiles self →
  MazeAgent.safe_tiles (MazeAgent.is_safe_tile K o budget l self).2
  ## MazeAgent.pit_tiles (MazeAgent.is_safe_tile K o budget l self).2.
Proof.
  intros Hd.
  destruct (decide (l ∈ MazeAgent.safe_tiles self)) as [Hs|Hs].
  { unfold MazeAgent.is_safe_tile, mbind, MazeAgent.M_bind, MazeAgent.get.
    by rewrite bool_decide_eq_true_2. }
  destruct (decide (l ∈ MazeAgent.pit_tiles self)) as [Hp|Hp].
  { unfold MazeAgent.is_safe_tile, mbind, MazeAgent.M_bind, MazeAgent.get.
    rewrite bool_decide_eq_false_2 by done.
    by rewrite bool_decide_eq_true_2. }
  rewrite is_safe_tile_unknown by done.
  destruct (answer_1 K o budget l self) as [[]|];
    [| destruct (answer_2 K o budget l self) as [[]|] |]; simpl; set_solver.
Qed.

(** C9 (as stated): the second query should be issued also when the first
    one times out.  With no time at all for the subprocess, the first
    query on (1,1) times out and the journal of the call ends there: no
    query about a pit at (1,1) is made. *)
Lemma C9_timeout_skips_second_query :
  ((1, 1) ∉ MazeAgent.safe_tiles blank_agent)
  ∧ ((1, 1) ∉ MazeAgent.pit_tiles blank_agent)
  ∧ answer_1 pitsweeper elements_order never (1, 1) blank_agent = None
  ∧ ∀ answer,
      MazeAgent.Asked (MazeAgent.pit_clause pitsweeper (1, 1) true) answer
      ∉ MazeAgent.journal
          (MazeAgent.is_safe_tile pitsweeper elements_order never (1, 1)
             blank_agent).2.
Proof.
  assert (Hs : (1, 1) ∉ MazeAgent.safe_tiles blank_agent) by set_solver.
  assert (Hp : (1, 1) ∉ MazeAgent.pit_tiles blank_agent) by set_solver.
  assert (Ha : answer_1 pitsweeper elements_order never (1, 1) blank_agent = None)
    by (by vm_compute).
  repeat split; try done.
  intros answer. rewrite is_safe_tile_unknown by done. rewrite Ha.
  cbn [snd MazeAgent.journal]. unfold journal_2, journal_1. rewrite Ha.
  simpl. intros Hin.
  apply elem_of_cons in Hin as [Hin|Hin]; [done|].
  apply list_elem_of_singleton in Hin.
  injection Hin as Hc _.
  assert (Hl : MazeAgent.pit_clause pitsweeper (1, 1) true
               = MazeAgent.pit_clause pitsweeper (1, 1) false → False);
    [|by apply Hl].
  intros Heq.
  assert (Hg : MazeClause.get_prop (MazeAgent.pit_clause pitsweeper (1, 1) true) (P 1 1)
               = MazeClause.get_prop (MazeAgent.pit_clause pitsweeper (1, 1) false) (P 1 1))
    by (by rewrite Heq).
  vm_compute in Hg. discriminate.
Qed.

(** C9 (amended): for a location in neither confirmed set, [is_safe_tile]
    simplifies the knowledge base, then asks whether the location is free
    of a pit, and asks whether it holds a pit exactly when the first
    answer is false.  A first query that times out ends the call: the
    location joins the suspected set and the answer is unknown; so does a
    second query that times out or answers false. *)
Theorem C9_second_query_only_after_false K o budget l self :
  l ∉ MazeAgent.safe_tiles self → l ∉ MazeAgent.pit_tiles self →
  let a1 := answer_1 K o budget l self in
  let a2 := answer_2 K o budget l self in
  let out := MazeAgent.is_safe_tile K o budget l self in
  MazeAgent.journal out.2
  = MazeAgent.journal self
    ++ [MazeAgent.Simplified (MazeAgent.pit_tiles self) (MazeAgent.safe_tiles self);
        MazeAgent.Asked (MazeAgent.pit_clause K l false) a1]
    ++ (if bool_decide (a1 = Some false)
        then [MazeAgent.Asked (MazeAgent.pit_clause K l true) a2] else [])
  ∧ (a1 = None →
     out.1 = None
     ∧ MazeAgent.possible_pits out.2 = MazeAgent.possible_pits self ∪ {[ l ]})
  ∧ (a1 = Some false → a2 ≠ Some true →
     out.1 = None
     ∧ MazeAgent.possible_pits out.2 = MazeAgent.possible_pits self ∪ {[ l ]})
  ∧ (a1 = Some true →
     out.1 = Some true
     ∧ MazeAgent.safe_tiles out.2 = MazeAgent.safe_tiles self ∪ {[ l ]})
  ∧ (a1 = Some false → a2 = Some true →
     out.1 = Some false
     ∧ MazeAgent.pit_tiles out.2 = MazeAgent.pit_tiles self ∪ {[ l ]}).
Proof.
  intros Hs Hp a1 a2 out. subst out.
  rewrite is_safe_tile_unknown by done. subst a1 a2.
  unfold journal_3, journal_2, journal_1.
  destruct (answer_1 K o budget l self) as [[]|];
    [| destruct (answer_2 K o budget l self) as [[]|] |].
  all: cbn [fst snd MazeAgent.journal MazeAgent.possible_pits
            MazeAgent.safe_tiles MazeAgent.pit_tiles].
  all: rewrite <- ?app_assoc.
  all: repeat split; try done.
Qed.

Lemma C9_second_query_only_after_false_witness :
  ((1, 1) ∉ MazeAgent.safe_tiles blank_agent)
  ∧ ((1, 1) ∉ MazeAgent.pit_tiles blank_agent)
  ∧ MazeAgent.journal
      (MazeAgent.is_safe_tile pitsweeper elements_order never (1, 1) blank_agent).2
    = MazeAgent.journal blank_agent
      ++ [MazeAgent.Simplified (MazeAgent.pit_tiles blank_agent)
            (MazeAgent.safe_tiles blank_agent);
          MazeAgent.Asked (MazeAgent.pit_clause pitsweeper (1, 1) false)
            (answer_1 pitsweeper elements_order never (1, 1) blank_agent)]
      ++ (if bool_decide
               (answer_1 pitsweeper elements_order never (1, 1) blank_agent
                = Some false)
          then [MazeAgent.Asked (MazeAgent.pit_clause pitsweeper (1, 1) true)
                  (answer_2 pitsweeper elements_order never (1, 1) blank_agent)]
          else []).
Proof.
  assert (Hs : (1, 1) ∉ MazeAgent.safe_tiles blank_agent) by set_solver.
  assert (Hp : (1, 1) ∉ MazeAgent.pit_tiles blank_agent) by set_solver.
  split; [exact Hs|]. split; [exact Hp|].
  exact (proj1
    (C9_second_query_only_after_false pitsweeper elements_order never (1, 1)
       blank_agent Hs Hp)).
Defined.

(** ** The agent: the location sets *)

Lemma grows_refl a : grows a a.
Proof. by repeat split. Qed.

Lemma grows_trans a b c : grows a b → grows b c → grows a c.
Proof. intros (?&?&?) (?&?&?). repeat split; by etrans. Qed.

Lemma growing_ret {X : Type} (x : X) : growing (mret x).
Proof. intros self. apply grows_refl. Qed.

Lemma growing_bind {X Y : Type} (m : MazeAgent.M X) (f : X → MazeAgent.M Y) :
  growing m → (∀ x, growing (f x)) → growing (m ≫= f).
Proof.
  intros Hm Hf self. unfold mbind, MazeAgent.M_bind.
  specialize (Hm self). destruct (m self) as [x self'].
  eapply grows_trans; [exact Hm|apply Hf].
Qed.

Lemma growing_get : growing MazeAgent.get.
Proof. intros self. apply grows_refl. Qed.

Lemma growing_modify f : (∀ self, grows self (f self)) → growing (MazeAgent.modify f).
Proof. intros Hf self. apply Hf. Qed.

Lemma grows_set_kb f self : grows self (MazeAgent.set_kb f self).
Proof. by repeat split. Qed.

Lemma grows_record e self : grows self (MazeAgent.record e self).
Proof. by repeat split. Qed.

Lemma grows_add_safe X self :
  grows self (MazeAgent.set_safe_tiles (λ s, s ∪ X) self).
Proof. repeat split; simpl; set_solver. Qed.

Lemma grows_add_pit X self :
  grows self (MazeAgent.set_pit_tiles (λ s, s ∪ X) self).
Proof. repeat split; simpl; set_solver. Qed.

Lemma grows_add_possible X self :
  grows self (MazeAgent.set_possible_pits (λ s, s ∪ X) self).
Proof. repeat split; simpl; set_solver. Qed.

Ltac grow :=
  repeat
    match goal with
    | |- growing (mret _) => apply growing_ret
    | |- growing (_ ≫= _) => apply growing_bind; [|intros ?]
    | |- growing MazeAgent.get => apply growing_get
    | |- growing (MazeAgent.modify (MazeAgent.set_kb _)) =>
        apply growing_modify, grows_set_kb
    | |- growing (MazeAgent.modify (MazeAgent.record _)) =>
        apply growing_modify, grows_record
    | |- growing (MazeAgent.modify (MazeAgent.set_safe_tiles _)) =>
        apply growing_modify, grows_add_safe
    | |- growing (MazeAgent.modify (MazeAgent.set_pit_tiles _)) =>
        apply growing_modify, grows_add_pit
    | |- growing (MazeAgent.modify (MazeAgent.set_possible_pits _)) =>
        apply growing_modify, grows_add_possible
    | |- growing (if ?c then _ else _) => destruct c
    | |- growing (match ?x with _ => _ end) => destruct x
    | H : growing ?m |- growing ?m => exact H
    | H : ∀ x, growing (?f x) |- growing (?f _) => apply H
    | H : ∀ x y, growing (?f x y) |- growing (?f _ _) => apply H
    end.

Section Growth.
Variables (K : MazeAgent.Constants) (o : SetOrder) (budget : list MazeAgent.Event → nat).

Lemma growing_tell c : growing (MazeAgent.tell c).
Proof. unfold MazeAgent.tell. grow. Qed.

Lemma growing_ask_with_timeout c :
  growing (MazeAgent.ask_with_timeout o budget c).
Proof. unfold MazeAgent.ask_with_timeout. grow. Qed.

Lemma growing_is_safe_tile l : growing (MazeAgent.is_safe_tile K o budget l).
Proof.
  pose proof growing_tell. pose proof growing_ask_with_timeout.
  unfold MazeAgent.is_safe_tile. grow.
Qed.

Lemma growing_for_each {X : Type} (l : list X) body :
  (∀ x, growing (body x)) → growing (MazeAgent.for_each l body).
Proof. intros Hb. induction l as [|x l IH]; simpl; grow. Qed.

Lemma growing_mark_pit tile : growing (MazeAgent.mark_pit K tile).
Proof. pose proof growing_tell. unfold MazeAgent.mark_pit. grow. Qed.

Lemma growing_CNF_to_KB tiles n : growing (MazeAgent.CNF_to_KB K tiles n).
Proof. pose proof growing_tell. unfold MazeAgent.CNF_to_KB. grow. Qed.

Lemma growing_drop_safe todo s : growing (MazeAgent.drop_safe K o budget todo s).
Proof.
  pose proof growing_is_safe_tile.
  revert s. induction todo as [|x todo IH]; intros s; simpl; grow.
Qed.

Lemma growing_drop_one_safe todo s :
  growing (MazeAgent.drop_one_safe K o budget todo s).
Proof.
  pose proof growing_is_safe_tile.
  revert s. induction todo as [|x todo IH]; intros s; simpl; grow.
Qed.

Lemma growing_infer_adjacent_pits s n :
  growing (MazeAgent.infer_adjacent_pits K o budget s n).
Proof.
  pose proof growing_drop_safe. pose proof growing_drop_one_safe.
  pose proof growing_CNF_to_KB.
  unfold MazeAgent.infer_adjacent_pits. grow.
  apply growing_for_each, growing_mark_pit.
Qed.

Lemma growing_on_warning_tile tile s :
  growing (MazeAgent.on_warning_tile K o budget tile s).
Proof.
  pose proof growing_infer_adjacent_pits. pose proof growing_mark_pit.
  unfold MazeAgent.on_warning_tile. grow.
  - apply growing_for_each, growing_mark_pit.
  - apply growing_for_each. intros ?. grow.
Qed.

Lemma growing_first_safe todo : growing (MazeAgent.first_safe K o budget todo).
Proof.
  pose proof growing_is_safe_tile.
  induction todo as [|x todo IH]; simpl; grow.
Qed.

Lemma growing_find_best_next_move moves cur :
  growing (MazeAgent.find_best_next_move K o budget moves cur).
Proof.
  pose proof growing_first_safe.
  unfold MazeAgent.find_best_next_move. grow.
Qed.

Lemma growing_think env perception :
  growing (MazeAgent.think K o budget env perception).
Proof.
  pose proof growing_tell. pose proof growing_on_warning_tile.
  pose proof growing_find_best_next_move.
  unfold MazeAgent.think. grow.
  apply growing_for_each. intros ?. grow.
Qed.

Lemma growing_run c self : grows self (MazeAgent.run K o budget c self).
Proof.
  destruct c; simpl; [apply growing_think|apply growing_is_safe_tile].
Qed.
End Growth.

Section Apart.
Variables (K : MazeAgent.Constants) (o : SetOrder) (budget : list MazeAgent.Event → nat).
Hypothesis o_faithful : faithful o.

Lemma is_safe_tile_spec l self :
  apart self →
  apart (MazeAgent.is_safe_tile K o budget l self).2
  ∧ MazeAgent.safe_tiles (MazeAgent.is_safe_tile K o budget l self).2
    ⊆ MazeAgent.safe_tiles self ∪ {[ l ]}
  ∧ ((MazeAgent.is_safe_tile K o budget l self).1 ≠ Some true →
     l ∉ MazeAgent.safe_tiles (MazeAgent.is_safe_tile K o budget l self).2).
Proof.
  intros Hd. split; [by apply is_safe_tile_keeps_apart|].
  unfold apart in Hd.
  destruct (decide (l ∈ MazeAgent.safe_tiles self)) as [Hs|Hs].
  { unfold MazeAgent.is_safe_tile, mbind, MazeAgent.M_bind, MazeAgent.get.
    rewrite bool_decide_eq_true_2 by done. simpl. split; [set_solver|done]. }
  destruct (decide (l ∈ MazeAgent.pit_tiles self)) as [Hp|Hp].
  { unfold MazeAgent.is_safe_tile, mbind, MazeAgent.M_bind, MazeAgent.get.
    rewrite bool_decide_eq_false_2 by done.
    rewrite bool_decide_eq_true_2 by done. simpl. split; [set_solver|done]. }
  rewrite is_safe_tile_unknown by done.
  destruct (answer_1 K o budget l self) as [[]|];
    [| destruct (answer_2 K o budget l self) as [[]|] |]; simpl;
    (split; [set_solver|done]).
Qed.

Lemma tell_sets c self :
  MazeAgent.safe_tiles (MazeAgent.tell c self).2 = MazeAgent.safe_tiles self
  ∧ MazeAgent.pit_tiles (MazeAgent.tell c self).2 = MazeAgent.pit_tiles self.
Proof. done. Qed.

Lemma mark_pit_sets tile self :
  MazeAgent.safe_tiles (MazeAgent.mark_pit K tile self).2 = MazeAgent.safe_tiles self
  ∧ MazeAgent.pit_tiles (MazeAgent.mark_pit K tile self).2
    = MazeAgent.pit_tiles self ∪ {[ tile ]}.
Proof. done. Qed.

Lemma mark_pits_sets tiles self :
  MazeAgent.safe_tiles (MazeAgent.for_each tiles (MazeAgent.mark_pit K) self).2
  = MazeAgent.safe_tiles self
  ∧ MazeAgent.pit_tiles (MazeAgent.for_each tiles (MazeAgent.mark_pit K) self).2
    = MazeAgent.pit_tiles self ∪ list_to_set tiles.
Proof.
  revert self. induction tiles as [|x tiles IH]; intros self.
  { simpl. split; [done|set_solver]. }
  cbn [MazeAgent.for_each]. unfold mbind, MazeAgent.M_bind.
  destruct (MazeAgent.mark_pit K x self) as [[] self1] eqn:E.
  pose proof (mark_pit_sets x self) as [Hs Hp]. rewrite E in Hs, Hp. simpl in Hs, Hp.
  destruct (IH self1) as [Hs' Hp']. rewrite Hs', Hp', Hs, Hp.
  split; [done|set_solver].
Qed.

Lemma CNF_to_KB_sets tiles n self :
  MazeAgent.safe_tiles (MazeAgent.CNF_to_KB K tiles n self).2 = MazeAgent.safe_tiles self
  ∧ MazeAgent.pit_tiles (MazeAgent.CNF_to_KB K tiles n self).2 = MazeAgent.pit_tiles self.
Proof. unfold MazeAgent.CNF_to_KB. by repeat case_decide. Qed.

Lemma drop_safe_spec todo copy self :
  NoDup todo → apart self →
  (∀ t, t ∈ copy → t ∉ todo → t ∉ MazeAgent.safe_tiles self) →
  apart (MazeAgent.drop_safe K o budget todo copy self).2
  ∧ ∀ t, t ∈ (MazeAgent.drop_safe K o budget todo copy self).1 →
         t ∉ MazeAgent.safe_tiles (MazeAgent.drop_safe K o budget todo copy self).2.
Proof.
  revert copy self. induction todo as [|x todo IH]; intros copy self Hnd Hd Hc.
  { simpl. split; [done|]. intros t Ht. apply Hc; [done|]. apply not_elem_of_nil. }
  apply NoDup_cons in Hnd as [Hx Hnd].
  cbn [MazeAgent.drop_safe]. unfold mbind, MazeAgent.M_bind.
  destruct (is_safe_tile_spec x self Hd) as (Hd1 & Hs1 & Hr1).
  destruct (MazeAgent.is_safe_tile K o budget x self) as [r self1].
  simpl in Hd1, Hs1, Hr1.
  apply IH; [done|done|].
  intros t Ht Htodo.
  destruct (decide (t = x)) as [->|Hne].
  - apply Hr1. intros ->. rewrite bool_decide_eq_true_2 in Ht by done.
    apply elem_of_difference in Ht as [_ Ht]. apply Ht. by apply elem_of_singleton.
  - assert (Hin : t ∈ copy).
    { destruct (bool_decide (r = Some true)); [|done].
      by apply elem_of_difference in Ht as [Ht _]. }
    assert (Hns : t ∉ MazeAgent.safe_tiles self).
    { apply Hc; [done|]. intros [?|?]%elem_of_cons; done. }
    intros [?| ->%elem_of_singleton]%Hs1%elem_of_union; done.
Qed.

Lemma drop_one_safe_spec todo s self :
  apart self → apart (MazeAgent.drop_one_safe K o budget todo s self).2.
Proof.
  revert self. induction todo as [|x todo IH]; intros self Hd; [done|].
  cbn [MazeAgent.drop_one_safe]. unfold mbind, MazeAgent.M_bind.
  destruct (is_safe_tile_spec x self Hd) as (Hd1 & _ & _).
  destruct (MazeAgent.is_safe_tile K o budget x self) as [r self1].
  case_bool_decide; [done|by apply IH].
Qed.

Lemma loc_order_NoDup (s : gset Loc) : NoDup (loc_order o s).
Proof. rewrite (proj2 o_faithful s). apply NoDup_elements. Qed.

Lemma elem_of_loc_order (s : gset Loc) t : t ∈ loc_order o s ↔ t ∈ s.
Proof. by rewrite (proj2 o_faithful s), elem_of_elements. Qed.

Lemma infer_adjacent_pits_spec s n self :
  apart self → apart (MazeAgent.infer_adjacent_pits K o budget s n self).2.
Proof.
  intros Hd. unfold MazeAgent.infer_adjacent_pits, mbind, MazeAgent.M_bind.
  destruct (drop_safe_spec (loc_order o s) s self (loc_order_NoDup s) Hd)
    as [Hd1 Hc1].
  { intros t Ht Hn. exfalso. apply Hn. by apply elem_of_loc_order. }
  destruct (MazeAgent.drop_safe K o budget (loc_order o s) s self) as [copy self1].
  simpl in Hd1, Hc1.
  case_decide.
  - destruct (mark_pits_sets (loc_order o copy) self1) as [Hs Hp].
    unfold apart in *. rewrite Hs, Hp.
    intros t Ht [Htp|Htp%elem_of_list_to_set]%elem_of_union; [set_solver|].
    apply elem_of_loc_order in Htp. by apply (Hc1 t).
  - assert (Hcnf : ∀ s2 self2, apart self2 →
      apart ((if decide (size s2 = 3%nat)
              then MazeAgent.CNF_to_KB K (loc_order o s2) n
              else mret tt) self2).2).
    { intros s2 self2 Hd2. case_decide; [|done].
      unfold apart in *.
      by destruct (CNF_to_KB_sets (loc_order o s2) n self2) as [-> ->]. }
    destruct (decide (3 < size s)%nat).
    + pose proof (drop_one_safe_spec (loc_order o s) s self1 Hd1) as Hd2.
      destruct (MazeAgent.drop_one_safe K o budget (loc_order o s) s self1)
        as [s2 self2].
      by apply Hcnf.
    + by apply Hcnf.
Qed.

Lemma guarded_marks_spec tiles self :
  apart self →
  apart (MazeAgent.for_each tiles (λ neighbor,
           self ← MazeAgent.get;
           if bool_decide (neighbor ∉ MazeAgent.safe_tiles self)
           then MazeAgent.mark_pit K neighbor else mret tt) self).2.
Proof.
  revert self. induction tiles as [|x tiles IH]; intros self Hd; [done|].
  cbn [MazeAgent.for_each]. unfold mbind, MazeAgent.M_bind, MazeAgent.get.
  case_bool_decide as Hx.
  - destruct (MazeAgent.mark_pit K x self) as [[] self1] eqn:E.
    apply IH. pose proof (mark_pit_sets x self) as [Hs Hp].
    rewrite E in Hs, Hp. simpl in Hs, Hp.
    unfold apart in *. rewrite Hs, Hp.
    intros t Ht [?| ->%elem_of_singleton]%elem_of_union; [by apply (Hd t)|done].
  - by apply IH.
Qed.

Lemma on_warning_tile_spec tile adjacent self :
  apart self →
  (tile = MazeAgent.WRN_FOUR_BLOCK K → adjacent ## MazeAgent.safe_tiles self) →
  apart (MazeAgent.on_warning_tile K o budget tile adjacent self).2.
Proof.
  intros Hd Hfour. unfold MazeAgent.on_warning_tile.
  destruct (decide (tile = MazeAgent.WRN_FOUR_BLOCK K)) as [Hf|_].
  { destruct (mark_pits_sets (loc_order o adjacent) self) as [Hs Hp].
    unfold apart in *. rewrite Hs, Hp.
    intros t Ht [Htp|Htp%elem_of_list_to_set]%elem_of_union; [by apply (Hd t)|].
    apply elem_of_loc_order in Htp. by apply (Hfour Hf t). }
  repeat case_decide; try done.
  - by apply guarded_marks_spec.
  - by apply infer_adjacent_pits_spec.
  - by apply infer_adjacent_pits_spec.
Qed.

Lemma first_safe_spec todo self :
  apart self → apart (MazeAgent.first_safe K o budget todo self).2.
Proof.
  revert self. induction todo as [|x todo IH]; intros self Hd; [done|].
  cbn [MazeAgent.first_safe]. unfold mbind, MazeAgent.M_bind.
  destruct (is_safe_tile_spec x.2 self Hd) as (Hd1 & _ & _).
  destruct (MazeAgent.is_safe_tile K o budget x.2 self) as [r self1].
  case_bool_decide; [done|by apply IH].
Qed.

Lemma find_best_next_move_spec moves cur self :
  apart self →
  apart (MazeAgent.find_best_next_move K o budget moves cur self).2.
Proof.
  intros Hd. unfold MazeAgent.find_best_next_move, mbind, MazeAgent.M_bind,
    MazeAgent.get.
  destruct (MazeAgent.rank_moves self (loc_order o moves) cur []) as [?|pf]; [done|].
  pose proof (first_safe_spec (heapq.heapify MazeAgent.item_lt pf) self Hd) as Hd1.
  destruct (MazeAgent.first_safe K o budget _ self) as [[move|] self1]; done.
Qed.

Lemma mark_safe_sets tiles self :
  confirmed
    (MazeAgent.for_each tiles (λ neighbor,
       _ ← MazeAgent.modify (MazeAgent.set_safe_tiles (λ s, s ∪ {[ neighbor ]}));
       MazeAgent.tell (MazeAgent.pit_clause K neighbor false)) self).2
  = (MazeAgent.safe_tiles self ∪ list_to_set tiles, MazeAgent.pit_tiles self).
Proof.
  revert self. induction tiles as [|x tiles IH]; intros self.
  { unfold confirmed. simpl. f_equal. set_solver. }
  cbn [MazeAgent.for_each]. unfold mbind at 1, MazeAgent.M_bind at 1.
  match goal with
  | |- context [let '(_, _) := ?m self in _] =>
      destruct (m self) as [[] self1] eqn:E;
      assert (Hs : MazeAgent.safe_tiles self1 = MazeAgent.safe_tiles self ∪ {[ x ]})
        by (by apply (f_equal (λ r, MazeAgent.safe_tiles r.2)) in E);
      assert (Hp : MazeAgent.pit_tiles self1 = MazeAgent.pit_tiles self)
        by (by apply (f_equal (λ r, MazeAgent.pit_tiles r.2)) in E)
  end.
  rewrite IH, Hs, Hp. f_equal. set_solver.
Qed.


Lemma init_spec env perception :
  (MazeAgent.tile perception ∈ MazeAgent.WRN_BLOCKS K →
   MazeAgent.tile perception ≠ MazeAgent.WRN_FOUR_BLOCK K) →
  apart (MazeAgent.init K o budget env perception).
Proof.
  intros Hfour. unfold MazeAgent.init, MazeAgent.add_starting_rules.
  unfold mbind at 1, MazeAgent.M_bind at 1, MazeAgent.get at 1.
  cbn [MazeAgent.goal MazeAgent.starting_loc].
  unfold mbind at 1, MazeAgent.M_bind at 1, MazeAgent.modify at 1.
  unfold mbind at 1, MazeAgent.M_bind at 1, MazeAgent.tell at 1, MazeAgent.modify at 1.
  unfold mbind at 1, MazeAgent.M_bind at 1.
  match goal with
  | |- context [let '(_, _) := ?m ?s in _] =>
      assert (H0 : MazeAgent.pit_tiles (m s).2 = ∅)
        by (destruct (_ <$> _) as [|? [|? ?]]; done);
      destruct (m s) as [[] self0]
  end.
  simpl in H0.
  unfold mbind at 1, MazeAgent.M_bind at 1.
  match goal with
  | |- context [let '(_, _) := ?m self0 in _] =>
      assert (H1 : MazeAgent.pit_tiles (m self0).2 = ∅)
        by (destruct (_ || _); done);
      destruct (m self0) as [[] self1]
  end.
  simpl in H1.
  assert (Hd : apart self1) by (unfold apart; rewrite H1; set_solver).
  case_bool_decide as Hw; [|done].
  apply on_warning_tile_spec; [done|]. intros Hf. by destruct (Hfour Hw).
Qed.

End Apart.

(** Nothing ever leaves the suspected set: the agent starts on a safe
    tile at (0,0), cannot decide (1,1), then stands on the safe tile
    (1,0) and learns that its neighbour (1,1) is safe; (1,1) is now both
    confirmed safe and suspected. *)
Lemma suspected_set_overlaps_confirmed_safe :
  MazeAgent.reachable pitsweeper elements_order two_sweeps overlap_state
  ∧ ((1, 1) ∈ MazeAgent.safe_tiles overlap_state)
  ∧ ((1, 1) ∈ MazeAgent.possible_pits overlap_state)
  ∧ ¬ (MazeAgent.safe_tiles overlap_state ## MazeAgent.possible_pits overlap_state).
Proof.
  assert (Hs : (1, 1) ∈ MazeAgent.safe_tiles overlap_state) by compute_done.
  assert (Hp : (1, 1) ∈ MazeAgent.possible_pits overlap_state) by compute_done.
  split; [|split; [done|split; [done|]]].
  - unfold overlap_state, started. do 2 apply MazeAgent.reachable_run.
    apply MazeAgent.reachable_init.
  - intros Hd. by apply (Hd (1, 1)).
Qed.

(** ** The agent: a walk that confirms one tile both ways *)

(** What each step of [think] leaves in the attributes that the choice
    of a move reads. *)

Section Views.
Variables (K : MazeAgent.Constants) (o : SetOrder) (budget : list MazeAgent.Event → nat).
Hypothesis o_faithful : faithful o.

Lemma is_safe_tile_known_safe l self :
  l ∈ MazeAgent.safe_tiles self →
  MazeAgent.is_safe_tile K o budget l self = (Some true, self).
Proof.
  intros Hs. unfold MazeAgent.is_safe_tile, mbind, MazeAgent.M_bind, MazeAgent.get.
  by rewrite bool_decide_eq_true_2.
Qed.

Lemma is_safe_tile_known_pit l self :
  l ∉ MazeAgent.safe_tiles self → l ∈ MazeAgent.pit_tiles self →
  MazeAgent.is_safe_tile K o budget l self = (Some false, self).
Proof.
  intros Hs Hp. unfold MazeAgent.is_safe_tile, mbind, MazeAgent.M_bind, MazeAgent.get.
  rewrite bool_decide_eq_false_2 by done. by rewrite bool_decide_eq_true_2.
Qed.

(** The loop of the severity-3 branch of [on_warning_tile]. *)
Lemma guarded_marks_view tiles self :
  view (MazeAgent.for_each tiles (λ neighbor,
          self ← MazeAgent.get;
          if bool_decide (neighbor ∉ MazeAgent.safe_tiles self)
          then MazeAgent.mark_pit K neighbor else mret tt) self).2
  = (MazeAgent.goal self, MazeAgent.possible_pits self, MazeAgent.safe_tiles self,
     MazeAgent.pit_tiles self ∪ (list_to_set tiles ∖ MazeAgent.safe_tiles self)).
Proof.
  revert self. induction tiles as [|x tiles IH]; intros self.
  { unfold view. simpl. repeat f_equal. set_solver. }
  cbn [MazeAgent.for_each]. unfold mbind at 1, MazeAgent.M_bind at 1.
  unfold mbind at 1, MazeAgent.M_bind at 1, MazeAgent.get at 1.
  case_bool_decide as Hx.
  - assert (Hm : view (MazeAgent.mark_pit K x self).2
                 = (MazeAgent.goal self, MazeAgent.possible_pits self,
                    MazeAgent.safe_tiles self, MazeAgent.pit_tiles self ∪ {[ x ]}))
      by done.
    destruct (MazeAgent.mark_pit K x self) as [[] self1]. simpl in Hm.
    rewrite IH. unfold view in Hm. injection Hm as Hg Hp Hs Hpt. rewrite Hg, Hp, Hs, Hpt.
    clear IH Hg Hp Hs Hpt. f_equal. apply set_eq. intros y.
    rewrite !elem_of_union, !elem_of_difference, list_to_set_cons, elem_of_union,
      elem_of_singleton.
    split.
    + intros [[?| ->]|[? ?]]; [by left|right; split; [by left|done]
                               |right; split; [by right|done]].
    + intros [?|[[->|?] ?]]; [left; by left|left; by right|by right].
  - unfold mret, MazeAgent.M_ret. rewrite IH. clear IH. f_equal.
    apply set_eq. intros y.
    rewrite !elem_of_union, !elem_of_difference, list_to_set_cons, elem_of_union,
      elem_of_singleton.
    split.
    + intros [?|[? ?]]; [by left|right; split; [by right|done]].
    + intros [?|[[->|?] ?]]; [by left|done|by right].
Qed.

(** The loop of [think] on a clear tile. *)
Lemma clear_marks_view tiles self :
  view (MazeAgent.for_each tiles (λ neighbor,
          _ ← MazeAgent.modify (MazeAgent.set_safe_tiles (λ s, s ∪ {[ neighbor ]}));
          MazeAgent.tell (MazeAgent.pit_clause K neighbor false)) self).2
  = (MazeAgent.goal self, MazeAgent.possible_pits self,
     MazeAgent.safe_tiles self ∪ list_to_set tiles, MazeAgent.pit_tiles self).
Proof.
  revert self. induction tiles as [|x tiles IH]; intros self.
  { unfold view. simpl. repeat f_equal. set_solver. }
  cbn [MazeAgent.for_each]. unfold mbind at 1, MazeAgent.M_bind at 1.
  match goal with
  | |- context [let '(_, _) := ?m self in _] =>
      assert (Hm : view (m self).2
                   = (MazeAgent.goal self, MazeAgent.possible_pits self,
                      MazeAgent.safe_tiles self ∪ {[ x ]}, MazeAgent.pit_tiles self))
        by done;
      destruct (m self) as [[] self1]
  end.
  simpl in Hm. rewrite IH. unfold view in Hm. injection Hm as Hg Hp Hs Hpt.
  rewrite Hg, Hp, Hs, Hpt. clear IH Hg Hp Hs Hpt. f_equal. f_equal.
  rewrite list_to_set_cons. by rewrite (assoc_L (∪)).
Qed.

Lemma list_to_set_loc_order (s : gset Loc) : list_to_set (loc_order o s) = s.
Proof.
  apply set_eq. intros x.
  by rewrite elem_of_list_to_set, (proj2 o_faithful s), elem_of_elements.
Qed.

(** [think] on a clear tile that is no warning: the state in which the
    move is chosen has the neighbours of the tile among the safe tiles. *)
Lemma think_clear_view env perception self :
  clear_tile K (MazeAgent.tile perception) = true →
  MazeAgent.tile perception ∉ MazeAgent.WRN_BLOCKS K →
  ∃ self',
    MazeAgent.think K o budget env perception self
    = MazeAgent.find_best_next_move K o budget (MazeAgent.get_frontier_locs env)
        (MazeAgent.loc perception) self'
    ∧ view self'
      = (MazeAgent.goal self, MazeAgent.possible_pits self,
         MazeAgent.safe_tiles self
         ∪ MazeAgent.get_cardinal_locs env (MazeAgent.loc perception) 1,
         MazeAgent.pit_tiles self).
Proof.
  intros Hclear Hwarn. unfold MazeAgent.think.
  unfold mbind at 1, MazeAgent.M_bind at 1.
  set (first := if decide (MazeAgent.tile perception ≠ MazeAgent.PIT_BLOCK K)
                then _ else _).
  assert (H0 : view (first self).2 = view self) by (subst first; by case_decide).
  destruct (first self) as [[] self0]. simpl in H0.
  unfold mbind at 1, MazeAgent.M_bind at 1.
  fold (clear_tile K (MazeAgent.tile perception)). rewrite Hclear.
  pose proof (clear_marks_view
    (loc_order o (MazeAgent.get_cardinal_locs env (MazeAgent.loc perception) 1))
    self0) as H1.
  rewrite list_to_set_loc_order in H1.
  match type of H1 with
  | view (?m self0).2 = _ => destruct (m self0) as [[] self1]
  end.
  simpl in H1.
  unfold mbind at 1, MazeAgent.M_bind at 1.
  rewrite bool_decide_eq_false_2 by done. simpl.
  exists self1. split; [done|]. rewrite H1.
  unfold view in H0. injection H0 as Hg Hp Hs Hpt. by rewrite Hg, Hp, Hs, Hpt.
Qed.

(** [think] on a severity-3 warning: the neighbours that are not known
    to be safe are among the pit tiles when the move is chosen. *)
Lemma think_three_view env perception self :
  clear_tile K (MazeAgent.tile perception) = false →
  MazeAgent.tile perception ∈ MazeAgent.WRN_BLOCKS K →
  MazeAgent.tile perception ≠ MazeAgent.WRN_FOUR_BLOCK K →
  MazeAgent.tile perception = MazeAgent.WRN_THREE_BLOCK K →
  ∃ self',
    MazeAgent.think K o budget env perception self
    = MazeAgent.find_best_next_move K o budget (MazeAgent.get_frontier_locs env)
        (MazeAgent.loc perception) self'
    ∧ view self'
      = (MazeAgent.goal self, MazeAgent.possible_pits self,
         MazeAgent.safe_tiles self,
         MazeAgent.pit_tiles self
         ∪ (MazeAgent.get_cardinal_locs env (MazeAgent.loc perception) 1
            ∖ MazeAgent.safe_tiles self)).
Proof.
  intros Hclear Hwarn Hfour Hthree. unfold MazeAgent.think.
  unfold mbind at 1, MazeAgent.M_bind at 1.
  set (first := if decide (MazeAgent.tile perception ≠ MazeAgent.PIT_BLOCK K)
                then _ else _).
  assert (H0 : view (first self).2 = view self) by (subst first; by case_decide).
  destruct (first self) as [[] self0]. simpl in H0.
  unfold mbind at 1, MazeAgent.M_bind at 1.
  fold (clear_tile K (MazeAgent.tile perception)). rewrite Hclear.
  unfold mret at 1, MazeAgent.M_ret at 1.
  unfold mbind at 1, MazeAgent.M_bind at 1.
  rewrite bool_decide_eq_true_2 by done.
  unfold MazeAgent.on_warning_tile.
  rewrite decide_False by done. rewrite decide_True by done.
  pose proof (guarded_marks_view
    (loc_order o (MazeAgent.get_cardinal_locs env (MazeAgent.loc perception) 1))
    self0) as H1.
  rewrite list_to_set_loc_order in H1.
  match type of H1 with
  | view (?m self0).2 = _ => destruct (m self0) as [[] self1]
  end.
  simpl in H1.
  exists self1. split; [done|]. rewrite H1.
  unfold view in H0. injection H0 as Hg Hp Hs Hpt. by rewrite Hg, Hp, Hs, Hpt.
Qed.

(** The first loop of [find_best_next_move] when the goal is not a
    candidate. *)
Lemma rank_moves_without_goal self todo current_loc priority_frontier :
  MazeAgent.goal self ∉ todo →
  MazeAgent.rank_moves self todo current_loc priority_frontier
  = inr (priority_frontier
         ++ ((λ m, (MazeAgent.priority self current_loc m, m)) <$> todo)).
Proof.
  revert priority_frontier. induction todo as [|m todo IH]; intros acc Hg; simpl.
  { by rewrite app_nil_r. }
  rewrite decide_False by (intros ->; apply Hg; by left).
  rewrite IH by (intros ?; apply Hg; by right).
  by rewrite <- app_assoc.
Qed.

Lemma priority_view self self' current_loc m :
  view self = view self' →
  MazeAgent.priority self current_loc m = MazeAgent.priority self' current_loc m.
Proof.
  unfold view, MazeAgent.priority. by intros [= -> -> _ ->].
Qed.

(** The severity-3 branch of [on_warning_tile]. *)
Lemma on_warning_tile_three_view tile adjacent self :
  tile ≠ MazeAgent.WRN_FOUR_BLOCK K → tile = MazeAgent.WRN_THREE_BLOCK K →
  view (MazeAgent.on_warning_tile K o budget tile adjacent self).2
  = (MazeAgent.goal self, MazeAgent.possible_pits self, MazeAgent.safe_tiles self,
     MazeAgent.pit_tiles self ∪ (adjacent ∖ MazeAgent.safe_tiles self)).
Proof.
  intros Hfour Hthree. unfold MazeAgent.on_warning_tile.
  rewrite decide_False by done. rewrite decide_True by done.
  by rewrite guarded_marks_view, list_to_set_loc_order.
Qed.

(** The agent built on a severity-3 warning. *)
Lemma init_three_view env perception :
  clear_tile K (MazeAgent.tile perception) = false →
  MazeAgent.tile perception ∈ MazeAgent.WRN_BLOCKS K →
  MazeAgent.tile perception ≠ MazeAgent.WRN_FOUR_BLOCK K →
  MazeAgent.tile perception = MazeAgent.WRN_THREE_BLOCK K →
  ∀ n, loc_order o (MazeAgent.get_cardinal_locs env (MazeAgent.get_goal_loc env) 1)
       = [n] →
  view (MazeAgent.init K o budget env perception)
  = (MazeAgent.get_goal_loc env, ∅,
     {[ MazeAgent.get_player_loc env; MazeAgent.get_goal_loc env ]} ∪ {[ n ]},
     MazeAgent.get_cardinal_locs env (MazeAgent.get_player_loc env) 1
     ∖ ({[ MazeAgent.get_player_loc env; MazeAgent.get_goal_loc env ]} ∪ {[ n ]})).
Proof.
  intros Hclear Hwarn Hfour Hthree n Hn.
  unfold MazeAgent.init, MazeAgent.add_starting_rules.
  unfold mbind at 1, MazeAgent.M_bind at 1, MazeAgent.get at 1.
  cbn [MazeAgent.goal MazeAgent.starting_loc].
  rewrite Hn. cbn [fmap list_fmap].
  fold (clear_tile K (MazeAgent.tile perception)). rewrite Hclear.
  rewrite bool_decide_eq_true_2 by done.
  unfold MazeAgent.tell, mbind, MazeAgent.M_bind, MazeAgent.modify, mret,
    MazeAgent.M_ret. cbn beta iota zeta.
  rewrite on_warning_tile_three_view by done. simpl.
  f_equal; [f_equal; set_solver|set_solver].
Qed.
End Views.

Ltac no_goal_among Hg :=
  rewrite Hg; intros Hin;
  repeat (apply elem_of_cons in Hin as [Hin|Hin]; [discriminate Hin|]);
  by apply elem_of_nil in Hin.

Ltac settle_lookups :=
  repeat
    match goal with
    | H : ?m ∉ ?X |- context [bool_decide (?m ∈ ?X)] =>
        rewrite (bool_decide_eq_false_2 (m ∈ X) H)
    | H : ?m ∈ ?X |- context [bool_decide (?m ∈ ?X)] =>
        rewrite (bool_decide_eq_true_2 (m ∈ X) H)
    end.

Ltac heapify_now :=
  match goal with
  | |- context [heapq.heapify ?lt ?l] =>
      let h := eval vm_compute in (heapq.heapify lt l) in
      let Hh := fresh "Hh" in
      assert (Hh : heapq.heapify lt l = h) by (vm_compute; reflexivity);
      rewrite !Hh; clear Hh
  end.

Lemma walk_1_choice o budget self :
  faithful o → MazeAgent.goal self = (4, 0) →
  known_pits self [(0, -1); (-1, 0); (0, 1); (1, 0)] →
  MazeAgent.find_best_next_move pitsweeper o budget
    (MazeAgent.get_frontier_locs (corridor_view {[ (0, 0) ]} (0, 0))) (0, 0) self
  = (Some (1, 0), self).
Proof.
  intros Hf Hg Hall.
  assert (Hp : loc_order o
                 (MazeAgent.get_frontier_locs (corridor_view {[ (0, 0) ]} (0, 0)))
               ∈ permutations [(0, -1); (-1, 0); (0, 1); (1, 0)]).
  { apply (loc_order_cases o _ _ Hf). vm_compute. reflexivity. }
  unfold MazeAgent.find_best_next_move, mbind, MazeAgent.M_bind, MazeAgent.get.
  revert Hp. generalize (loc_order o
    (MazeAgent.get_frontier_locs (corridor_view {[ (0, 0) ]} (0, 0)))).
  intros l Hp. vm_compute in Hp.
  unfold known_pits in Hall.
  apply Forall_cons in Hall as [(Ha1 & Ha2 & Ha3) Hall].
  apply Forall_cons in Hall as [(Hb1 & Hb2 & Hb3) Hall].
  apply Forall_cons in Hall as [(Hc1 & Hc2 & Hc3) Hall].
  apply Forall_cons in Hall as [(Hd1 & Hd2 & Hd3) _].
  repeat (apply elem_of_cons in Hp as [Hp|Hp]); [..|by apply elem_of_nil in Hp];
    subst l;
    (rewrite rank_moves_without_goal by no_goal_among Hg);
    cbn [app fmap list_fmap]; unfold MazeAgent.priority; rewrite Hg;
    settle_lookups;
    heapify_now;
    cbn [MazeAgent.first_safe snd]; unfold mbind, MazeAgent.M_bind;
    repeat (first [ rewrite is_safe_tile_known_pit by done
                  | rewrite (bool_decide_eq_false_2 (Some false = Some true)) by done ];
            cbn beta iota);
    reflexivity.
Qed.

Lemma walk_2_choice o budget self :
  faithful o → MazeAgent.goal self = (4, 0) →
  (2, 0) ∈ MazeAgent.safe_tiles self →
  (2, 0) ∉ MazeAgent.possible_pits self →
  (2, 0) ∉ MazeAgent.pit_tiles self →
  Forall (λ m, (m ∉ MazeAgent.possible_pits self) ∧ (m ∈ MazeAgent.pit_tiles self))
         [(0, -1); (-1, 0); (0, 1)] →
  MazeAgent.find_best_next_move pitsweeper o budget
    (MazeAgent.get_frontier_locs (corridor_view {[ (0, 0); (1, 0) ]} (1, 0)))
    (1, 0) self
  = (Some (2, 0), self).
Proof.
  intros Hf Hg Hs1 Hs2 Hs3 Hall.
  assert (Hp : loc_order o
                 (MazeAgent.get_frontier_locs
                    (corridor_view {[ (0, 0); (1, 0) ]} (1, 0)))
               ∈ permutations [(0, -1); (-1, 0); (0, 1); (2, 0)]).
  { apply (loc_order_cases o _ _ Hf). vm_compute. reflexivity. }
  unfold MazeAgent.find_best_next_move, mbind, MazeAgent.M_bind, MazeAgent.get.
  revert Hp. generalize (loc_order o
    (MazeAgent.get_frontier_locs (corridor_view {[ (0, 0); (1, 0) ]} (1, 0)))).
  intros l Hp. vm_compute in Hp.
  apply Forall_cons in Hall as [(Ha1 & Ha3) Hall].
  apply Forall_cons in Hall as [(Hb1 & Hb3) Hall].
  apply Forall_cons in Hall as [(Hc1 & Hc3) _].
  repeat (apply elem_of_cons in Hp as [Hp|Hp]); [..|by apply elem_of_nil in Hp];
    subst l;
    (rewrite rank_moves_without_goal by no_goal_among Hg);
    cbn [app fmap list_fmap]; unfold MazeAgent.priority; rewrite Hg;
    settle_lookups;
    heapify_now;
    cbn [MazeAgent.first_safe snd]; unfold mbind, MazeAgent.M_bind;
    rewrite is_safe_tile_known_safe by done;
    reflexivity.
Qed.

Lemma corridor_start_view o budget :
  faithful o →
  view (walk_0 o budget)
  = ((4, 0), ∅, {[ (0, 0); (4, 0) ]} ∪ {[ (3, 0) ]},
     corridor_locs (0, 0) 1 ∖ ({[ (0, 0); (4, 0) ]} ∪ {[ (3, 0) ]})).
Proof.
  intros Hf. unfold walk_0.
  apply (init_three_view pitsweeper o budget Hf
           (corridor_view {[ (0, 0) ]} (0, 0)) (corridor_look (0, 0))).
  - by vm_compute.
  - compute_done.
  - by vm_compute.
  - by vm_compute.
  - apply Permutation_singleton_r. rewrite (proj2 Hf _).
    by vm_compute.
Qed.

Lemma view_parts self g p s t :
  view self = (g, p, s, t) →
  MazeAgent.goal self = g ∧ MazeAgent.possible_pits self = p
  ∧ MazeAgent.safe_tiles self = s ∧ MazeAgent.pit_tiles self = t.
Proof. unfold view. by intros [= -> -> -> ->]. Qed.
(** C7: the confirmed-safe and the confirmed-hazard set should be
    disjoint in every state reached through construction and calls of
    [think].  In the corridor every perception is what the maze shows.
    Built on the start, a severity-3 warning, the agent marks every
    neighbour that is not yet confirmed safe as a pit, the free tile
    (1,0) among them.  [think] then sends it to (1,0) and on to (2,0),
    both clear tiles, and on (2,0) adds the neighbour (1,0) to the safe
    tiles without looking at the pit tiles: (1,0) is in both confirmed
    sets, whatever the iteration order and the time budget. *)
Theorem C7_confirmed_sets_overlap_on_a_truthful_walk o budget :
  faithful o →
  corridor_tile (0, 0) = "3"%string
  ∧ corridor_tile (1, 0) = "."%string
  ∧ corridor_tile (2, 0) = "."%string
  ∧ ((1, 0) ∉ corridor_pits)
  ∧ MazeAgent.reachable pitsweeper o budget (walk_3 o budget).2
  ∧ (walk_1 o budget).1 = Some (1, 0)
  ∧ (walk_2 o budget).1 = Some (2, 0)
  ∧ ((1, 0) ∈ MazeAgent.pit_tiles (walk_0 o budget))
  ∧ ((1, 0) ∈ MazeAgent.safe_tiles (walk_3 o budget).2)
  ∧ ((1, 0) ∈ MazeAgent.pit_tiles (walk_3 o budget).2)
  ∧ ¬ (MazeAgent.safe_tiles (walk_3 o budget).2
       ## MazeAgent.pit_tiles (walk_3 o budget).2).
Proof.
  intros Hf.
  split; [by vm_compute|]. split; [by vm_compute|]. split; [by vm_compute|].
  split; [compute_done|].
  split.
  { unfold walk_3, walk_2, walk_1, walk_0.
    do 3 apply (MazeAgent.reachable_run _ _ _ (MazeAgent.call_think _ _)).
    apply MazeAgent.reachable_init. }
  (* the start *)
  destruct (view_parts _ _ _ _ _ (corridor_start_view o budget Hf))
    as (Hg0 & Hq0 & Hs0 & Hp0).
  (* the first step *)
  destruct (think_three_view pitsweeper o budget Hf
              (corridor_view {[ (0, 0) ]} (0, 0)) (corridor_look (0, 0))
              (walk_0 o budget))
    as (s1 & Ht1 & Hv1); [by vm_compute|compute_done|by vm_compute|by vm_compute|].
  apply view_parts in Hv1 as (Hg1 & Hq1 & Hs1 & Hp1).
  rewrite Hg0 in Hg1. rewrite Hq0 in Hq1. rewrite Hs0 in Hs1. rewrite Hs0, Hp0 in Hp1.
  cbn [MazeAgent.get_cardinal_locs corridor_view MazeAgent.loc corridor_look] in Hp1.
  assert (H1 : walk_1 o budget = (Some (1, 0), s1)).
  { unfold walk_1. rewrite Ht1. apply walk_1_choice; [done|done|].
    unfold known_pits. rewrite Hq1, Hs1, Hp1.
    repeat (apply Forall_cons; split; [repeat split; compute_done|]).
    apply Forall_nil_2. }
  (* the second step *)
  destruct (think_clear_view pitsweeper o budget Hf
              (corridor_view {[ (0, 0); (1, 0) ]} (1, 0)) (corridor_look (1, 0)) s1)
    as (s2 & Ht2 & Hv2); [by vm_compute|compute_done|].
  apply view_parts in Hv2 as (Hg2 & Hq2 & Hs2 & Hp2).
  rewrite Hg1 in Hg2. rewrite Hq1 in Hq2. rewrite Hs1 in Hs2. rewrite Hp1 in Hp2.
  cbn [MazeAgent.get_cardinal_locs corridor_view MazeAgent.loc corridor_look] in Hs2.
  assert (H2 : walk_2 o budget = (Some (2, 0), s2)).
  { unfold walk_2. rewrite H1. cbn [snd]. rewrite Ht2.
    apply walk_2_choice; [done|done|..].
    - rewrite Hs2. compute_done.
    - rewrite Hq2. compute_done.
    - rewrite Hp2. compute_done.
    - rewrite Hq2, Hp2.
      repeat (apply Forall_cons; split; [repeat split; compute_done|]).
      apply Forall_nil_2. }
  (* the third step *)
  destruct (think_clear_view pitsweeper o budget Hf
              (corridor_view {[ (0, 0); (1, 0); (2, 0) ]} (2, 0))
              (corridor_look (2, 0)) s2)
    as (s3 & Ht3 & Hv3); [by vm_compute|compute_done|].
  apply view_parts in Hv3 as (Hg3 & Hq3 & Hs3 & Hp3).
  rewrite Hs2 in Hs3. rewrite Hp2 in Hp3.
  cbn [MazeAgent.get_cardinal_locs corridor_view MazeAgent.loc corridor_look] in Hs3.
  assert (Hsafe : (1, 0) ∈ MazeAgent.safe_tiles (walk_3 o budget).2).
  { unfold walk_3. rewrite H2. cbn [snd]. rewrite Ht3.
    apply (growing_find_best_next_move pitsweeper o budget _ _ s3).
    rewrite Hs3. compute_done. }
  assert (Hpit : (1, 0) ∈ MazeAgent.pit_tiles (walk_3 o budget).2).
  { unfold walk_3. rewrite H2. cbn [snd]. rewrite Ht3.
    apply (growing_find_best_next_move pitsweeper o budget _ _ s3).
    rewrite Hp3. compute_done. }
  split; [by rewrite H1|]. split; [by rewrite H2|].
  split; [rewrite Hp0; compute_done|].
  split; [done|]. split; [done|].
  intros Hd. by apply (Hd (1, 0)).
Qed.

Lemma C7_confirmed_sets_overlap_on_a_truthful_walk_witness :
  (walk_1 elements_order two_sweeps).1 = Some (1, 0)
  ∧ (walk_2 elements_order two_sweeps).1 = Some (2, 0)
  ∧ ((1, 0) ∈ MazeAgent.safe_tiles (walk_3 elements_order two_sweeps).2)
  ∧ ((1, 0) ∈ MazeAgent.pit_tiles (walk_3 elements_order two_sweeps).2).
Proof.
  destruct (C7_confirmed_sets_overlap_on_a_truthful_walk elements_order two_sweeps
              elements_order_faithful)
    as (_ & _ & _ & _ & _ & H1 & H2 & _ & Hs & Hp & _).
  exact (conj H1 (conj H2 (conj Hs Hp))).
Defined.

(** ** The agent: move selection *)

(** C8: the candidates should be examined in ascending priority, so that
    the safe candidate of least priority is returned.  [heapq.heapify]
    leaves a heap, not a sorted list.  With the goal at (4,0), the agent
    at (1,1), (0,0) and (0,1) confirmed safe and nothing known of (1,0),
    the frontier [{(0,0), (0,1), (1,0)}] is ranked 5, 5.5 and 3.5; the
    heap lists (1,0), (0,1), (0,0), and the move returned is (0,1)
    although (0,0) is safe and ranks lower. *)
Theorem C8_heap_order_is_not_ascending budget :
  frontier ≠ ∅
  ∧ (MazeAgent.goal scout ∉ frontier)
  ∧ (MazeAgent.find_best_next_move pitsweeper frontier_order budget
       frontier (1, 1) scout).1 = Some (0, 1)
  ∧ ((0, 0) ∈ frontier)
  ∧ (MazeAgent.is_safe_tile pitsweeper frontier_order budget (0, 0) scout).1
    = Some true
  ∧ Qlt (MazeAgent.priority scout (1, 1) (0, 0))
         (MazeAgent.priority scout (1, 1) (0, 1)).
Proof.
  split; [compute_done|]. split; [compute_done|].
  split; [|split; [compute_done|split; [by vm_compute|by vm_compute]]].
  unfold MazeAgent.find_best_next_move, mbind, MazeAgent.M_bind, MazeAgent.get.
  assert (Hrank :
    heapq.heapify MazeAgent.item_lt
      [(MazeAgent.priority scout (1, 1) (0, 1), (0, 1));
       (MazeAgent.priority scout (1, 1) (1, 0), (1, 0));
       (MazeAgent.priority scout (1, 1) (0, 0), (0, 0))]
    = [(MazeAgent.priority scout (1, 1) (1, 0), (1, 0));
       (MazeAgent.priority scout (1, 1) (0, 1), (0, 1));
       (MazeAgent.priority scout (1, 1) (0, 0), (0, 0))])
    by (vm_compute; reflexivity).
  assert (Hfront : MazeAgent.rank_moves scout
                     (loc_order frontier_order frontier) (1, 1) []
                   = inr [(MazeAgent.priority scout (1, 1) (0, 1), (0, 1));
                          (MazeAgent.priority scout (1, 1) (1, 0), (1, 0));
                          (MazeAgent.priority scout (1, 1) (0, 0), (0, 0))])
    by (vm_compute; reflexivity).
  rewrite Hfront, Hrank.
  cbn [MazeAgent.first_safe snd].
  unfold mbind, MazeAgent.M_bind.
  destruct (is_safe_tile_nothing_stored pitsweeper frontier_order budget (1, 0) scout)
    as (Hr & Hs & Hp); [apply frontier_order_faithful|done|compute_done..|].
  destruct (MazeAgent.is_safe_tile pitsweeper frontier_order budget (1, 0) scout)
    as [r self'].
  simpl in Hr, Hs, Hp. subst r.
  rewrite bool_decide_eq_false_2 by done.
  unfold MazeAgent.is_safe_tile, mbind, MazeAgent.M_bind, MazeAgent.get.
  rewrite Hs. rewrite bool_decide_eq_true_2 by compute_done.
  by vm_compute.
Qed.

(** * Further properties of the code *)

(** ** The constructor of a clause *)

(** Whatever the dictionary holds has been supplied. *)
Lemma init_fold_supplied (l : list (MazeProp * bool)) c0 :
  ∀ p b, MazeClause.props (foldl MazeClause.init_step c0 l) !! p = Some b →
         MazeClause.props c0 !! p = Some b ∨ (p, b) ∈ l.
Proof.
  induction l as [|x l IH] using rev_ind; simpl; [by left|].
  intros p b. rewrite foldl_app. simpl.
  set (c := foldl MazeClause.init_step c0 l) in *.
  unfold MazeClause.init_step.
  destruct (MazeClause.props c !! x.1) as [v|] eqn:E.
  - destruct (negb (eqb v x.2)); simpl.
    + intros [_ Hp]%lookup_delete_Some.
      destruct (IH _ _ Hp) as [?|?]; [by left|right]. apply elem_of_app. by left.
    + intros Hp. destruct (IH _ _ Hp) as [?|?]; [by left|right].
      apply elem_of_app. by left.
  - simpl. intros [[<- <-]|[_ Hp]]%lookup_insert_Some.
    + right. apply elem_of_app. right. destruct x. by apply list_elem_of_singleton.
    + destruct (IH _ _ Hp) as [?|?]; [by left|right]. apply elem_of_app. by left.
Qed.

(** The flag only goes up on a proposition supplied with both
    polarities. *)
Lemma init_valid_conflict (l : list (MazeProp * bool)) :
  MazeClause.valid (MazeClause.init l) = true →
  ∃ p, (p, true) ∈ l ∧ (p, false) ∈ l.
Proof.
  unfold MazeClause.init.
  induction l as [|x l IH] using rev_ind; simpl; [done|].
  rewrite foldl_app. simpl.
  set (c := foldl MazeClause.init_step _ l) in *.
  assert (Hmono : ∀ p b, (p, b) ∈ l → (p, b) ∈ l ++ [x]).
  { intros. apply elem_of_app. by left. }
  unfold MazeClause.init_step.
  destruct (MazeClause.props c !! x.1) as [v|] eqn:E.
  - destruct (eqb v x.2) eqn:Eb; simpl.
    + intros (p & ? & ?)%IH. exists p. split; by apply Hmono.
    + intros _. destruct (init_fold_supplied l _ _ _ E) as [Hp|Hp].
      { simpl in Hp. by rewrite lookup_empty in Hp. }
      exists x.1. destruct x as [q b]. simpl in *.
      assert ((q, b) ∈ l ++ [(q, b)]).
      { apply elem_of_app. right. by apply list_elem_of_singleton. }
      destruct v, b; try done; split; auto.
  - simpl. intros (p & ? & ?)%IH. exists p. split; by apply Hmono.
Qed.

Lemma init_unflagged (l : list (MazeProp * bool)) :
  conflict_free l → MazeClause.valid (MazeClause.init l) = false.
Proof.
  intros Hno. destruct (MazeClause.valid _) eqn:E; [|done].
  apply init_valid_conflict in E as (p & ? & ?). by destruct (Hno p).
Qed.

(** Without a conflict the dictionary holds exactly what was supplied. *)
Lemma init_lookup_supplied (l : list (MazeProp * bool)) :
  conflict_free l →
  ∀ p b, MazeClause.props (MazeClause.init l) !! p = Some b ↔ (p, b) ∈ l.
Proof.
  intros Hno p b. split.
  - intros Hp. destruct (init_fold_supplied l _ _ _ Hp) as [H0|?]; [|done].
    simpl in H0. by rewrite lookup_empty in H0.
  - apply (init_fold_agrees l (MazeClause.mk ∅ false)).
    by apply init_unflagged.
Qed.

Lemma conflict_free_example :
  conflict_free [(P 1 1, true); (P 1 2, false)].
Proof. intros p Ht Hf. set_solver. Qed.

(** X1: a clause is flagged valid exactly when some proposition was
    supplied to the constructor with both polarities, wherever in the
    list and however often. *)
Theorem init_flags_exactly_conflicts (l : list (MazeProp * bool)) :
  MazeClause.is_valid (MazeClause.init l) = true
  ↔ ∃ p, (p, true) ∈ l ∧ (p, false) ∈ l.
Proof.
  split.
  - apply init_valid_conflict.
  - intros (p & Ht & Hf). by apply (init_conflict_valid l p).
Qed.

(** X2: when no proposition is supplied with both polarities, the clause
    is not flagged valid and [get_prop] answers with the polarity of a
    proposition exactly when the pair was supplied; it answers [None]
    for every other proposition. *)
Theorem init_stores_what_is_supplied (l : list (MazeProp * bool)) :
  conflict_free l →
  MazeClause.is_valid (MazeClause.init l) = false
  ∧ (∀ p b, MazeClause.get_prop (MazeClause.init l) p = Some b ↔ (p, b) ∈ l)
  ∧ (∀ p, MazeClause.get_prop (MazeClause.init l) p = None
          ↔ ∀ b, (p, b) ∉ l).
Proof.
  intros Hno. split; [by apply init_unflagged|]. split.
  - by apply init_lookup_supplied.
  - intros p. unfold MazeClause.get_prop. rewrite eq_None_not_Some. split.
    + intros Hn b Hb. apply Hn. exists b. by apply init_lookup_supplied.
    + intros Hn [b Hb]. apply (Hn b). by apply init_lookup_supplied.
Qed.

Lemma init_stores_what_is_supplied_witness :
  MazeClause.is_valid (MazeClause.init [(P 1 1, true); (P 1 2, false)]) = false
  ∧ (∀ p b, MazeClause.get_prop (MazeClause.init [(P 1 1, true); (P 1 2, false)]) p
            = Some b ↔ (p, b) ∈ [(P 1 1, true); (P 1 2, false)])
  ∧ (∀ p, MazeClause.get_prop (MazeClause.init [(P 1 1, true); (P 1 2, false)]) p
          = None ↔ ∀ b, (p, b) ∉ [(P 1 1, true); (P 1 2, false)]).
Proof.
  exact (init_stores_what_is_supplied [(P 1 1, true); (P 1 2, false)]
           conflict_free_example).
Defined.

(** X3: without a conflict the clause does not depend on the order of
    the supplied pairs nor on how often a pair is repeated. *)
Theorem init_ignores_order_and_repeats (l l' : list (MazeProp * bool)) :
  conflict_free l →
  (∀ x, x ∈ l ↔ x ∈ l') →
  MazeClause.init l = MazeClause.init l'.
Proof.
  intros Hno Hsame.
  assert (Hno' : conflict_free l').
  { intros p ?%Hsame ?%Hsame. by apply (Hno p). }
  pose proof (init_unflagged l Hno) as Hv.
  pose proof (init_unflagged l' Hno') as Hv'.
  pose proof (init_lookup_supplied l Hno) as Hl.
  pose proof (init_lookup_supplied l' Hno') as Hl'.
  destruct (MazeClause.init l) as [m v], (MazeClause.init l') as [m' v'].
  simpl in *. subst. f_equal. apply map_eq. intros p. apply option_eq. intros b.
  by rewrite Hl, Hl', Hsame.
Qed.

Lemma init_ignores_order_and_repeats_witness :
  MazeClause.init [(P 1 1, true); (P 1 2, false)]
  = MazeClause.init [(P 1 2, false); (P 1 1, true); (P 1 2, false)].
Proof.
  apply init_ignores_order_and_repeats.
  - exact conflict_free_example.
  - intros x. set_solver.
Defined.

(** X4: the constructor yields the empty clause only from an empty
    list: a clause built from pairs that cancel is flagged valid, and a
    flagged clause is not empty. *)
Theorem is_empty_only_from_no_input (l : list (MazeProp * bool)) :
  MazeClause.is_empty (MazeClause.init l) = true ↔ l = [].
Proof.
  split; [|by intros ->].
  unfold MazeClause.is_empty, MazeClause.len.
  intros [Hv Hn]%andb_true_iff.
  apply negb_true_iff in Hv. apply bool_decide_eq_true in Hn.
  apply map_size_empty_iff in Hn.
  destruct l as [|[p b] l]; [done|exfalso].
  pose proof (init_fold_agrees ((p, b) :: l) (MazeClause.mk ∅ false) Hv p b) as Hp.
  unfold MazeClause.init in Hn. rewrite Hn, lookup_empty in Hp.
  by discriminate Hp; left.
Qed.

(** ** Resolution of two clauses *)

(** X5: [resolve] does not depend on the order of its arguments, returns
    at most one clause, and never a clause flagged valid. *)
Theorem resolve_symmetric_single_unflagged c1 c2 :
  MazeClause.resolve c1 c2 = MazeClause.resolve c2 c1
  ∧ (size (MazeClause.resolve c1 c2) ≤ 1)%nat
  ∧ ∀ r, r ∈ MazeClause.resolve c1 c2 → MazeClause.is_valid r = false.
Proof.
  split; [apply resolve_sym|].
  rewrite resolve_spec.
  destruct (clashes c1 c2) as [|p [|q rest]].
  - rewrite size_empty. split; [lia|]. intros r Hr. by apply elem_of_empty in Hr.
  - rewrite size_singleton. split; [lia|]. by intros r ->%elem_of_singleton.
  - rewrite size_empty. split; [lia|]. intros r Hr. by apply elem_of_empty in Hr.
Qed.

(** X6: [resolve] returns a clause exactly when the two clauses disagree
    on one single proposition; the clause then holds every other
    proposition of either clause with its polarity, and is not flagged. *)
Theorem resolve_iff c1 c2 r :
  r ∈ MazeClause.resolve c1 c2
  ↔ ∃ p, (∀ q, clash c1 c2 q = true ↔ q = p)
         ∧ MazeClause.is_valid r = false
         ∧ ∀ q, MazeClause.get_prop r q
                = if decide (q = p) then None
                  else match MazeClause.get_prop c1 q with
                       | Some x => Some x
                       | None => MazeClause.get_prop c2 q
                       end.
Proof.
  unfold MazeClause.get_prop, MazeClause.is_valid. split.
  - rewrite resolve_spec.
    destruct (clashes c1 c2) as [|p [|? ?]] eqn:Ec; [set_solver| |set_solver].
    intros ->%elem_of_singleton. exists p. split; [|split; [done|]].
    + intros q. rewrite <- elem_of_clashes, Ec. apply list_elem_of_singleton.
    + intros q. simpl. destruct (decide (q = p)) as [->|Hq].
      { by rewrite lookup_delete_eq. }
      rewrite lookup_delete_ne by done. rewrite lookup_union.
      destruct (MazeClause.props c1 !! q) as [v1|] eqn:E1,
               (MazeClause.props c2 !! q) as [v2|] eqn:E2; simpl; try done.
      by rewrite (single_clash_agree c1 c2 p q v1 v2 Ec Hq E1 E2).
  - intros (p & Hp & Hv & Hr).
    rewrite resolve_spec, (clashes_single c1 c2 p Hp).
    apply elem_of_singleton. destruct r as [m v]. simpl in *. subst v.
    f_equal. apply map_eq. intros q. rewrite Hr.
    destruct (decide (q = p)) as [->|Hq].
    { by rewrite lookup_delete_eq. }
    rewrite lookup_delete_ne by done. rewrite lookup_union.
    destruct (MazeClause.props c1 !! q) as [v1|] eqn:E1,
             (MazeClause.props c2 !! q) as [v2|] eqn:E2; simpl; try done.
    assert (Hc : clash c1 c2 q ≠ true) by (intros ?%Hp; done).
    unfold clash in Hc. rewrite E1, E2 in Hc. by destruct v1, v2.
Qed.

(** X7: [resolve] returns the empty clause exactly when the two clauses
    hold one and the same proposition, with opposite polarities, and
    nothing else. *)
Theorem resolve_empty_clause_iff c1 c2 :
  MazeClause.init [] ∈ MazeClause.resolve c1 c2
  ↔ ∃ p b, MazeClause.props c1 = {[ p := b ]}
           ∧ MazeClause.props c2 = {[ p := negb b ]}.
Proof.
  split.
  - rewrite resolve_spec.
    destruct (clashes c1 c2) as [|p [|? ?]] eqn:Ec; [set_solver| |set_solver].
    intros Heq%elem_of_singleton. injection Heq as Heq. symmetry in Heq.
    assert (Hp : clash c1 c2 p = true).
    { apply elem_of_clashes. rewrite Ec. by left. }
    apply clash_lookup in Hp as (b & H1 & H2).
    exists p, b.
    assert (Hout : ∀ q, q ≠ p → MazeClause.props c1 !! q = None
                                 ∧ MazeClause.props c2 !! q = None).
    { intros q Hq.
      assert (Hl : delete p (MazeClause.props c2 ∪ MazeClause.props c1) !! q = None)
        by (by rewrite Heq, lookup_empty).
      rewrite lookup_delete_ne, lookup_union_None in Hl by done. tauto. }
    split; apply map_eq; intros q; (destruct (decide (q = p)) as [->|Hq];
      [by rewrite lookup_singleton_eq
      |rewrite lookup_singleton_ne by done; by apply Hout]).
  - intros (p & b & H1 & H2). rewrite resolve_spec.
    rewrite (clashes_single c1 c2 p).
    + apply elem_of_singleton. unfold MazeClause.init. simpl. f_equal.
      rewrite H1, H2. apply map_eq. intros q. rewrite lookup_empty.
      destruct (decide (q = p)) as [->|Hq]; [by rewrite lookup_delete_eq|].
      rewrite lookup_delete_ne, lookup_union by done.
      by rewrite !lookup_singleton_ne.
    + intros q. unfold clash. rewrite H1, H2.
      destruct (decide (q = p)) as [->|Hq].
      * rewrite !lookup_singleton_eq. by destruct b.
      * rewrite !lookup_singleton_ne by done. split; [done|by intros ->].
Qed.

(** X8: resolution is sound literal by literal: an assignment under
    which each of the two clauses holds a true proposition makes a
    proposition of the resolvent true. *)
Theorem resolve_keeps_a_true_literal v c1 c2 r :
  some_literal_holds v c1 → some_literal_holds v c2 →
  r ∈ MazeClause.resolve c1 c2 → some_literal_holds v r.
Proof.
  intros H1 H2 Hr. by apply (resolve_sound v c1 c2 r).
Qed.

Lemma resolve_keeps_a_true_literal_witness :
  some_literal_holds only_pit_11 no_pit_12.
Proof.
  apply (resolve_keeps_a_true_literal only_pit_11 pit_at not_both no_pit_12).
  - exists (P 1 1), true. split; by vm_compute.
  - exists (P 1 2), false. split; by vm_compute.
  - compute_done.
Defined.

(** ** [invert] *)

Lemma inverted_inverted c : MazeClause.inverted (MazeClause.inverted c) = c.
Proof.
  destruct c as [m v]. unfold MazeClause.inverted. simpl.
  rewrite !invert_props_fmap. f_equal.
  rewrite <- map_fmap_compose. apply map_eq. intros p. rewrite lookup_fmap.
  destruct (m !! p) as [[]|]; done.
Qed.

(** X9: [invert] returns the receiver itself, with every polarity
    flipped and the flag and the length unchanged; a second call puts
    the store back as it was. *)
Theorem invert_twice_restores (h : MazeClause.store) (self : MazeClause.ref) c :
  h !! self = Some c →
  ∃ c' h1, MazeClause.invert self h = Some (self, h1)
           ∧ h1 = <[self := c']> h
           ∧ (∀ p, MazeClause.get_prop c' p = negb <$> MazeClause.get_prop c p)
           ∧ MazeClause.is_valid c' = MazeClause.is_valid c
           ∧ MazeClause.len c' = MazeClause.len c
           ∧ MazeClause.invert self h1 = Some (self, h).
Proof.
  intros Hc. exists (MazeClause.inverted c), (<[self := MazeClause.inverted c]> h).
  split; [by apply invert_aliases|]. split; [done|].
  split; [apply get_prop_inverted|]. split; [done|]. split.
  - unfold MazeClause.len, MazeClause.inverted. simpl.
    by rewrite invert_props_fmap, map_size_fmap.
  - rewrite (invert_aliases _ _ (MazeClause.inverted c)) by apply lookup_insert_eq.
    rewrite inverted_inverted, insert_insert_eq. by rewrite insert_id.
Qed.

Lemma invert_twice_restores_witness :
  ∃ c' h1, MazeClause.invert 0%nat one_clause_store = Some (0%nat, h1)
           ∧ h1 = <[0%nat := c']> one_clause_store
           ∧ (∀ p, MazeClause.get_prop c' p = negb <$> MazeClause.get_prop pit_at p)
           ∧ MazeClause.is_valid c' = MazeClause.is_valid pit_at
           ∧ MazeClause.len c' = MazeClause.len pit_at
           ∧ MazeClause.invert 0%nat h1 = Some (0%nat, one_clause_store).
Proof.
  apply (invert_twice_restores one_clause_store 0%nat pit_at).
  reflexivity.
Defined.

(** ** The relevance filter and [ask] *)

Lemma linked_stored kb seed c : linked kb seed c → c ∈ kb.
Proof. by destruct 1. Qed.

Lemma linked_touches_seed kb seed c :
  linked kb seed c → ∃ c' p, c' ∈ kb ∧ p ∈ dom (MazeClause.props c') ∧ p ∈ seed.
Proof. induction 1 as [c p ? ? ?|c c' p ? ? ? IH]; [by exists c, p|done]. Qed.

Lemma clause_order_singleton o (c : MazeClause.t) :
  faithful o → clause_order o {[ c ]} = [c].
Proof.
  intros Hf. apply Permutation_singleton_r.
  by rewrite (proj1 Hf _), elements_singleton.
Qed.

Lemma inverted_unit p b :
  MazeClause.inverted (MazeClause.init [(p, b)]) = MazeClause.init [(p, negb b)].
Proof.
  unfold MazeClause.inverted. rewrite invert_props_fmap, unit_props.
  rewrite map_fmap_singleton.
  replace (MazeClause.valid (MazeClause.init [(p, b)])) with false by done.
  rewrite <- (unit_props p (negb b)).
  by destruct (MazeClause.init [(p, negb b)]) eqn:E; simpl; injection E as ? <-.
Qed.

(** X10: [filter_clauses] returns, under every iteration order, the
    stored clauses that are linked to the query: those that share a
    proposition with the query or with a clause already linked. *)
Theorem filter_clauses_returns_the_linked_clauses o kb query :
  faithful o →
  ∃ R, MazeKnowledgeBase.filter_clauses o kb query = Some R
       ∧ R ⊆ MazeKnowledgeBase.clauses kb
       ∧ (∀ c, c ∈ R ↔ linked (MazeKnowledgeBase.clauses kb)
                               (dom (MazeClause.props query)) c).
Proof.
  intros Hf. destruct (filter_clauses_spec o kb query Hf) as (R & HR & HRl).
  exists R. split; [done|]. split; [|done].
  intros c Hc%HRl. by apply linked_stored in Hc.
Qed.

Lemma filter_clauses_returns_the_linked_clauses_witness :
  ∃ R, MazeKnowledgeBase.filter_clauses elements_order kb_not_both no_pit_12 = Some R
       ∧ R ⊆ MazeKnowledgeBase.clauses kb_not_both
       ∧ (∀ c, c ∈ R ↔ linked (MazeKnowledgeBase.clauses kb_not_both)
                               (dom (MazeClause.props no_pit_12)) c).
Proof.
  exact (filter_clauses_returns_the_linked_clauses elements_order kb_not_both
           no_pit_12 elements_order_faithful).
Defined.



(** X12: the loop of [ask] ends: some number of sweeps suffices, and
    every larger budget gives the same answer. *)
Theorem ask_returns_after_finitely_many_sweeps o kb query :
  faithful o →
  ∃ passes b, ∀ more,
    MazeKnowledgeBase.ask o (passes + more) kb query = Some b.
Proof. apply ask_terminates. Qed.

Lemma ask_returns_after_finitely_many_sweeps_witness :
  ∃ passes b, ∀ more,
    MazeKnowledgeBase.ask elements_order (passes + more) kb_not_both no_pit_12
    = Some b.
Proof.
  exact (ask_returns_after_finitely_many_sweeps elements_order kb_not_both
           no_pit_12 elements_order_faithful).
Defined.

(** X13: an answer [True] is sound when no stored clause is flagged
    valid: the query is not empty, and every one of its signed
    propositions, hence the query, holds in every assignment that
    satisfies the stored clauses. *)
Theorem ask_true_is_sound o passes kb query :
  faithful o →
  (∀ c, c ∈ MazeKnowledgeBase.clauses kb → MazeClause.is_valid c = false) →
  MazeKnowledgeBase.ask o passes kb query = Some true →
  MazeClause.is_empty query = false
  ∧ MazeClause.len query ≠ 0%nat
  ∧ entails_each_literal kb query
  ∧ entails kb query.
Proof.
  intros Hf Hflag Hask.
  destruct (ask_sound o passes kb query Hf Hflag Hask) as [Hne Hall].
  assert (Hlen : MazeClause.len query ≠ 0%nat).
  { unfold MazeClause.len. by intros ?%map_size_empty_iff. }
  split; [|split; [done|split; [done|]]].
  - unfold MazeClause.is_empty. rewrite bool_decide_eq_false_2 by done.
    apply andb_false_r.
  - by apply (ask_sound_entails o passes).
Qed.

Lemma ask_true_is_sound_witness :
  MazeClause.is_empty no_pit_12 = false
  ∧ MazeClause.len no_pit_12 ≠ 0%nat
  ∧ entails_each_literal kb_not_both no_pit_12
  ∧ entails kb_not_both no_pit_12.
Proof.
  apply (ask_true_is_sound elements_order 2 kb_not_both no_pit_12
           elements_order_faithful).
  - intros c Hc.
    assert (c = not_both ∨ c = pit_at) as [-> | ->] by set_solver; by vm_compute.
  - by vm_compute.
Defined.



(** X15: a query that shares no proposition with any stored clause is
    answered [False] in the first sweep. *)
Theorem ask_unrelated_query_is_false o passes kb query :
  faithful o → unrelated kb query →
  MazeKnowledgeBase.ask o (S passes) kb query = Some false.
Proof.
  intros Hf Hun. unfold MazeKnowledgeBase.ask.
  destruct (filter_clauses_spec o kb query Hf) as (R & -> & HR).
  assert (R = ∅) as ->.
  { apply set_eq. intros c. rewrite HR. split; [|set_solver].
    intros (c' & p & Hc' & Hp & Hs)%linked_touches_seed.
    destruct (Hun c' Hc' p Hp Hs). }
  rewrite (left_id_L ∅ (∪)). simpl.
  rewrite clause_order_singleton by done. simpl.
  by rewrite bool_decide_eq_true_2 by set_solver.
Qed.

Lemma ask_unrelated_query_is_false_witness :
  MazeKnowledgeBase.ask elements_order 1 kb_pit_11 pit_12 = Some false.
Proof.
  apply (ask_unrelated_query_is_false elements_order 0 kb_pit_11 pit_12
           elements_order_faithful).
  intros c Hc. assert (c = pit_at) as -> by set_solver.
  unfold pit_at, pit_12. rewrite !unit_props, !dom_singleton_L.
  apply disjoint_singleton_l. intros Heq%elem_of_singleton. discriminate Heq.
Defined.

(** X16: a single-proposition clause that is stored is confirmed in
    the first sweep, whatever else is stored. *)
Theorem ask_confirms_a_stored_unit_clause o passes kb p b :
  faithful o →
  MazeClause.init [(p, b)] ∈ MazeKnowledgeBase.clauses kb →
  MazeKnowledgeBase.ask o (S passes) kb (MazeClause.init [(p, b)]) = Some true.
Proof.
  intros Hf Hin. unfold MazeKnowledgeBase.ask.
  destruct (filter_clauses_spec o kb (MazeClause.init [(p, b)]) Hf)
    as (R & -> & HR).
  assert (HinR : MazeClause.init [(p, b)] ∈ R).
  { apply HR. apply (linked_seed _ _ _ p); [done|..];
      rewrite unit_props, dom_singleton_L; set_solver. }
  rewrite inverted_unit. simpl. rewrite resolve_pairs_spec.
  assert (Href : refuted (combinations2
            (clause_order o (R ∪ {[MazeClause.init [(p, negb b)]]}))) = true).
  { apply refuted_paired.
    exists (MazeClause.init [(p, b)]), (MazeClause.init [(p, negb b)]). split.
    - apply paired_distinct.
      + rewrite (proj1 Hf _), elem_of_elements. set_solver.
      + rewrite (proj1 Hf _), elem_of_elements. set_solver.
      + intros Heq. assert (Hl : MazeClause.props (MazeClause.init [(p, b)]) !! p
                               = MazeClause.props (MazeClause.init [(p, negb b)]) !! p)
          by (by rewrite Heq).
        rewrite !unit_props, !lookup_singleton_eq in Hl. by destruct b.
    - rewrite resolve_spec, (clashes_single _ _ p).
      + apply elem_of_singleton. unfold MazeClause.init at 1. simpl. f_equal.
        rewrite !unit_props. apply map_eq. intros q. rewrite lookup_empty.
        destruct (decide (q = p)) as [->|Hq]; [by rewrite lookup_delete_eq|].
        rewrite lookup_delete_ne, lookup_union by done.
        by rewrite !lookup_singleton_ne.
      + intros q. unfold clash. rewrite !unit_props.
        destruct (decide (q = p)) as [->|Hq].
        * rewrite !lookup_singleton_eq. by destruct b.
        * rewrite !lookup_singleton_ne by done. split; [done|by intros ->]. }
  by rewrite Href.
Qed.

Lemma ask_confirms_a_stored_unit_clause_witness :
  MazeKnowledgeBase.ask elements_order 1
    (MazeKnowledgeBase.tell kb_not_both (MazeClause.init [(P 1 3, true)]))
    (MazeClause.init [(P 1 3, true)]) = Some true.
Proof.
  apply (ask_confirms_a_stored_unit_clause elements_order 0 _ (P 1 3) true
           elements_order_faithful).
  simpl. set_solver.
Defined.

(** ** Simplification *)

(** What the loop of [get_simplified_clauses] gathers: resolvents of
    clauses of more or less than one proposition, and at most one clause
    to discard, which holds the known fact. *)
Lemma simplify_loop_spec todo loc is_pit sani to_add to_rem :
  let out := MazeKnowledgeBase.simplify_loop todo loc is_pit sani to_add to_rem in
  (∀ x, x ∈ out.1 →
        x ∈ to_add
        ∨ ∃ c, c ∈ todo ∧ MazeClause.len c ≠ 1%nat ∧ x ∈ MazeClause.resolve c sani)
  ∧ (out.2 = to_rem
     ∨ ∃ c, c ∈ todo ∧ MazeClause.len c ≠ 1%nat
            ∧ MazeClause.get_prop c ("P"%string, loc) = Some is_pit
            ∧ out.2 = to_rem ∪ {[ c ]}).
Proof.
  revert to_add. induction todo as [|c todo IH]; intros to_add; simpl.
  { split; [by left|by left]. }
  case_bool_decide as Hlen.
  - destruct (IH to_add) as [Ha Hr]. split.
    + intros x [?|(c' & ? & ? & ?)]%Ha; [by left|right].
      exists c'. split; [by right|done].
    + destruct Hr as [?|(c' & ? & ? & ? & ?)]; [by left|right].
      exists c'. split; [by right|done].
  - case_bool_decide as Hfact; simpl.
    + split; [by left|right]. exists c. split; [by left|done].
    + destruct (IH (to_add ∪ MazeClause.resolve c sani)) as [Ha Hr]. split.
      * intros x [[?|?]%elem_of_union|(c' & ? & ? & ?)]%Ha; [by left|right..].
        -- exists c. split; [by left|done].
        -- exists c'. split; [by right|done].
      * destruct Hr as [?|(c' & ? & ? & ? & ?)]; [by left|right].
        exists c'. split; [by right|done].
Qed.

(** The clause that one call discards holds the known fact. *)
Lemma get_simplified_clauses_drops o clauses loc is_pit :
  faithful o →
  ∃ gone, (size gone ≤ 1)%nat
    ∧ clauses ∖ MazeKnowledgeBase.get_simplified_clauses o clauses loc is_pit ⊆ gone
    ∧ ∀ c, c ∈ gone →
           MazeClause.len c ≠ 1%nat
           ∧ MazeClause.get_prop c ("P"%string, loc) = Some is_pit.
Proof.
  intros Hf. unfold MazeKnowledgeBase.get_simplified_clauses.
  pose proof (simplify_loop_spec (clause_order o clauses) loc is_pit
                (MazeClause.init [(("P"%string, loc), is_pit)]) ∅ ∅) as [_ Hr].
  destruct (MazeKnowledgeBase.simplify_loop _ _ _ _ _ _) as [to_add to_rem].
  simpl in Hr. destruct Hr as [->|(c0 & Hc0 & Hlen & Hfact & ->)].
  - exists ∅. split; [by rewrite size_empty; lia|]. split; [set_solver|].
    intros c Hc. by apply elem_of_empty in Hc.
  - exists {[ c0 ]}. split; [by rewrite size_singleton|]. split.
    + intros c [Hc Hn]%elem_of_difference.
      destruct (decide (c = c0)) as [->|Hne]; [set_solver|].
      exfalso. apply Hn. set_solver.
    + by intros c ->%elem_of_singleton.
Qed.

(** X17: one call of [get_simplified_clauses] discards at most one
    clause, and only a clause of more or less than one proposition that
    holds the known fact. *)
Theorem get_simplified_clauses_drops_at_most_one o clauses loc is_pit :
  faithful o →
  (size (clauses ∖ MazeKnowledgeBase.get_simplified_clauses o clauses loc is_pit)
   ≤ 1)%nat
  ∧ ∀ c, c ∈ clauses →
         c ∉ MazeKnowledgeBase.get_simplified_clauses o clauses loc is_pit →
         MazeClause.len c ≠ 1%nat
         ∧ MazeClause.get_prop c ("P"%string, loc) = Some is_pit.
Proof.
  intros Hf.
  destruct (get_simplified_clauses_drops o clauses loc is_pit Hf)
    as (gone & Hsize & Hsub & Hgone).
  split.
  - transitivity (size gone); [by apply subseteq_size|done].
  - intros c Hc Hn. apply Hgone, Hsub. set_solver.
Qed.

Lemma get_simplified_clauses_drops_at_most_one_witness :
  (size (two_subsumed
         ∖ MazeKnowledgeBase.get_simplified_clauses elements_order two_subsumed
             (1, 1)%Z true) ≤ 1)%nat
  ∧ ∀ c, c ∈ two_subsumed →
         c ∉ MazeKnowledgeBase.get_simplified_clauses elements_order two_subsumed
               (1, 1) true →
         MazeClause.len c ≠ 1%nat
         ∧ MazeClause.get_prop c ("P"%string, (1, 1)) = Some true.
Proof.
  exact (get_simplified_clauses_drops_at_most_one elements_order two_subsumed
           (1, 1) true elements_order_faithful).
Defined.

Lemma get_simplified_clauses_adds_resolvents_aux o clauses loc is_pit c :
  faithful o →
  c ∈ MazeKnowledgeBase.get_simplified_clauses o clauses loc is_pit →
  c ∉ clauses →
  MazeClause.is_valid c = false
  ∧ MazeClause.is_empty c = false
  ∧ ∃ c0, c0 ∈ clauses
          ∧ MazeClause.get_prop c0 ("P"%string, loc) = Some (negb is_pit)
          ∧ MazeClause.props c = delete ("P"%string, loc) (MazeClause.props c0).
Proof.
  intros Hf. unfold MazeKnowledgeBase.get_simplified_clauses.
  pose proof (simplify_loop_spec (clause_order o clauses) loc is_pit
                (MazeClause.init [(("P"%string, loc), is_pit)]) ∅ ∅) as [Ha _].
  destruct (MazeKnowledgeBase.simplify_loop _ _ _ _ _ _) as [to_add to_rem].
  simpl in Ha.
  intros [[?|Hadd]%elem_of_union _]%elem_of_difference Hnew; [done|].
  apply Ha in Hadd as [?|(c0 & Hc0 & Hlen & Hr)]; [set_solver|].
  rewrite (proj1 Hf clauses), elem_of_elements in Hc0.
  apply resolve_unit in Hr as [Hp ->].
  split; [done|]. split.
  - unfold MazeClause.is_empty, MazeClause.len. simpl.
    rewrite bool_decide_eq_false_2; [done|].
    rewrite map_size_delete, Hp. unfold MazeClause.len in Hlen.
    assert (size (MazeClause.props c0) ≠ 0%nat); [|lia].
    intros Hz%map_size_empty_iff. by rewrite Hz, lookup_empty in Hp.
  - by exists c0.
Qed.

(** X18: a clause that one call of [get_simplified_clauses] adds is the
    resolvent of a stored clause with the known fact: the stored clause
    holds the opposite of the fact, and the new clause is that clause
    without the proposition; it is neither flagged nor empty. *)
Theorem get_simplified_clauses_adds_resolvents o clauses loc is_pit c :
  faithful o →
  c ∈ MazeKnowledgeBase.get_simplified_clauses o clauses loc is_pit →
  c ∉ clauses →
  MazeClause.is_valid c = false
  ∧ MazeClause.is_empty c = false
  ∧ ∃ c0, c0 ∈ clauses
          ∧ MazeClause.get_prop c0 ("P"%string, loc) = Some (negb is_pit)
          ∧ MazeClause.props c = delete ("P"%string, loc) (MazeClause.props c0).
Proof. apply get_simplified_clauses_adds_resolvents_aux. Qed.

Lemma get_simplified_clauses_adds_resolvents_witness :
  MazeClause.is_valid pit_12 = false
  ∧ MazeClause.is_empty pit_12 = false
  ∧ ∃ c0, c0 ∈ ({[ pit_11_or_12 ]} : gset MazeClause.t)
          ∧ MazeClause.get_prop c0 ("P"%string, (1, 1)) = Some (negb false)
          ∧ MazeClause.props pit_12
            = delete ("P"%string, (1, 1)) (MazeClause.props c0).
Proof.
  apply (get_simplified_clauses_adds_resolvents elements_order
           {[ pit_11_or_12 ]} (1, 1) false pit_12 elements_order_faithful).
  - compute_done.
  - compute_done.
Defined.





(** ** The agent: what the calls leave behind *)

(** X20: no call ever removes a location from the confirmed-safe, the
    confirmed-pit or the suspected set: along every sequence of [think]
    and [is_safe_tile] calls the three sets only grow. *)
Theorem calls_only_grow_the_location_sets K o budget calls self :
  MazeAgent.safe_tiles self ⊆ MazeAgent.safe_tiles (run_all K o budget calls self)
  ∧ MazeAgent.pit_tiles self ⊆ MazeAgent.pit_tiles (run_all K o budget calls self)
  ∧ MazeAgent.possible_pits self
    ⊆ MazeAgent.possible_pits (run_all K o budget calls self).
Proof.
  change (grows self (run_all K o budget calls self)).
  revert self. induction calls as [|c calls IH]; intros self.
  - apply grows_refl.
  - simpl. eapply grows_trans; [apply growing_run|apply IH].
Qed.

Lemma growing_add_starting_rules_rest K o budget (c : MazeClause.t)
    (m1 m2 : MazeAgent.M unit) tile adjacent :
  growing m1 → growing m2 →
  growing (_ ← MazeAgent.tell c; _ ← m1; _ ← m2;
           if bool_decide (tile ∈ MazeAgent.WRN_BLOCKS K)
           then MazeAgent.on_warning_tile K o budget tile adjacent
           else mret tt).
Proof.
  intros H1 H2.
  apply growing_bind; [apply growing_tell|intros ?].
  apply growing_bind; [done|intros ?].
  apply growing_bind; [done|intros ?].
  case_bool_decide; [apply growing_on_warning_tile|apply growing_ret].
Qed.

Lemma init_confirms_start_and_goal K o budget env perception :
  {[ MazeAgent.get_player_loc env; MazeAgent.get_goal_loc env ]}
  ⊆ MazeAgent.safe_tiles (MazeAgent.init K o budget env perception).
Proof.
  unfold MazeAgent.init, MazeAgent.add_starting_rules.
  unfold mbind at 1, MazeAgent.M_bind at 1, MazeAgent.get at 1.
  cbn [MazeAgent.goal MazeAgent.starting_loc].
  unfold mbind at 1, MazeAgent.M_bind at 1, MazeAgent.modify at 1.
  match goal with
  | |- _ ⊆ MazeAgent.safe_tiles (?m ?s).2 =>
      assert (Hg : growing m); [|etrans; [|apply (Hg s)]]
  end.
  - apply growing_add_starting_rules_rest.
    + destruct (_ <$> _) as [|? [|? ?]]; grow.
    + destruct (_ || _); grow.
  - simpl. set_solver.
Qed.

(** X21: the start and the goal are confirmed safe when the agent is
    built, whatever the first perception, and stay so through every
    sequence of calls. *)
Theorem start_and_goal_stay_confirmed_safe K o budget env perception calls :
  MazeAgent.get_player_loc env
  ∈ MazeAgent.safe_tiles
      (run_all K o budget calls (MazeAgent.init K o budget env perception))
  ∧ MazeAgent.get_goal_loc env
    ∈ MazeAgent.safe_tiles
        (run_all K o budget calls (MazeAgent.init K o budget env perception)).
Proof.
  pose proof (init_confirms_start_and_goal K o budget env perception) as Hi.
  assert (Hg : grows (MazeAgent.init K o budget env perception)
                 (run_all K o budget calls (MazeAgent.init K o budget env perception))).
  { generalize (MazeAgent.init K o budget env perception).
    induction calls as [|c calls IH]; intros self; [apply grows_refl|].
    simpl. eapply grows_trans; [apply growing_run|apply IH]. }
  destruct Hg as (Hs & _ & _).
  split; apply Hs, Hi; set_solver.
Qed.

(** X22: a call of [think] on a clear tile leaves every cardinal
    neighbour of the tile confirmed safe. *)
Theorem think_on_a_clear_tile_confirms_the_neighbours
    K o budget env perception self :
  faithful o →
  clear_tile K (MazeAgent.tile perception) = true →
  MazeAgent.get_cardinal_locs env (MazeAgent.loc perception) 1
  ⊆ MazeAgent.safe_tiles (MazeAgent.think K o budget env perception self).2.
Proof.
  intros Hf Hclear. unfold MazeAgent.think.
  unfold mbind at 1, MazeAgent.M_bind at 1.
  set (first := if decide (MazeAgent.tile perception ≠ MazeAgent.PIT_BLOCK K)
                then _ else _).
  destruct (first self) as [[] self0].
  unfold mbind at 1, MazeAgent.M_bind at 1.
  fold (clear_tile K (MazeAgent.tile perception)). rewrite Hclear.
  pose proof (clear_marks_view K o Hf
    (loc_order o (MazeAgent.get_cardinal_locs env (MazeAgent.loc perception) 1))
    self0) as H1.
  rewrite (list_to_set_loc_order o Hf) in H1.
  match type of H1 with
  | view (?m self0).2 = _ => destruct (m self0) as [[] self1]
  end.
  simpl in H1. apply view_parts in H1 as (_ & _ & Hs & _).
  match goal with
  | |- _ ⊆ MazeAgent.safe_tiles (?m self1).2 =>
      assert (Hg : growing m); [|etrans; [|apply (Hg self1)]]
  end.
  - apply growing_bind; [|intros ?; apply growing_find_best_next_move].
    case_bool_decide; [apply growing_on_warning_tile|apply growing_ret].
  - rewrite Hs. set_solver.
Qed.

Lemma think_on_a_clear_tile_confirms_the_neighbours_witness :
  MazeAgent.get_cardinal_locs one_step_east (1, 0) 1
  ⊆ MazeAgent.safe_tiles
      (MazeAgent.think pitsweeper elements_order two_sweeps one_step_east
         {| MazeAgent.loc := (1, 0); MazeAgent.tile := "." |} started).2.
Proof.
  apply (think_on_a_clear_tile_confirms_the_neighbours pitsweeper elements_order
           two_sweeps one_step_east
           {| MazeAgent.loc := (1, 0); MazeAgent.tile := "." |} started
           elements_order_faithful).
  reflexivity.
Defined.

(** ** The agent: classification of a location *)

(** X23: [is_safe_tile] records what it answers: after [True] the
    location is confirmed safe, after [False] it is a confirmed pit,
    after [None] it is suspected; and no other location enters any of
    the three sets. *)
Theorem is_safe_tile_records_its_answer K o budget l self :
  match (MazeAgent.is_safe_tile K o budget l self).1 with
  | Some true => l ∈ MazeAgent.safe_tiles (MazeAgent.is_safe_tile K o budget l self).2
  | Some false => l ∈ MazeAgent.pit_tiles (MazeAgent.is_safe_tile K o budget l self).2
  | None => l ∈ MazeAgent.possible_pits (MazeAgent.is_safe_tile K o budget l self).2
  end
  ∧ MazeAgent.safe_tiles (MazeAgent.is_safe_tile K o budget l self).2
    ⊆ MazeAgent.safe_tiles self ∪ {[ l ]}
  ∧ MazeAgent.pit_tiles (MazeAgent.is_safe_tile K o budget l self).2
    ⊆ MazeAgent.pit_tiles self ∪ {[ l ]}
  ∧ MazeAgent.possible_pits (MazeAgent.is_safe_tile K o budget l self).2
    ⊆ MazeAgent.possible_pits self ∪ {[ l ]}.
Proof.
  destruct (decide (l ∈ MazeAgent.safe_tiles self)) as [Hs|Hs].
  { rewrite (is_safe_tile_known_safe K o budget) by done. simpl. set_solver. }
  destruct (decide (l ∈ MazeAgent.pit_tiles self)) as [Hp|Hp].
  { rewrite (is_safe_tile_known_pit K o budget) by done. simpl. set_solver. }
  rewrite is_safe_tile_unknown by done.
  destruct (answer_1 K o budget l self) as [[]|]; [simpl; set_solver| |simpl; set_solver].
  destruct (answer_2 K o budget l self) as [[]|]; simpl; set_solver.
Qed.

(** X24: a location that is in one of the confirmed sets is answered
    from the sets alone: the agent is left as it was, no query is made,
    and the confirmed-safe set is looked at first. *)
Theorem is_safe_tile_answers_from_the_confirmed_sets K o budget l self :
  l ∈ MazeAgent.safe_tiles self ∨ l ∈ MazeAgent.pit_tiles self →
  MazeAgent.is_safe_tile K o budget l self
  = (Some (bool_decide (l ∈ MazeAgent.safe_tiles self)), self).
Proof.
  intros Hin. destruct (decide (l ∈ MazeAgent.safe_tiles self)) as [Hs|Hs].
  - rewrite (is_safe_tile_known_safe K o budget) by done.
    by rewrite bool_decide_eq_true_2.
  - destruct Hin as [?|Hp]; [done|].
    rewrite (is_safe_tile_known_pit K o budget) by done.
    by rewrite bool_decide_eq_false_2.
Qed.

Lemma is_safe_tile_answers_from_the_confirmed_sets_witness :
  MazeAgent.is_safe_tile pitsweeper elements_order never (0, 1) scout
  = (Some (bool_decide ((0, 1) ∈ MazeAgent.safe_tiles scout)), scout).
Proof.
  apply (is_safe_tile_answers_from_the_confirmed_sets pitsweeper elements_order
           never (0, 1) scout).
  left. compute_done.
Defined.

(** ** The agent: move selection *)




Section HeapLength.
Context {A : Type} `{Inhabited A} (lt : A → A → bool).





End HeapLength.



(** ** The agent: the clauses of a warning *)

Lemma conflict_free_same b (l : list (MazeProp * bool)) :
  Forall (λ x, x.2 = b) l → conflict_free l.
Proof.
  intros Hall p Ht Hf. rewrite Forall_forall in Hall.
  pose proof (Hall _ Ht) as H1. pose proof (Hall _ Hf) as H2.
  simpl in *. congruence.
Qed.

Lemma holds_init v (l : list (MazeProp * bool)) :
  conflict_free l →
  holds v (MazeClause.init l) ↔ Exists (λ x, v x.1 = x.2) l.
Proof.
  intros Hno. unfold holds. rewrite (init_unflagged l Hno), Exists_exists. split.
  - intros [?|(p & b & Hp & Hv)]; [done|]. exists (p, b).
    split; [by apply init_lookup_supplied|done].
  - intros ([p b] & Hp & Hv). right. exists p, b.
    split; [by apply init_lookup_supplied|done].
Qed.

Lemma models_tell v kb c :
  models v (MazeKnowledgeBase.tell kb c) ↔ models v kb ∧ holds v c.
Proof.
  unfold models, MazeKnowledgeBase.tell. simpl. split.
  - intros Hm. split; [intros c' Hc'; apply Hm; set_solver|apply Hm; set_solver].
  - intros [Hm Hc] c' [?| ->%elem_of_singleton]%elem_of_union; [by apply Hm|done].
Qed.

(** X27: the four clauses that [CNF_to_KB] tells for three tiles and a
    count of one or two say exactly that: an assignment satisfies the
    knowledge base afterwards when it satisfied it before and makes
    exactly that many of the three tiles pits. *)
Theorem CNF_to_KB_says_exactly_that_many K v t0 t1 t2 n self :
  n = 1 ∨ n = 2 →
  (models v (MazeAgent.kb (MazeAgent.CNF_to_KB K [t0; t1; t2] n self).2)
   ↔ models v (MazeAgent.kb self) ∧ pit_count K v [t0; t1; t2] = Z.to_nat n).
Proof.
  intros Hn. unfold MazeAgent.CNF_to_KB, pit_count.
  cbn [lookup_total list_lookup_total].
  assert (Hsame : ∀ b l, Forall (λ x : MazeProp * bool, x.2 = b) l → conflict_free l)
    by apply conflict_free_same.
  destruct Hn as [-> | ->].
  - rewrite decide_False by done. rewrite decide_True by done.
    unfold MazeAgent.tell, MazeAgent.modify, mbind, MazeAgent.M_bind. simpl.
    rewrite !models_tell.
    rewrite !holds_init by (eapply Hsame; repeat constructor).
    rewrite !Exists_cons, !Exists_nil. cbn [fst snd].
    cbn [filter list_filter].
    destruct (v (MazeAgent.PIT_BLOCK K, t0)), (v (MazeAgent.PIT_BLOCK K, t1)),
             (v (MazeAgent.PIT_BLOCK K, t2)); simpl; naive_solver.
  - rewrite decide_True by done.
    unfold MazeAgent.tell, MazeAgent.modify, mbind, MazeAgent.M_bind. simpl.
    rewrite !models_tell.
    rewrite !holds_init by (eapply Hsame; repeat constructor).
    rewrite !Exists_cons, !Exists_nil. cbn [fst snd].
    cbn [filter list_filter].
    destruct (v (MazeAgent.PIT_BLOCK K, t0)), (v (MazeAgent.PIT_BLOCK K, t1)),
             (v (MazeAgent.PIT_BLOCK K, t2)); simpl; naive_solver.
Qed.

Lemma CNF_to_KB_says_exactly_that_many_witness :
  models only_pit_11
    (MazeAgent.kb
       (MazeAgent.CNF_to_KB pitsweeper [(1, 1); (1, 2); (1, 3)] 1 blank_agent).2)
  ↔ models only_pit_11 (MazeAgent.kb blank_agent)
    ∧ pit_count pitsweeper only_pit_11 [(1, 1); (1, 2); (1, 3)] = Z.to_nat 1.
Proof.
  exact (CNF_to_KB_says_exactly_that_many pitsweeper only_pit_11
           (1, 1) (1, 2) (1, 3) 1 blank_agent (or_introl eq_refl)).
Defined.
